(** * DST Core: the satisfaction and navigation engine of scripts/dst-core.js

    A shallow embedding of [DSTCore.create] and of the methods of the engine
    object it returns, followed by the properties of the engine: the
    satisfaction evaluator and its memo tables, the navigator, the selection
    state and the index builder.

    Modelling conventions.
    - A JavaScript object used as a dictionary that the code only looks up
      by key is a [gmap string _].  A dictionary that the code also
      enumerates ([for .. in], [Object.keys], [Object.values]) is a [JSObj]:
      an association list in the order in which the own properties
      enumerate: the keys that are array indices first, in ascending numeric
      order, then the other keys in insertion order.
    - These tables hold the own properties of the object.  A read [m[k]] of
      a key that is no own property gives what [Object.prototype] holds
      under that name: [inherited] tells the names for which it holds
      something.  The reads that take a key from the caller or from the
      data are modelled so: the group table in [isGroupSatisfied], the
      selection in [check] and [toggle], [children_by_parent] in
      [getDirectChildren], [criteriaByCode] in [buildIndices], and
      [codeNames] in the classification helpers.  [getCriterionByCode]
      returns [undefined] for an inherited value as for no value.  A read
      with the identity [crit_clause] of a criterion, or with a key that
      the engine has enumerated from one of its own tables, is a lookup of
      own properties: an identity is no inherited name, and neither is a
      code that [buildIndices] has let pass.
    - Strings are sequences of single-byte characters, so [String.length] is
      the JavaScript [length] for the ASCII codes and identifiers of the data.
    - [clause] and [parent_clause] are integers; [parent_clause] may also be
      the empty string, which is [None].  [logic] is any string.
    - The methods that read through the memo tables mutate them; they are
      state-passing functions on [Engine].  The recursion of
      [isClauseSatisfied] follows the data and need not end on cyclic data,
      so it takes fuel (the depth of the call stack); [None] is a stack
      overflow.
    - A change listener is an opaque function reference.  Calling it is
      recorded as a [Call] together with the engine it is passed.  Two kinds
      of listeners are modelled: those that return without touching the
      engine, and those that call the unsubscribe function they got from
      [onChange] when they are notified.  Listeners that call other methods
      of the engine are not modelled.
    - A [TypeError] thrown by a method is a result of its own: [None] for
      [getDirectChildren], [buildIndices] and [create], and the answer
      [ATypeError] of a read.
    - [localeCompare] is the host's; it is a parameter of [buildIndices] and
      of [getCheckedLeaves], the two places that sort. *)

From Stdlib Require Import ZArith String List Bool Lia.
From stdpp Require Import gmap strings list fin_maps pretty.

Local Open Scope Z_scope.

(** ** Data model *)

(** Where a criterion object comes from: the input records, an outcome
    injected as a navigation group ([_fromOutcome]), or a synthetic root
    ([_synthetic]). *)
Inductive Origin := FromInput | FromOutcome | Synthetic.

Record Criterion := {
  crit : string;
  clause : Z;
  parent_clause : option Z;
  logic : string;
  content : string;
  depth : Z;
  origin : Origin
}.

Record Outcome := {
  o_content : option string;
  o_logic : option string
}.

#[global] Instance Origin_eq_dec : EqDecision Origin.
Proof. solve_decision. Defined.

#[global] Instance Criterion_eq_dec : EqDecision Criterion.
Proof. solve_decision. Defined.

(** *** Dictionaries in enumeration order *)

Definition JSObj (V : Type) := list (string * V).

Definition oget {V} (m : JSObj V) (k : string) : option V :=
  snd <$> List.find (fun p => String.eqb (fst p) k) m.

Definition okeys {V} (m : JSObj V) : list string := map fst m.

(** The value of a decimal digit. *)
Definition digit_value (a : Ascii.ascii) : option N :=
  let n := Ascii.N_of_ascii a in
  if ((48 <=? n) && (n <=? 57))%N then Some (n - 48)%N else None.

Fixpoint digits_value (s : string) (acc : N) : option N :=
  match s with
  | EmptyString => Some acc
  | String a s' =>
      match digit_value a with
      | Some d => digits_value s' (10 * acc + d)%N
      | None => None
      end
  end.

(** An array index: the canonical decimal form of an integer from 0 to
    2^32 - 2. *)
Definition array_index (k : string) : option N :=
  match k with
  | EmptyString => None
  | String a rest =>
      if (Ascii.N_of_ascii a =? 48)%N
      then match rest with
           | EmptyString => Some 0%N
           | String _ _ => None
           end
      else match digits_value k 0%N with
           | Some n => if (n <? 4294967295)%N then Some n else None
           | None => None
           end
  end.

(** A new key [k] enumerates before the key [k'] the object holds. *)
Definition key_before (k k' : string) : bool :=
  match array_index k, array_index k' with
  | Some n, Some n' => (n <? n')%N
  | Some _, None => true
  | None, _ => false
  end.

(** Writing to a property the object has keeps its place. *)
Fixpoint oreplace {V} (m : JSObj V) (k : string) (v : V) : JSObj V :=
  match m with
  | [] => []
  | (k', v') :: m' =>
      if String.eqb k' k then (k', v) :: m' else (k', v') :: oreplace m' k v
  end.

(** A new property goes where it enumerates. *)
Fixpoint oinsert {V} (m : JSObj V) (k : string) (v : V) : JSObj V :=
  match m with
  | [] => [(k, v)]
  | (k', v') :: m' =>
      if key_before k k' then (k, v) :: m else (k', v') :: oinsert m' k v
  end.

(** [m[k] = v] *)
Definition oset {V} (m : JSObj V) (k : string) (v : V) : JSObj V :=
  if existsb (String.eqb k) (okeys m) then oreplace m k v else oinsert m k v.

Definition ovalues {V} (m : JSObj V) : list V := map snd m.

(** *** JavaScript helpers *)

(** [a || d] on strings: the empty string and [undefined] are falsy. *)
Definition js_or (a : option string) (d : string) : string :=
  match a with
  | Some s => if String.eqb s "" then d else s
  | None => d
  end.

(** [!!m[k]] on a dictionary of booleans. *)
Definition truthy (v : option bool) : bool :=
  match v with
  | Some true => true
  | _ => false
  end.

(** *** Properties every plain object inherits

    The names of the properties of [Object.prototype].  Each holds a
    function ([__proto__] gives the prototype object itself): a value that
    is truthy and is not [undefined], and that has no method [push], [map]
    or [forEach]. *)
Definition proto_names : list string :=
  ["constructor"; "__defineGetter__"; "__defineSetter__"; "hasOwnProperty";
   "__lookupGetter__"; "__lookupSetter__"; "isPrototypeOf";
   "propertyIsEnumerable"; "toString"; "valueOf"; "__proto__";
   "toLocaleString"].

Definition inherited (k : string) : bool :=
  existsb (String.eqb k) proto_names.

(** What a method that reads a table of booleans may return: a boolean, or
    the value inherited under a name. *)
Inductive Value := VBool (b : bool) | VProto (name : string).

#[global] Instance Value_eq_dec : EqDecision Value.
Proof. solve_decision. Defined.

Definition js_truthy (v : Value) : bool :=
  match v with
  | VBool b => b
  | VProto _ => true
  end.

(** [s.slice(0, -1)] *)
Definition slice_last (s : string) : string :=
  String.substring 0 (String.length s - 1)%nat s.

(** [xs.every(f)] and [xs.some(f)] on a list of booleans already computed. *)
Definition every_true (bs : list bool) : bool := forallb (fun r => r) bs.
Definition some_true (bs : list bool) : bool := existsb (fun r => r) bs.

(** A stable sort with a numeric comparator, as [Array.prototype.sort] is
    for a comparator that is a consistent order. *)
Fixpoint sort_insert {A} (cmp : A -> A -> Z) (x : A) (l : list A) : list A :=
  match l with
  | [] => [x]
  | y :: l' => if cmp x y <=? 0 then x :: y :: l' else y :: sort_insert cmp x l'
  end.

Definition js_sort {A} (cmp : A -> A -> Z) (l : list A) : list A :=
  foldr (sort_insert cmp) [] l.

(** ** The engine object *)

Record Group := {
  g_code : string;
  g_items : list Criterion
}.

(** A change listener: a function reference, numbered.  A [Listener]
    returns without touching the engine; a [OneShot] calls, when it is
    notified, the unsubscribe function that [onChange] returned for it. *)
Inductive Fn := Listener (n : nat) | OneShot (n : nat).

#[global] Instance Fn_eq_dec : EqDecision Fn.
Proof. solve_decision. Defined.

Record Engine := {
  allCriteria : list Criterion;
  outcomes : JSObj Outcome;
  codeNames : gmap string string;
  checkedCriteria : gmap string bool;
  criteriaByCode : JSObj (list Criterion);
  clauseChildrenMap : gmap string (list Criterion);
  groupRoots : JSObj Criterion;
  groupedCriteria : list Group;
  children_by_parent : gmap string (list string);
  _satCache : gmap string bool;
  _groupSatCache : gmap string bool;
  _leafCache : gmap string bool;
  _listeners : list Fn
}.

Definition set_checkedCriteria (f : gmap string bool -> gmap string bool)
    (e : Engine) : Engine :=
  {| allCriteria := allCriteria e; outcomes := outcomes e;
     codeNames := codeNames e; checkedCriteria := f (checkedCriteria e);
     criteriaByCode := criteriaByCode e;
     clauseChildrenMap := clauseChildrenMap e; groupRoots := groupRoots e;
     groupedCriteria := groupedCriteria e;
     children_by_parent := children_by_parent e;
     _satCache := _satCache e; _groupSatCache := _groupSatCache e;
     _leafCache := _leafCache e; _listeners := _listeners e |}.

Definition set_satCache (f : gmap string bool -> gmap string bool)
    (e : Engine) : Engine :=
  {| allCriteria := allCriteria e; outcomes := outcomes e;
     codeNames := codeNames e; checkedCriteria := checkedCriteria e;
     criteriaByCode := criteriaByCode e;
     clauseChildrenMap := clauseChildrenMap e; groupRoots := groupRoots e;
     groupedCriteria := groupedCriteria e;
     children_by_parent := children_by_parent e;
     _satCache := f (_satCache e); _groupSatCache := _groupSatCache e;
     _leafCache := _leafCache e; _listeners := _listeners e |}.

Definition set_groupSatCache (f : gmap string bool -> gmap string bool)
    (e : Engine) : Engine :=
  {| allCriteria := allCriteria e; outcomes := outcomes e;
     codeNames := codeNames e; checkedCriteria := checkedCriteria e;
     criteriaByCode := criteriaByCode e;
     clauseChildrenMap := clauseChildrenMap e; groupRoots := groupRoots e;
     groupedCriteria := groupedCriteria e;
     children_by_parent := children_by_parent e;
     _satCache := _satCache e; _groupSatCache := f (_groupSatCache e);
     _leafCache := _leafCache e; _listeners := _listeners e |}.

Definition set_leafCache (f : gmap string bool -> gmap string bool)
    (e : Engine) : Engine :=
  {| allCriteria := allCriteria e; outcomes := outcomes e;
     codeNames := codeNames e; checkedCriteria := checkedCriteria e;
     criteriaByCode := criteriaByCode e;
     clauseChildrenMap := clauseChildrenMap e; groupRoots := groupRoots e;
     groupedCriteria := groupedCriteria e;
     children_by_parent := children_by_parent e;
     _satCache := _satCache e; _groupSatCache := _groupSatCache e;
     _leafCache := f (_leafCache e); _listeners := _listeners e |}.

Definition set_listeners (f : list Fn -> list Fn) (e : Engine) : Engine :=
  {| allCriteria := allCriteria e; outcomes := outcomes e;
     codeNames := codeNames e; checkedCriteria := checkedCriteria e;
     criteriaByCode := criteriaByCode e;
     clauseChildrenMap := clauseChildrenMap e; groupRoots := groupRoots e;
     groupedCriteria := groupedCriteria e;
     children_by_parent := children_by_parent e;
     _satCache := _satCache e; _groupSatCache := _groupSatCache e;
     _leafCache := _leafCache e; _listeners := f (_listeners e) |}.

(** ** ID and lookup *)

(** [c.crit + '_' + c.clause] *)
Definition getCriterionId (c : Criterion) : string :=
  crit c +:+ "_" +:+ pretty (clause c).

Definition getCriterionByCode (code : string) (e : Engine) : option Criterion :=
  match oget (criteriaByCode e) code with
  | Some group => head group
  | None => None
  end.

(** For a [parentCode] that names an inherited property and has no entry
    of its own, [childCodes] is the inherited value and [childCodes.map]
    throws a [TypeError]: [None]. *)
Definition getDirectChildren (parentCode : string) (e : Engine)
    : option (list Criterion) :=
  match children_by_parent e !! parentCode with
  | Some childCodes =>
      Some (omap (fun code => getCriterionByCode code e) childCodes)
  | None => if inherited parentCode then None else Some []
  end.

Definition getParent (code : string) (e : Engine) : option Criterion :=
  if (String.length code <=? 1)%nat then None
  else getCriterionByCode (slice_last code) e.

(** ** Satisfaction logic *)

(** A fallible, state-passing computation on the engine. *)
Definition Eval (A : Type) := Engine -> option (A * Engine).

Definition isLeafCriterion (criterion : Criterion) (e : Engine)
    : bool * Engine :=
  let id := getCriterionId criterion in
  match _leafCache e !! id with
  | Some b => (b, e)
  | None =>
      let b := match clauseChildrenMap e !! id with
               | Some _ => false
               | None => true
               end in
      (b, set_leafCache (insert id b) e)
  end.

Definition getClauseChildren (criterion : Criterion) (e : Engine)
    : list Criterion :=
  default [] (clauseChildrenMap e !! getCriterionId criterion).

(** [xs.every(f)] and [xs.some(f)] where [f] runs in the engine: the scan
    stops at the first element whose result is [stop] ([false] for [every],
    [true] for [some]). *)
Fixpoint scan_until (stop : bool) (f : Criterion -> Eval bool)
    (xs : list Criterion) : Eval bool :=
  fun e =>
    match xs with
    | [] => Some (negb stop, e)
    | x :: xs' =>
        match f x e with
        | None => None
        | Some (b, e') =>
            if Bool.eqb b stop then Some (stop, e') else scan_until stop f xs' e'
        end
    end.

Definition every_st := scan_until false.
Definition some_st := scan_until true.

(** A run of consecutive siblings with one [logic]. *)
Record Run := {
  r_logic : string;
  r_items : list Criterion
}.

(** The loop that groups [siblings[1..]] into runs, with its two
    accumulators [currentLogic] and [currentItems]. *)
Fixpoint runs_loop (currentLogic : string) (currentItems : list Criterion)
    (rest : list Criterion) : list Run :=
  match rest with
  | [] => [ {| r_logic := currentLogic; r_items := currentItems |} ]
  | s :: rest' =>
      if String.eqb (logic s) currentLogic
      then runs_loop currentLogic (currentItems ++ [s]) rest'
      else {| r_logic := currentLogic; r_items := currentItems |}
             :: runs_loop (logic s) [s] rest'
  end.

Definition group_runs (siblings : list Criterion) : list Run :=
  match siblings with
  | [] => []
  | s0 :: rest => runs_loop (logic s0) [s0] rest
  end.

(** [runs.map(...)]: every run is evaluated, in order. *)
Fixpoint map_runs (f : Criterion -> Eval bool) (runs : list Run)
    : Eval (list bool) :=
  fun e =>
    match runs with
    | [] => Some ([], e)
    | run :: runs' =>
        match (if String.eqb (r_logic run) "AND"
               then every_st f (r_items run) e
               else some_st f (r_items run) e) with
        | None => None
        | Some (b, e') =>
            match map_runs f runs' e' with
            | None => None
            | Some (bs, e'') => Some (b :: bs, e'')
            end
        end
    end.

Definition uniform_logic (siblings : list Criterion) (parentLogic : string)
    : bool :=
  let firstLogic := match siblings with
                    | s0 :: _ => logic s0
                    | [] => parentLogic
                    end in
  forallb (fun s => String.eqb (logic s) firstLogic) siblings.

(** [evaluateSiblingLogic], open in the recursive call [self.isClauseSatisfied]. *)
Definition evaluateSiblingLogic_with (isSat : Criterion -> Eval bool)
    (siblings : list Criterion) (parentLogic : string) : Eval bool :=
  fun e =>
    if uniform_logic siblings parentLogic then
      if String.eqb parentLogic "AND" then every_st isSat siblings e
      else some_st isSat siblings e
    else
      match map_runs isSat (group_runs siblings) e with
      | None => None
      | Some (runResults, e') =>
          if String.eqb parentLogic "AND" then Some (every_true runResults, e')
          else Some (some_true runResults, e')
      end.

Fixpoint isClauseSatisfied (fuel : nat) (criterion : Criterion) : Eval bool :=
  fun e =>
    match fuel with
    | O => None
    | S fuel' =>
        let id := getCriterionId criterion in
        match _satCache e !! id with
        | Some b => Some (b, e)
        | None =>
            let '(leaf, e1) := isLeafCriterion criterion e in
            let r :=
              if leaf then Some (truthy (checkedCriteria e1 !! id), e1)
              else
                let children := getClauseChildren criterion e1 in
                if (0 <? length children)%nat
                then evaluateSiblingLogic_with (isClauseSatisfied fuel')
                       children (logic criterion) e1
                else Some (false, e1) in
            match r with
            | None => None
            | Some (result, e2) =>
                Some (result, set_satCache (insert id result) e2)
            end
        end
    end.

Definition evaluateSiblingLogic (fuel : nat) :=
  evaluateSiblingLogic_with (isClauseSatisfied fuel).

(** The first line returns whatever the read of [_groupSatCache] gives
    when that is not [undefined]: the entry of the table, or, for a code
    that names an inherited property, the inherited value. *)
Definition isGroupSatisfied (fuel : nat) (critCode : string) : Eval Value :=
  fun e =>
    match _groupSatCache e !! critCode with
    | Some b => Some (VBool b, e)
    | None =>
        if inherited critCode then Some (VProto critCode, e)
        else
          match oget (groupRoots e) critCode with
          | None =>
              Some (VBool false, set_groupSatCache (insert critCode false) e)
          | Some root =>
              match isClauseSatisfied fuel root e with
              | None => None
              | Some (result, e') =>
                  Some (VBool result,
                        set_groupSatCache (insert critCode result) e')
              end
          end
    end.

(** ** Navigation *)

(** The body of the [for (var code in this.groupRoots)] loop. *)
Definition deeper (deepest : option string) (code : string) : bool :=
  match deepest with
  | None => true
  | Some d =>
      (String.length d =? 0)%nat || (String.length d <? String.length code)%nat
  end.

Fixpoint findCurrentLevel_loop (fuel : nat) (codes : list string)
    (deepest : option string) : Eval (option string) :=
  fun e =>
    match codes with
    | [] => Some (deepest, e)
    | code :: codes' =>
        match isGroupSatisfied fuel code e with
        | None => None
        | Some (sat, e') =>
            findCurrentLevel_loop fuel codes'
              (if js_truthy sat && deeper deepest code then Some code
               else deepest) e'
        end
    end.

Definition findCurrentLevel (fuel : nat) : Eval (option string) :=
  fun e => findCurrentLevel_loop fuel (okeys (groupRoots e)) None e.

(** [currentCode.substring(0, i)] for [i = 1 .. currentCode.length] *)
Definition code_prefixes (currentCode : string) : list string :=
  map (fun i => String.substring 0 i currentCode)
      (seq 1 (String.length currentCode)).

(** A code that is neither [null] nor the empty string. *)
Definition code_truthy (c : option string) : option string :=
  match c with
  | Some s => if (String.length s =? 0)%nat then None else Some s
  | None => None
  end.

(** [currentCode] is a key that [findCurrentLevel] has enumerated from
    [groupRoots]; [children_by_parent] is read at its own properties. *)
Definition getVisibleGroups (fuel : nat) : Eval (list Group) :=
  fun e =>
    match findCurrentLevel fuel e with
    | None => None
    | Some (currentCode, e') =>
        match code_truthy currentCode with
        | None =>
            Some (filter (fun g => String.length (g_code g) = 1%nat)
                    (groupedCriteria e'), e')
        | Some cur =>
            let childCodes := default [] (children_by_parent e' !! cur) in
            let visibleCodes : gset string :=
              list_to_set (code_prefixes cur) ∪ list_to_set childCodes in
            Some (filter (fun g => g_code g ∈ visibleCodes)
                    (groupedCriteria e'), e')
        end
    end.

(** ** State mutations *)

(** One invocation [fn(self)] of a listener, with the engine it is passed. *)
Definition Call := (Fn * Engine)%type.

Definition _invalidateCaches (e : Engine) : Engine :=
  set_groupSatCache (fun _ => ∅) (set_satCache (fun _ => ∅) e).

Definition onChange (fn : Fn) (e : Engine) : Engine :=
  set_listeners (fun l => l ++ [fn]) e.

(** [l.splice(l.indexOf(fn), 1)] when [fn] occurs in [l]. *)
Fixpoint remove_first (fn : Fn) (l : list Fn) : list Fn :=
  match l with
  | [] => []
  | x :: l' => if bool_decide (x = fn) then l' else x :: remove_first fn l'
  end.

(** The function returned by [onChange(fn)]. *)
Definition unsubscribe (fn : Fn) (e : Engine) : Engine :=
  set_listeners (remove_first fn) e.

(** What a listener does to the engine when it is called. *)
Definition run_listener (fn : Fn) (e : Engine) : Engine :=
  match fn with
  | Listener _ => e
  | OneShot _ => unsubscribe fn e
  end.

(** [this._listeners.forEach(function (fn) { fn(self); })].  [forEach] visits
    the indices below the length that the array has when the loop starts,
    in order, and skips an index that the array, as it is by then, no longer
    has.  [n] is the number of indices still to visit and [k] the next
    one. *)
Fixpoint notify_from (n k : nat) (e : Engine) : Engine * list Call :=
  match n with
  | O => (e, [])
  | S n' =>
      match _listeners e !! k with
      | None => notify_from n' (S k) e
      | Some fn =>
          let '(e', calls) := notify_from n' (S k) (run_listener fn e) in
          (e', (fn, e) :: calls)
      end
  end.

Definition _notify (e : Engine) : Engine * list Call :=
  notify_from (length (_listeners e)) 0%nat e.

(** [this.checkedCriteria[id] = true].  For the key [__proto__] the
    assignment runs the setter of [Object.prototype], which ignores a value
    that is no object: no property is created. *)
Definition check (id : string) (e : Engine) : Engine * list Call :=
  let e1 := if String.eqb id "__proto__" then e
            else set_checkedCriteria (insert id true) e in
  _notify (_invalidateCaches e1).

Definition uncheck (id : string) (e : Engine) : Engine * list Call :=
  let e1 := set_checkedCriteria (delete id) e in
  _notify (_invalidateCaches e1).

(** [if (this.checkedCriteria[id])]: the entry of the selection, or, for an
    identity that names an inherited property and has no entry, the
    inherited value, which is truthy. *)
Definition toggle (id : string) (e : Engine) : Engine * list Call :=
  if match checkedCriteria e !! id with
     | Some b => b
     | None => inherited id
     end
  then uncheck id e else check id e.

Definition reset (e : Engine) : Engine * list Call :=
  let e1 := set_checkedCriteria (fun _ => ∅) e in
  _notify (_invalidateCaches e1).

(** ** Classification helpers *)

(** What [this.codeNames[code] || code] gives: a string, or, for a code
    that names an inherited property and has no name of its own, the
    inherited value. *)
Inductive Name := Text (s : string) | Inherited (name : string).

Record PathEntry := {
  p_code : string;
  p_name : Name;
  p_levelName : string;
  p_satisfied : bool
}.

Definition levelNames : list string :=
  ["Order"; "Suborder"; "Great Group"; "Subgroup"].

(** [levelNames[i - 1] || 'Level ' + i] *)
Definition levelName (i : nat) : string :=
  js_or (levelNames !! (i - 1)%nat) ("Level " +:+ pretty i).

(** [this.codeNames[code] || code] *)
Definition nameOf (e : Engine) (code : string) : Name :=
  match codeNames e !! code with
  | Some s => Text (js_or (Some s) code)
  | None => if inherited code then Inherited code else Text code
  end.

(** The string [join] makes of a name: the inherited functions print as
    native functions, and [Object.prototype], which [__proto__] names, as an
    object. *)
Definition printed (n : Name) : string :=
  match n with
  | Text s => s
  | Inherited name =>
      if String.eqb name "__proto__" then "[object Object]"
      else "function " +:+ name +:+ "() { [native code] }"
  end.

(** [parts.join(sep)] *)
Fixpoint join (sep : string) (parts : list string) : string :=
  match parts with
  | [] => ""
  | [p] => p
  | p :: parts' => p +:+ sep +:+ join sep parts'
  end.

Definition getClassificationPath (fuel : nat) : Eval (list PathEntry) :=
  fun e =>
    match findCurrentLevel fuel e with
    | None => None
    | Some (currentCode, e') =>
        match code_truthy currentCode with
        | None => Some ([], e')
        | Some cur =>
            let n := String.length cur in
            let path :=
              map (fun i => let code := String.substring 0 i cur in
                            {| p_code := code; p_name := nameOf e' code;
                               p_levelName := levelName i;
                               p_satisfied := true |})
                  (seq 1 (Nat.min n 4)) in
            let pending :=
              if (n <? 4)%nat
              then [ {| p_code := "?"; p_name := Text "—";
                        p_levelName := levelName (n + 1);
                        p_satisfied := false |} ]
              else [] in
            Some (path ++ pending, e')
        end
    end.

Definition getCurrentClassification (fuel : nat) : Eval Name :=
  fun e =>
    match findCurrentLevel fuel e with
    | None => None
    | Some (currentCode, e') =>
        match code_truthy currentCode with
        | None => Some (Text "", e')
        | Some cur => Some (nameOf e' cur, e')
        end
    end.

Definition getClassificationLevel (fuel : nat) : Eval string :=
  fun e =>
    match findCurrentLevel fuel e with
    | None => None
    | Some (currentCode, e') =>
        match code_truthy currentCode with
        | None => Some ("", e')
        | Some cur =>
            Some (js_or (levelNames !! (String.length cur - 1)%nat) "", e')
        end
    end.

Definition getClassificationBreadcrumb (fuel : nat) : Eval string :=
  fun e =>
    match findCurrentLevel fuel e with
    | None => None
    | Some (currentCode, e') =>
        match code_truthy currentCode with
        | None => Some ("", e')
        | Some cur =>
            Some (join " › "
                    (map (fun code => printed (nameOf e' code))
                       (code_prefixes cur)), e')
        end
    end.

(** ** Index building and construction *)

Record Navigation := {
  nav_criteria : option (list Criterion)
}.

(** The parsed input.  [navigation.indices] is copied by [create], but the
    only index the engine reads, [children_by_parent], is rebuilt by
    [buildIndices]; [glossary] and [order_names] are stored and never read.
    They are left out, as are the display strings [label] and [order_code]
    of a group. *)
Record Data := {
  navigation : option Navigation;
  tree : option (list Criterion);
  data_outcomes : option (JSObj Outcome);
  code_names : option (gmap string string)
}.

Definition empty_engine : Engine :=
  {| allCriteria := []; outcomes := []; codeNames := ∅;
     checkedCriteria := ∅; criteriaByCode := []; clauseChildrenMap := ∅;
     groupRoots := []; groupedCriteria := []; children_by_parent := ∅;
     _satCache := ∅; _groupSatCache := ∅; _leafCache := ∅;
     _listeners := [] |}.

(** [criteriaByCode]: one step of the [forEach].  For a criterion whose
    code names an inherited property and has no entry yet, the test
    [!self.criteriaByCode[c.crit]] fails on the inherited value, no list is
    created, and [push] on that value throws a [TypeError]: [None]. *)
Definition push_by_code (m : JSObj (list Criterion)) (c : Criterion)
    : option (JSObj (list Criterion)) :=
  match oget m (crit c) with
  | Some group => Some (oset m (crit c) (group ++ [c]))
  | None =>
      if inherited (crit c) then None else Some (oset m (crit c) [c])
  end.

(** A loop whose body may throw. *)
Fixpoint forEach_throwing {A B} (f : A -> B -> option A) (l : list B) (a : A)
    : option A :=
  match l with
  | [] => Some a
  | x :: l' =>
      match f a x with
      | None => None
      | Some a' => forEach_throwing f l' a'
      end
  end.

(** [parent_clause] is neither [''] nor [0]. *)
Definition has_parent_ref (c : Criterion) : option Z :=
  match parent_clause c with
  | Some p => if p =? 0 then None else Some p
  | None => None
  end.

(** [clauseChildrenMap]: one step of the [forEach]. *)
Definition link_child (byCode : JSObj (list Criterion))
    (m : gmap string (list Criterion)) (c : Criterion)
    : gmap string (list Criterion) :=
  match has_parent_ref c with
  | None => m
  | Some p =>
      match oget byCode (crit c) with
      | None => m
      | Some group =>
          match List.find (fun q => clause q =? p) group with
          | None => m
          | Some parent =>
              let parentId := getCriterionId parent in
              <[parentId := default [] (m !! parentId) ++ [c]]> m
          end
      end
  end.

(** Outcome injection: one step of the [for (var code in this.outcomes)].
    The test [if (this.criteriaByCode[code]) continue] also skips a code
    that names an inherited property. *)
Definition inject_outcome
    (st : list Criterion * JSObj (list Criterion)) (o : string * Outcome)
    : list Criterion * JSObj (list Criterion) :=
  let '(code, outcome) := o in
  match oget (snd st) code with
  | Some _ => st
  | None =>
      if inherited code then st
      else
        let syn := {| crit := code; clause := 1; parent_clause := None;
                      logic := js_or (o_logic outcome) "FIRST";
                      content := js_or (o_content outcome) code;
                      depth := 0; origin := FromOutcome |} in
        (fst st ++ [syn], oset (snd st) code [syn])
  end.

(** [groupRoots]: one step of the [forEach]. *)
Definition explicit_root (roots : JSObj Criterion) (c : Criterion)
    : JSObj Criterion :=
  match has_parent_ref c, oget roots (crit c) with
  | None, None => oset roots (crit c) c
  | _, _ => roots
  end.

(** The members of a rootless group whose [parent_clause] is no [clause] of
    the group. *)
Definition top_level (items : list Criterion) : list Criterion :=
  let clausesInGroup := map clause items in
  List.filter (fun c => match parent_clause c with
                        | Some p => negb (existsb (Z.eqb p) clausesInGroup)
                        | None => true
                        end) items.

Definition synthetic_root (code : string) (topLevel : list Criterion)
    : Criterion :=
  {| crit := code; clause := 0; parent_clause := None;
     logic := match topLevel with
              | c :: _ => logic c
              | [] => "OR"
              end;
     content := ""; depth := -1; origin := Synthetic |}.

(** Synthetic roots: one step of the [for (var code2 in this.criteriaByCode)]. *)
Definition add_synthetic_root
    (st : JSObj Criterion * gmap string (list Criterion))
    (entry : string * list Criterion)
    : JSObj Criterion * gmap string (list Criterion) :=
  let '(code2, items) := entry in
  match oget (fst st) code2 with
  | Some _ => st
  | None =>
      let topLevel := top_level items in
      let syntheticRoot := synthetic_root code2 topLevel in
      (oset (fst st) code2 syntheticRoot,
       <[getCriterionId syntheticRoot := topLevel]> (snd st))
  end.

(** The [while] loop that walks up the code prefixes; [n] bounds the number
    of iterations, and the length of [ancestor] is enough. *)
Fixpoint nearest_ancestor (n : nat) (allCodes : list string)
    (ancestor : string) : string :=
  match n with
  | O => ancestor
  | S n' =>
      if (0 <? String.length ancestor)%nat
         && negb (existsb (String.eqb ancestor) allCodes)
      then nearest_ancestor n' allCodes (slice_last ancestor)
      else ancestor
  end.

(** [children_by_parent]: one step of the [for (var c of allCodes)]. *)
Definition add_child_code (allCodes : list string)
    (m : gmap string (list string)) (c : string)
    : gmap string (list string) :=
  if (String.length c <=? 1)%nat
  then <["root" := default [] (m !! "root") ++ [c]]> m
  else
    let ancestor :=
      nearest_ancestor (String.length c) allCodes (slice_last c) in
    let p := js_or (Some ancestor) "root" in
    <[p := default [] (m !! p) ++ [c]]> m.

(** [groupedCriteria]: one step of the [forEach]. *)
Definition add_to_group (groups : JSObj Group) (c : Criterion)
    : JSObj Group :=
  let code := js_or (Some (crit c)) "Other" in
  let g := default {| g_code := code; g_items := [] |} (oget groups code) in
  oset groups code {| g_code := g_code g; g_items := g_items g ++ [c] |}.

Section WithLocale.

(** [String.prototype.localeCompare] of the host. *)
Variable localeCompare : string -> string -> Z.

Definition compare_groups (a b : Group) : Z :=
  if (String.length (g_code a) =? String.length (g_code b))%nat
  then localeCompare (g_code a) (g_code b)
  else Z.of_nat (String.length (g_code a))
       - Z.of_nat (String.length (g_code b)).

(** [buildIndices] after its first loop, which has built [byCode0]. *)
Definition index_from (byCode0 : JSObj (list Criterion)) (e : Engine)
    : Engine :=
  let children0 := fold_left (link_child byCode0) (allCriteria e) ∅ in
  let injected :=
    fold_left inject_outcome (outcomes e) (allCriteria e, byCode0) in
  let all := fst injected in
  let byCode := snd injected in
  let roots0 := fold_left explicit_root all [] in
  let rooted := fold_left add_synthetic_root byCode (roots0, children0) in
  let allCodes := okeys byCode in
  let byParent :=
    fold_left (add_child_code allCodes) allCodes {["root" := []]} in
  let groups := fold_left add_to_group all [] in
  {| allCriteria := all; outcomes := outcomes e; codeNames := codeNames e;
     checkedCriteria := checkedCriteria e; criteriaByCode := byCode;
     clauseChildrenMap := snd rooted; groupRoots := fst rooted;
     groupedCriteria := js_sort compare_groups (ovalues groups);
     children_by_parent := byParent;
     _satCache := _satCache e; _groupSatCache := _groupSatCache e;
     _leafCache := _leafCache e; _listeners := _listeners e |}.

(** [None] when the first loop throws. *)
Definition buildIndices (e : Engine) : option Engine :=
  match forEach_throwing push_by_code (allCriteria e) [] with
  | None => None
  | Some byCode0 => Some (index_from byCode0 e)
  end.

(** The engine before [buildIndices]: the criteria and outcomes of the
    input, everything else empty. *)
Definition loaded (d : Data) : Engine :=
  {| allCriteria := match navigation d with
                    | Some nav => default [] (nav_criteria nav)
                    | None => default [] (tree d)
                    end;
     outcomes := match navigation d with
                 | Some _ => default [] (data_outcomes d)
                 | None => []
                 end;
     codeNames := default ∅ (code_names d);
     checkedCriteria := ∅; criteriaByCode := [];
     clauseChildrenMap := ∅; groupRoots := []; groupedCriteria := [];
     children_by_parent := ∅;
     _satCache := ∅; _groupSatCache := ∅; _leafCache := ∅;
     _listeners := [] |}.

(** [None] when [buildIndices] throws. *)
Definition create (data : option Data) : option Engine :=
  match data with
  | None => Some empty_engine
  | Some d => buildIndices (loaded d)
  end.

(** ** Checked leaves *)

Fixpoint checkedLeaves_filter (cs : list Criterion) (e : Engine)
    : list Criterion * Engine :=
  match cs with
  | [] => ([], e)
  | c :: cs' =>
      let '(leaf, e1) := isLeafCriterion c e in
      let keep := leaf && truthy (checkedCriteria e1 !! getCriterionId c) in
      let '(kept, e2) := checkedLeaves_filter cs' e1 in
      (if keep then c :: kept else kept, e2)
  end.

Definition compare_leaves (a b : Criterion) : Z :=
  if String.eqb (crit a) (crit b) then clause a - clause b
  else localeCompare (crit a) (crit b).

Definition getCheckedLeaves (e : Engine) : list Criterion * Engine :=
  let '(kept, e') := checkedLeaves_filter (allCriteria e) e in
  (js_sort compare_leaves kept, e').

(** ** The read operations of the engine, as one interface *)

Inductive Read :=
| RGetCriterionByCode (code : string)
| RGetDirectChildren (parentCode : string)
| RGetParent (code : string)
| RIsLeafCriterion (c : Criterion)
| RGetClauseChildren (c : Criterion)
| RIsClauseSatisfied (c : Criterion)
| REvaluateSiblingLogic (siblings : list Criterion) (parentLogic : string)
| RIsGroupSatisfied (code : string)
| RFindCurrentLevel
| RGetVisibleGroups
| RGetCheckedLeaves
| RGetClassificationPath
| RGetCurrentClassification
| RGetClassificationLevel
| RGetClassificationBreadcrumb.

Inductive Answer :=
| ACriterion (c : option Criterion)
| ACriteria (cs : list Criterion)
| ABool (b : bool)
| AValue (v : Value)
| ACode (code : option string)
| AGroups (gs : list Group)
| APath (p : list PathEntry)
| AString (s : string)
| AName (n : Name)
| ATypeError.

Definition answer {A} (wrap : A -> Answer) (r : option (A * Engine))
    : option (Answer * Engine) :=
  match r with
  | Some (a, e) => Some (wrap a, e)
  | None => None
  end.

Definition runRead (fuel : nat) (r : Read) : Eval Answer :=
  fun e =>
    match r with
    | RGetCriterionByCode code =>
        Some (ACriterion (getCriterionByCode code e), e)
    | RGetDirectChildren parentCode =>
        Some (match getDirectChildren parentCode e with
              | Some children => ACriteria children
              | None => ATypeError
              end, e)
    | RGetParent code => Some (ACriterion (getParent code e), e)
    | RIsLeafCriterion c => answer ABool (Some (isLeafCriterion c e))
    | RGetClauseChildren c => Some (ACriteria (getClauseChildren c e), e)
    | RIsClauseSatisfied c => answer ABool (isClauseSatisfied fuel c e)
    | REvaluateSiblingLogic siblings parentLogic =>
        answer ABool (evaluateSiblingLogic fuel siblings parentLogic e)
    | RIsGroupSatisfied code => answer AValue (isGroupSatisfied fuel code e)
    | RFindCurrentLevel => answer ACode (findCurrentLevel fuel e)
    | RGetVisibleGroups => answer AGroups (getVisibleGroups fuel e)
    | RGetCheckedLeaves => answer ACriteria (Some (getCheckedLeaves e))
    | RGetClassificationPath => answer APath (getClassificationPath fuel e)
    | RGetCurrentClassification =>
        answer AName (getCurrentClassification fuel e)
    | RGetClassificationLevel =>
        answer AString (getClassificationLevel fuel e)
    | RGetClassificationBreadcrumb =>
        answer AString (getClassificationBreadcrumb fuel e)
    end.

(** The states an engine built from [data] goes through when it is used
    through its methods. *)
Inductive Reachable (data : option Data) : Engine -> Prop :=
| Reach_create e : create data = Some e -> Reachable data e
| Reach_check e id : Reachable data e -> Reachable data (fst (check id e))
| Reach_uncheck e id : Reachable data e -> Reachable data (fst (uncheck id e))
| Reach_toggle e id : Reachable data e -> Reachable data (fst (toggle id e))
| Reach_reset e : Reachable data e -> Reachable data (fst (reset e))
| Reach_onChange e fn : Reachable data e -> Reachable data (onChange fn e)
| Reach_unsubscribe e fn :
    Reachable data e -> Reachable data (unsubscribe fn e)
| Reach_read e fuel r a e' :
    Reachable data e -> runRead fuel r e = Some (a, e') -> Reachable data e'.

End WithLocale.

(** ** Evaluation without the memo tables

    The reference against which the memo tables are judged: the same
    recursion as [isClauseSatisfied], reading only [clauseChildrenMap] and
    [checkedCriteria]. *)

Fixpoint scan_pure (stop : bool) (f : Criterion -> option bool)
    (xs : list Criterion) : option bool :=
  match xs with
  | [] => Some (negb stop)
  | x :: xs' =>
      match f x with
      | None => None
      | Some b => if Bool.eqb b stop then Some stop else scan_pure stop f xs'
      end
  end.

Fixpoint map_runs_pure (f : Criterion -> option bool) (runs : list Run)
    : option (list bool) :=
  match runs with
  | [] => Some []
  | run :: runs' =>
      match scan_pure (negb (String.eqb (r_logic run) "AND")) f (r_items run) with
      | None => None
      | Some b =>
          match map_runs_pure f runs' with
          | None => None
          | Some bs => Some (b :: bs)
          end
      end
  end.

Definition siblings_pure (f : Criterion -> option bool)
    (siblings : list Criterion) (parentLogic : string) : option bool :=
  if uniform_logic siblings parentLogic then
    scan_pure (negb (String.eqb parentLogic "AND")) f siblings
  else
    match map_runs_pure f (group_runs siblings) with
    | None => None
    | Some runResults =>
        Some (if String.eqb parentLogic "AND" then every_true runResults
              else some_true runResults)
    end.

Fixpoint sat_pure (children : gmap string (list Criterion))
    (checked : gmap string bool) (fuel : nat) (c : Criterion) : option bool :=
  match fuel with
  | O => None
  | S fuel' =>
      match children !! getCriterionId c with
      | None => Some (truthy (checked !! getCriterionId c))
      | Some cs =>
          if (0 <? length cs)%nat
          then siblings_pure (sat_pure children checked fuel') cs (logic c)
          else Some false
      end
  end.

Definition sat_ref (e : Engine) : nat -> Criterion -> option bool :=
  sat_pure (clauseChildrenMap e) (checkedCriteria e).

Definition group_ref (e : Engine) (fuel : nat) (code : string) : option bool :=
  match oget (groupRoots e) code with
  | None => Some false
  | Some root => sat_ref e fuel root
  end.

(** The criterion objects the engine holds. *)
Definition universe (e : Engine) : list Criterion :=
  allCriteria e ++ ovalues (groupRoots e).

(** The identity invariant of the data model: the children the engine links
    are objects it holds, and among these an identity determines the
    combinator. *)
Definition well_formed (e : Engine) : Prop :=
  map_Forall (fun _ cs => Forall (fun c => c ∈ universe e) cs)
    (clauseChildrenMap e)
  /\ Forall (fun c =>
       Forall (fun c' => getCriterionId c = getCriterionId c' ->
                         logic c = logic c') (universe e)) (universe e).

#[global] Instance well_formed_dec e : Decision (well_formed e).
Proof. unfold well_formed. apply _. Defined.

(** Every entry of the leaf table is what [clauseChildrenMap] says. *)
Definition leaf_cache_ok (e : Engine) : Prop :=
  forall id b, _leafCache e !! id = Some b ->
    b = match clauseChildrenMap e !! id with
        | Some _ => false
        | None => true
        end.

(** Every entry of a memo table is what the evaluation without tables
    gives. *)
Definition caches_sound (e : Engine) : Prop :=
  (forall c b, c ∈ universe e ->
     _satCache e !! getCriterionId c = Some b ->
     exists m, sat_ref e m c = Some b)
  /\ (forall code b, _groupSatCache e !! code = Some b ->
        exists m, group_ref e m code = Some b)
  /\ leaf_cache_ok e.

(** What the reads never change. *)
Definition static (e : Engine) :=
  (clauseChildrenMap e, checkedCriteria e, groupRoots e, allCriteria e,
   (groupedCriteria e, children_by_parent e, codeNames e, criteriaByCode e,
    outcomes e, _listeners e)).

(** A criterion evaluates to [b]: some depth of stack is enough. *)
Definition evaluates (e : Engine) (c : Criterion) (b : bool) : Prop :=
  exists fuel e', isClauseSatisfied fuel c e = Some (b, e').

(** The value of a run, given the values [v] of its items. *)
Definition run_value (v : Criterion -> bool) (run : Run) : bool :=
  if String.eqb (r_logic run) "AND" then forallb v (r_items run)
  else existsb v (r_items run).

(** One partial function gives every result another gives. *)
Definition extends (f g : Criterion -> option bool) : Prop :=
  forall x b, f x = Some b -> g x = Some b.

(** The states an evaluation started in [e0] goes through. *)
Definition threaded (e0 e : Engine) : Prop :=
  caches_sound e /\ static e = static e0.

(** A group evaluates to [b]: some depth of stack is enough. *)
Definition group_evaluates (e : Engine) (code : string) (b : bool) : Prop :=
  exists fuel e', isGroupSatisfied fuel code e = Some (VBool b, e').

(** [isGroupSatisfied] answers for the group of the code, not with an
    inherited value: the code names no inherited property, or the table
    holds an entry for it. *)
Definition own_answer (e : Engine) (code : string) : Prop :=
  inherited code = false \/ is_Some (_groupSatCache e !! code).

(** Consecutive runs have different combinators. *)
Fixpoint adjacent_differ (runs : list Run) : Prop :=
  match runs with
  | r :: ((r' :: _) as runs') =>
      r_logic r <> r_logic r' /\ adjacent_differ runs'
  | _ => True
  end.

(** ** Index building when nothing is thrown

    What [create] returns when it returns: the first loop of [buildIndices]
    without its fault, then the rest of the function. *)

Definition push_plain (m : JSObj (list Criterion)) (c : Criterion)
    : JSObj (list Criterion) :=
  oset m (crit c) (default [] (oget m (crit c)) ++ [c]).

Definition built (localeCompare : string -> string -> Z)
    (data : option Data) : Engine :=
  match data with
  | None => empty_engine
  | Some d =>
      index_from localeCompare
        (fold_left push_plain (allCriteria (loaded d)) []) (loaded d)
  end.

(** No criterion of the input has a code that names an inherited
    property. *)
Definition plain_codes (data : option Data) : Prop :=
  match data with
  | Some d =>
      Forall (fun c => inherited (crit c) = false) (allCriteria (loaded d))
  | None => True
  end.

(** The engine of a construction that did not throw. *)
Definition engine_of (r : option Engine) : Engine := default empty_engine r.

(** ** Example inputs *)

(** A comparator for the examples: the order of the code units. *)
Definition codeunit_compare (a b : string) : Z :=
  match String.compare a b with
  | Lt => -1
  | Eq => 0
  | Gt => 1
  end.

Definition input_criterion (code : string) (k : Z) (p : option Z)
    (l : string) : Criterion :=
  {| crit := code; clause := k; parent_clause := p; logic := l;
     content := ""; depth := 0; origin := FromInput |}.

Definition data_of (cs : list Criterion) : option Data :=
  Some {| navigation := Some {| nav_criteria := Some cs |}; tree := None;
          data_outcomes := None; code_names := None |}.

(** An AND parent whose two children both carry OR; one child is checked. *)
Definition ex_uniform_parent : Criterion := input_criterion "P" 1 None "AND".
Definition ex_uniform_children : list Criterion :=
  [input_criterion "P" 2 (Some 1) "OR"; input_criterion "P" 3 (Some 1) "OR"].
Definition ex_uniform : Engine :=
  fst (check "P_2"
         (engine_of (create codeunit_compare
            (data_of (ex_uniform_parent :: ex_uniform_children))))).

(** An AND parent with children tagged AND, AND, OR, OR. *)
Definition ex_mixed_parent : Criterion := input_criterion "MIX" 1 None "AND".
Definition ex_mixed_children : list Criterion :=
  [input_criterion "MIX" 2 (Some 1) "AND";
   input_criterion "MIX" 3 (Some 1) "AND";
   input_criterion "MIX" 4 (Some 1) "OR";
   input_criterion "MIX" 5 (Some 1) "OR"].
Definition ex_mixed : Engine :=
  fst (check "MIX_4" (fst (check "MIX_3" (fst (check "MIX_2"
         (engine_of (create codeunit_compare
            (data_of (ex_mixed_parent :: ex_mixed_children))))))))).

(** The same engine with only the two AND children checked, and with only
    the two OR children checked. *)
Definition ex_mixed_and_pair : Engine := fst (uncheck "MIX_4" ex_mixed).
Definition ex_mixed_or_pair : Engine :=
  fst (check "MIX_5" (fst (check "MIX_4"
         (engine_of (create codeunit_compare
            (data_of (ex_mixed_parent :: ex_mixed_children))))))).

(** A group without explicit root whose members all resolve a parent: its
    synthetic root has no children. *)
Definition ex_childless : Engine :=
  engine_of (create codeunit_compare
    (data_of [input_criterion "A" 1 (Some 2) "OR";
              input_criterion "A" 2 (Some 1) "OR"])).

(** One step of the scan for the deepest satisfied code, given the value
    [v] of every group. *)
Definition deepest_step (v : string -> bool) (deepest : option string)
    (code : string) : option string :=
  if v code && deeper deepest code then Some code else deepest.

Definition deepest_of (v : string -> bool) (codes : list string)
    (deepest : option string) : option string :=
  fold_left (deepest_step v) codes deepest.

(** What the scan has found after the codes [seen]. *)
Definition deepest_among (v : string -> bool) (seen : list string)
    (deepest : option string) : Prop :=
  match deepest with
  | None => forall c, c ∈ seen -> v c = false
  | Some x =>
      x ∈ seen /\ v x = true
      /\ forall c, c ∈ seen -> v c = true ->
                   (String.length c <= String.length x)%nat
  end.

(** Three nested taxa, each a single leaf, all checked. *)
Definition ex_nested : Engine :=
  fst (check "AAA_1" (fst (check "AA_1" (fst (check "A_1"
         (engine_of (create codeunit_compare
            (data_of [input_criterion "A" 1 None "OR";
                      input_criterion "AA" 1 None "OR";
                      input_criterion "AAA" 1 None "OR"])))))))).

(** Taxa A and AAA with no group AA between them, both checked. *)
Definition ex_gap : Engine :=
  fst (check "AAA_1" (fst (check "A_1"
         (engine_of (create codeunit_compare
            (data_of [input_criterion "A" 1 None "OR";
                      input_criterion "AAA" 1 None "OR"])))))).

(** A listener that returns without touching the engine. *)
Definition inert (fn : Fn) : Prop :=
  match fn with
  | Listener _ => True
  | OneShot _ => False
  end.

(** What a mutation leaves behind: the new selection, the two satisfaction
    tables empty, the leaf table as it was, and every listener called once,
    in the order of [_listeners], with the engine as the mutation leaves
    it. *)
Definition mutation_post (e : Engine) (selection : gmap string bool)
    (r : Engine * list Call) : Prop :=
  checkedCriteria (fst r) = selection
  /\ _satCache (fst r) = ∅
  /\ _groupSatCache (fst r) = ∅
  /\ _leafCache (fst r) = _leafCache e
  /\ map fst (snd r) = _listeners e
  /\ Forall (fun call => snd call = fst r) (snd r).

(** The structures built once by [buildIndices]. *)
Definition indices (e : Engine) :=
  (allCriteria e, outcomes e, codeNames e, criteriaByCode e,
   (clauseChildrenMap e, groupRoots e, groupedCriteria e,
    children_by_parent e)).

(** Two engines that differ at most in their leaf tables and listeners. *)
Definition agree (e1 e2 : Engine) : Prop :=
  indices e1 = indices e2
  /\ checkedCriteria e1 = checkedCriteria e2
  /\ _satCache e1 = _satCache e2
  /\ _groupSatCache e1 = _groupSatCache e2
  /\ leaf_cache_ok e1 /\ leaf_cache_ok e2.

(** Two runs of one read, the first started in [e1]: the same answer, from
    engines that still agree, and nothing but the memo tables changed. *)
Definition sim {A} (e1 : Engine) (r1 r2 : option (A * Engine)) : Prop :=
  match r1, r2 with
  | Some (a1, e1'), Some (a2, e2') =>
      a1 = a2 /\ agree e1' e2'
      /\ indices e1' = indices e1
      /\ checkedCriteria e1' = checkedCriteria e1
      /\ _listeners e1' = _listeners e1
  | None, None => True
  | _, _ => False
  end.

Definition simulates {A} (m : Eval A) : Prop :=
  forall e1 e2, agree e1 e2 -> sim e1 (m e1) (m e2).

(** Only [check] writes into the selection, and it writes [true]. *)
Definition checked_all_true (e : Engine) : Prop :=
  forall id b, checkedCriteria e !! id = Some b -> b = true.

(** A group with an explicit root and a member whose parent clause does not
    exist; only that member is checked. *)
Definition ex_dangling_input : list Criterion :=
  [input_criterion "A" 1 None "OR";
   input_criterion "A" 2 (Some 1) "OR";
   input_criterion "A" 3 (Some 99) "OR"].
Definition ex_dangling : Engine :=
  fst (check "A_3"
         (engine_of (create codeunit_compare (data_of ex_dangling_input)))).

(** A group without explicit root and with a member whose parent clause does
    not exist. *)
Definition ex_rootless_data : Data :=
  {| navigation :=
       Some {| nav_criteria :=
                 Some [input_criterion "B" 2 (Some 1) "AND";
                       input_criterion "B" 3 (Some 2) "OR"] |};
     tree := None; data_outcomes := None; code_names := None |}.

(** The members of the group [code] among [cs]. *)
Definition members (code : string) (cs : list Criterion) : list Criterion :=
  List.filter (fun c => String.eqb (crit c) code) cs.

(** [criteriaByCode] maps a code to the criteria with that code, in their
    order, and has no entry for a code without criteria. *)
Definition groups_of (m : JSObj (list Criterion)) (cs : list Criterion)
    : Prop :=
  forall code, oget m code = match members code cs with
                             | [] => None
                             | g => Some g
                             end.

(** The values of a dictionary of criteria lists hold criteria of [l] only. *)
Definition entries_within (m : JSObj (list Criterion)) (l : list Criterion)
    : Prop :=
  forall k items, (k, items) ∈ m -> forall q, q ∈ items -> q ∈ l.

(** A read that is passed criterion objects of the engine. *)
Definition proper_read (e : Engine) (r : Read) : Prop :=
  match r with
  | RIsClauseSatisfied c => c ∈ universe e
  | REvaluateSiblingLogic siblings _ => Forall (fun c => c ∈ universe e) siblings
  | _ => True
  end.

(** ** Further definitions, for the properties of the rest of the engine *)

From Stdlib Require Import Ascii Permutation.
From Stdlib Require OrderedTypeEx.

(** The string holds the character [a]. *)
Fixpoint has_char (a : Ascii.ascii) (s : string) : bool :=
  match s with
  | EmptyString => false
  | String b s' => Ascii.eqb a b || has_char a s'
  end.


(** What a read may do to the engine: nothing to the indices, the selection
    and the listeners, and nothing to the entries the leaf table and the
    group table already hold. *)
Definition grows (e e' : Engine) : Prop :=
  indices e' = indices e
  /\ checkedCriteria e' = checkedCriteria e
  /\ _listeners e' = _listeners e
  /\ _groupSatCache e ⊆ _groupSatCache e'
  /\ _leafCache e ⊆ _leafCache e'.

(** Every run of the computation [m] only [grows] the engine. *)
Definition growing {A} (m : Eval A) : Prop :=
  forall e a e', m e = Some (a, e') -> grows e e'.

(** A criterion that names itself as its parent. *)
Definition ex_self_parent : Engine :=
  engine_of
    (create codeunit_compare (data_of [input_criterion "A" 1 (Some 1) "OR"])).

(** The height of the identities of [ex_mixed]: the parent above its four
    leaves. *)
Definition ex_mixed_rank (id : string) : nat :=
  if String.eqb id "MIX_1" then 1 else 0.

(** An engine with the listeners 1, 2, 1 registered in this order. *)
Definition ex_listeners : Engine :=
  onChange (Listener 1)
    (onChange (Listener 2) (onChange (Listener 1) ex_uniform)).

(** Each element is placed before the next one by the comparator. *)
Fixpoint locally_sorted {A} (cmp : A -> A -> Z) (l : list A) : Prop :=
  match l with
  | x :: ((y :: _) as l') => cmp x y <= 0 /\ locally_sorted cmp l'
  | _ => True
  end.

(** A comparator that never places two elements each after the other. *)
Definition orders {A} (cmp : A -> A -> Z) : Prop :=
  forall a b, 0 < cmp a b -> cmp b a <= 0.

(** A comparator whose placements chain. *)
Definition chains {A} (cmp : A -> A -> Z) : Prop :=
  forall a b c, cmp a b <= 0 -> cmp b c <= 0 -> cmp a c <= 0.

(** A comparator of strings that is a total order: the consistent
    comparator [Array.prototype.sort] asks for, which moreover tells any two
    different strings apart. *)
Definition total_order (cmp : string -> string -> Z) : Prop :=
  orders cmp /\ chains cmp
  /\ forall a b, cmp a b <= 0 -> cmp b a <= 0 -> a = b.

(** Every element is placed no later than each element after it. *)
Definition in_order {A} (cmp : A -> A -> Z) (l : list A) : Prop :=
  forall i j a b, (i < j)%nat -> l !! i = Some a -> l !! j = Some b ->
                  cmp a b <= 0.

(** A leaf of the engine that is checked. *)
Definition checked_leaf (e : Engine) (c : Criterion) : bool :=
  match clauseChildrenMap e !! getCriterionId c with
  | Some _ => false
  | None => true
  end && truthy (checkedCriteria e !! getCriterionId c).


(** The first criterion with the code that is a root by its own
    [parent_clause]. *)
Definition explicit_root_of (code : string) (all : list Criterion)
    : option Criterion :=
  List.find (fun c => String.eqb (crit c) code
                      && match has_parent_ref c with
                         | None => true
                         | Some _ => false
                         end) all.

(** The root of a group, read off the criteria. *)
Definition root_of (code : string) (all : list Criterion)
    : option Criterion :=
  match explicit_root_of code all with
  | Some r => Some r
  | None =>
      match members code all with
      | [] => None
      | g => Some (synthetic_root code (top_level g))
      end
  end.

(** The key under which [buildIndices] lists the code [c] in
    [children_by_parent]. *)
Definition parent_key (allCodes : list string) (c : string) : string :=
  if (String.length c <=? 1)%nat then "root"
  else js_or (Some (nearest_ancestor (String.length c) allCodes
                      (slice_last c))) "root".

(** The elements that [key] files under [k], in their order. *)
Definition keyed {V} (key : V -> option string) (k : string) (vs : list V)
    : list V :=
  List.filter (fun v => match key v with
                        | Some k' => String.eqb k' k
                        | None => false
                        end) vs.

(** The code under which [buildIndices] groups a criterion for display. *)
Definition group_key (c : Criterion) : string := js_or (Some (crit c)) "Other".

(** The criteria grouped under [code], in their order. *)
Definition grouped (code : string) (cs : list Criterion) : list Criterion :=
  List.filter (fun c => String.eqb (group_key c) code) cs.

(** The display groups hold, for each code, the criteria grouped under it. *)
Definition display_groups_of (m : JSObj Group) (cs : list Criterion) : Prop :=
  forall code, oget m code = match grouped code cs with
                             | [] => None
                             | l => Some {| g_code := code; g_items := l |}
                             end.

(** The identity under which [buildIndices] links a criterion as a child:
    that of the first criterion of its group whose [clause] is its
    [parent_clause]. *)
Definition parent_id (input : list Criterion) (c : Criterion)
    : option string :=
  match has_parent_ref c with
  | None => None
  | Some p =>
      getCriterionId
        <$> List.find (fun q => clause q =? p) (members (crit c) input)
  end.

(** The same, read from [criteriaByCode] as [buildIndices] does. *)
Definition resolve_parent (byCode : JSObj (list Criterion)) (c : Criterion)
    : option string :=
  match has_parent_ref c with
  | None => None
  | Some p =>
      match oget byCode (crit c) with
      | None => None
      | Some group =>
          getCriterionId <$> List.find (fun q => clause q =? p) group
      end
  end.

(** A group has no member that is a root by its own [parent_clause]. *)
Definition rootless (all : list Criterion) (code : string) : bool :=
  match explicit_root_of code all with
  | None => true
  | Some _ => false
  end.

(** The criterion [buildIndices] makes for an outcome. *)
Definition outcome_criterion (code : string) (outcome : Outcome) : Criterion :=
  {| crit := code; clause := 1; parent_clause := None;
     logic := js_or (o_logic outcome) "FIRST";
     content := js_or (o_content outcome) code;
     depth := 0; origin := FromOutcome |}.

(** Data with two criteria of the group A and the outcomes A and AB. *)
Definition ex_outcome_data : Data :=
  {| navigation :=
       Some {| nav_criteria :=
                 Some [input_criterion "A" 1 None "OR";
                       input_criterion "A" 2 (Some 1) "OR"] |};
     tree := None;
     data_outcomes :=
       Some [("A", {| o_content := Some "a"; o_logic := None |});
             ("AB", {| o_content := Some "ab"; o_logic := None |})];
     code_names := None |}.

(** The input a data model with unique identities gives: no two criteria
    share code and clause, and a criterion with clause 0 names no parent, so
    that the identity of a synthetic root is free. *)
Definition distinct_ids (input : list Criterion) : Prop :=
  NoDup (getCriterionId <$> input)
  /\ Forall (fun c => clause c = 0 -> has_parent_ref c = None) input.

(** The states an engine built from [data] goes through when its methods
    are used and the reads are passed criterion objects of the engine. *)
Inductive Used (localeCompare : string -> string -> Z) (data : option Data)
    : Engine -> Prop :=
| Used_create e :
    create localeCompare data = Some e -> Used localeCompare data e
| Used_check e id :
    Used localeCompare data e -> Used localeCompare data (fst (check id e))
| Used_uncheck e id :
    Used localeCompare data e -> Used localeCompare data (fst (uncheck id e))
| Used_toggle e id :
    Used localeCompare data e -> Used localeCompare data (fst (toggle id e))
| Used_reset e :
    Used localeCompare data e -> Used localeCompare data (fst (reset e))
| Used_onChange e fn :
    Used localeCompare data e -> Used localeCompare data (onChange fn e)
| Used_unsubscribe e fn :
    Used localeCompare data e -> Used localeCompare data (unsubscribe fn e)
| Used_read e fuel r a e' :
    Used localeCompare data e -> proper_read e r ->
    runRead localeCompare fuel r e = Some (a, e') ->
    Used localeCompare data e'.

(** The code [x] is the first among the longest satisfied codes of [seen]. *)
Definition first_longest (v : string -> bool) (seen : list string)
    (x : string) : Prop :=
  exists l1 l2,
    seen = l1 ++ x :: l2 /\ v x = true
    /\ (forall c, c ∈ l1 -> v c = true ->
                  (String.length c < String.length x)%nat)
    /\ (forall c, c ∈ l2 -> v c = true ->
                  (String.length c <= String.length x)%nat).

(** What the scan for the deepest code holds after the codes [seen]. *)
Definition scan_first (v : string -> bool) (seen : list string)
    (deepest : option string) : Prop :=
  match deepest with
  | None => forall c, c ∈ seen -> v c = false
  | Some x => first_longest v seen x
  end.

(** Two taxa of one length, both checked. *)
Definition ex_tie : Engine :=
  fst (check "AB_1" (fst (check "AA_1"
         (engine_of (create codeunit_compare
            (data_of [input_criterion "AB" 1 None "OR";
                      input_criterion "AA" 1 None "OR"])))))).

(** Every reference to a parent clause points back: to a positive clause
    number smaller than the criterion's own. *)
Definition forward (input : list Criterion) : Prop :=
  Forall (fun c => match has_parent_ref c with
                   | Some p => 0 < p < clause c
                   | None => True
                   end) input.

(** A number above every clause number of the list. *)
Definition clause_bound (cs : list Criterion) : Z :=
  foldr Z.max 0 (clause <$> cs) + 1.

(** How far the clause of an identity is below the bound. *)
Definition clause_rank (e : Engine) (id : string) : nat :=
  match List.find (fun c => String.eqb (getCriterionId c) id) (universe e) with
  | Some c => Z.to_nat (clause_bound (universe e) - clause c)
  | None => 0
  end.

(** A stack depth above the rank of every criterion of the engine. *)
Definition depth_bound (e : Engine) : nat :=
  S (foldr Nat.max 0%nat
       ((fun c => clause_rank e (getCriterionId c)) <$> universe e)).

(** A group B whose three clauses refer back, the last one checked. *)
Definition ex_forward_data : Data :=
  {| navigation :=
       Some {| nav_criteria :=
                 Some [input_criterion "B" 1 None "AND";
                       input_criterion "B" 2 (Some 1) "OR";
                       input_criterion "B" 3 (Some 2) "OR"] |};
     tree := None; data_outcomes := None; code_names := None |}.
(** ** Properties of the helpers *)

Lemma static_children e e' :
  static e' = static e -> clauseChildrenMap e' = clauseChildrenMap e.
Proof. unfold static. congruence. Qed.

Lemma static_checked e e' :
  static e' = static e -> checkedCriteria e' = checkedCriteria e.
Proof. unfold static. congruence. Qed.

Lemma static_roots e e' : static e' = static e -> groupRoots e' = groupRoots e.
Proof. unfold static. congruence. Qed.

Lemma static_universe e e' : static e' = static e -> universe e' = universe e.
Proof.
  unfold static, universe. intros H. injection H as H1 H2 H3 H4 _.
  congruence.
Qed.

Lemma static_sat_ref e e' : static e' = static e -> sat_ref e' = sat_ref e.
Proof.
  intros H. unfold sat_ref.
  by rewrite (static_children _ _ H), (static_checked _ _ H).
Qed.

Lemma static_group_ref e e' : static e' = static e -> group_ref e' = group_ref e.
Proof.
  intros H. unfold group_ref.
  by rewrite (static_roots _ _ H), (static_sat_ref _ _ H).
Qed.

Lemma static_well_formed e e' :
  static e' = static e -> well_formed e -> well_formed e'.
Proof.
  intros H. unfold well_formed.
  by rewrite (static_children _ _ H), (static_universe _ _ H).
Qed.

(** *** The reference evaluation: more fuel never changes a result *)

Lemma scan_pure_ext stop f g xs b :
  extends f g -> scan_pure stop f xs = Some b -> scan_pure stop g xs = Some b.
Proof.
  intros Hfg. induction xs as [|x xs IH]; simpl; [done|].
  destruct (f x) as [b1|] eqn:Hfx; [|done].
  rewrite (Hfg _ _ Hfx). destruct (Bool.eqb b1 stop); auto.
Qed.

Lemma map_runs_pure_ext f g runs bs :
  extends f g -> map_runs_pure f runs = Some bs -> map_runs_pure g runs = Some bs.
Proof.
  intros Hfg. revert bs. induction runs as [|run runs IH]; simpl; [done|].
  intros bs.
  destruct (scan_pure _ f _) as [b|] eqn:Hscan; [|done].
  rewrite (scan_pure_ext _ _ _ _ _ Hfg Hscan).
  destruct (map_runs_pure f runs) as [bs'|]; [|done].
  by rewrite (IH bs' eq_refl).
Qed.

Lemma siblings_pure_ext f g cs l b :
  extends f g -> siblings_pure f cs l = Some b -> siblings_pure g cs l = Some b.
Proof.
  intros Hfg. unfold siblings_pure.
  destruct (uniform_logic cs l); [by apply scan_pure_ext|].
  destruct (map_runs_pure f _) as [bs|] eqn:Hruns; [|done].
  by rewrite (map_runs_pure_ext _ _ _ _ Hfg Hruns).
Qed.

Lemma sat_pure_S ch ck n : extends (sat_pure ch ck n) (sat_pure ch ck (S n)).
Proof.
  induction n as [|n IH]; intros c b; [done|].
  simpl. destruct (ch !! getCriterionId c) as [cs|]; [|done].
  destruct (0 <? length cs)%nat; [|done].
  by apply siblings_pure_ext.
Qed.

Lemma sat_pure_mono ch ck n m :
  (n <= m)%nat -> extends (sat_pure ch ck n) (sat_pure ch ck m).
Proof.
  induction 1 as [|m _ IH]; intros c b H; [done|].
  by apply sat_pure_S, IH.
Qed.

Lemma sat_pure_det ch ck n m c b b' :
  sat_pure ch ck n c = Some b -> sat_pure ch ck m c = Some b' -> b = b'.
Proof.
  intros H1 H2.
  apply (sat_pure_mono _ _ n (Nat.max n m)) in H1; [|lia].
  apply (sat_pure_mono _ _ m (Nat.max n m)) in H2; [|lia].
  congruence.
Qed.

Lemma sat_ref_mono e n m :
  (n <= m)%nat -> extends (sat_ref e n) (sat_ref e m).
Proof. apply sat_pure_mono. Qed.

Lemma sat_ref_det e n m c b b' :
  sat_ref e n c = Some b -> sat_ref e m c = Some b' -> b = b'.
Proof. apply sat_pure_det. Qed.

(** *** The reference evaluation when every item has a value *)

Lemma scan_pure_total stop f v xs :
  (forall x, x ∈ xs -> f x = Some (v x)) ->
  scan_pure stop f xs = Some (if stop then existsb v xs else forallb v xs).
Proof.
  induction xs as [|x xs IH]; intros H; simpl.
  - by destruct stop.
  - rewrite (H x) by left.
    rewrite IH by (intros y Hy; apply H; by right).
    by destruct (v x), stop.
Qed.

Lemma map_runs_pure_total f v runs :
  (forall run x, run ∈ runs -> x ∈ r_items run -> f x = Some (v x)) ->
  map_runs_pure f runs = Some (map (run_value v) runs).
Proof.
  induction runs as [|run runs IH]; intros H; simpl; [done|].
  rewrite (scan_pure_total _ _ v) by (intros x Hx; apply (H run); [by left|done]).
  rewrite IH by (intros r x Hr Hx; apply (H r); [by right|done]).
  unfold run_value. by destruct (String.eqb (r_logic run) "AND").
Qed.

(** *** The runs of a sibling list *)

Lemma runs_loop_concat l items rest :
  concat (map r_items (runs_loop l items rest)) = items ++ rest.
Proof.
  revert l items. induction rest as [|s rest IH]; intros l items; simpl.
  - by rewrite !app_nil_r.
  - destruct (String.eqb (logic s) l); simpl.
    + by rewrite IH, <- app_assoc.
    + by rewrite IH.
Qed.

Lemma group_runs_concat cs : concat (map r_items (group_runs cs)) = cs.
Proof. destruct cs as [|s cs]; [done|]. apply runs_loop_concat. Qed.

Lemma elem_of_runs_concat (runs : list Run) run x :
  run ∈ runs -> x ∈ r_items run -> x ∈ concat (map r_items runs).
Proof.
  induction 1 as [run runs|run run' runs _ IH]; intros Hx; simpl;
    apply elem_of_app; auto.
Qed.

Lemma group_runs_elem cs run x :
  run ∈ group_runs cs -> x ∈ r_items run -> x ∈ cs.
Proof.
  intros Hrun Hx. rewrite <- (group_runs_concat cs).
  by apply (elem_of_runs_concat _ run).
Qed.

(** *** The memo tables are sound: a memoised evaluation returns what the
    reference evaluation returns, and leaves sound tables *)

Lemma sat_pure_same_id ch ck n c c' :
  getCriterionId c = getCriterionId c' -> logic c = logic c' ->
  sat_pure ch ck n c = sat_pure ch ck n c'.
Proof. intros Hid Hl. destruct n; simpl; [done|]. by rewrite Hid, Hl. Qed.

Lemma well_formed_children e id cs x :
  well_formed e -> clauseChildrenMap e !! id = Some cs -> x ∈ cs ->
  x ∈ universe e.
Proof.
  intros [Hch _] Hcs Hx. specialize (Hch id cs Hcs). simpl in Hch.
  by apply (proj1 (Forall_forall _ _) Hch).
Qed.

Lemma well_formed_logic e c c' :
  well_formed e -> c ∈ universe e -> c' ∈ universe e ->
  getCriterionId c = getCriterionId c' -> logic c = logic c'.
Proof.
  intros [_ Hu] Hc Hc'.
  apply (proj1 (Forall_forall _ _) (proj1 (Forall_forall _ _) Hu c Hc) c' Hc').
Qed.

Lemma isLeafCriterion_spec c e b e' :
  caches_sound e -> isLeafCriterion c e = (b, e') ->
  b = match clauseChildrenMap e !! getCriterionId c with
      | Some _ => false
      | None => true
      end
  /\ caches_sound e' /\ static e' = static e
  /\ _satCache e' = _satCache e /\ _groupSatCache e' = _groupSatCache e.
Proof.
  intros (Hsat & Hgrp & Hleaf). unfold isLeafCriterion.
  destruct (_leafCache e !! getCriterionId c) as [b0|] eqn:Hc; intros [= <- <-].
  - split; [by apply Hleaf|]. by repeat split.
  - split; [done|]. split; [|done].
    split; [exact Hsat|]. split; [exact Hgrp|].
    intros id b. simpl. rewrite lookup_insert.
    case_decide as Hid; [|by apply Hleaf].
    subst id. by intros [= <-].
Qed.

Lemma caches_sound_insert_sat e c b m :
  well_formed e -> caches_sound e -> c ∈ universe e ->
  sat_ref e m c = Some b ->
  caches_sound (set_satCache (insert (getCriterionId c) b) e).
Proof.
  intros Hwf (Hsat & Hgrp & Hleaf) Hc Href.
  split; [|split; [exact Hgrp|exact Hleaf]].
  intros c' b'. simpl. intros Hc'. rewrite lookup_insert.
  case_decide as Hid; [|by apply Hsat].
  intros [= <-]. exists m. unfold sat_ref in *.
  rewrite <- (sat_pure_same_id _ _ m c c'); [done|done|].
  by apply (well_formed_logic e).
Qed.

Section Soundness.

Variable e0 : Engine.
Variable f : Criterion -> Eval bool.
Variable xs0 : list Criterion.

Hypothesis f_sound : forall x e b e',
  x ∈ xs0 -> threaded e0 e -> f x e = Some (b, e') ->
  (exists m, sat_ref e0 m x = Some b) /\ threaded e0 e'.

Lemma scan_until_sound stop xs e b e' :
  (forall x, x ∈ xs -> x ∈ xs0) -> threaded e0 e ->
  scan_until stop f xs e = Some (b, e') ->
  (exists m, scan_pure stop (sat_ref e0 m) xs = Some b) /\ threaded e0 e'.
Proof.
  revert e. induction xs as [|x xs IH]; intros e Hsub He; simpl.
  - intros [= <- <-]. split; [by exists O|done].
  - destruct (f x e) as [[b1 e1]|] eqn:Hfx; [|done].
    destruct (f_sound x e b1 e1) as [[m1 Hm1] He1];
      [apply Hsub; by left|done|done|].
    destruct (Bool.eqb b1 stop) eqn:Hstop.
    + intros [= <- <-]. split; [|done].
      exists m1. simpl. by rewrite Hm1, Hstop.
    + intros Hscan.
      destruct (IH e1) as [[m2 Hm2] He'];
        [intros y Hy; apply Hsub; by right|done|done|].
      split; [|done]. exists (Nat.max m1 m2). simpl.
      rewrite (sat_ref_mono _ m1 (Nat.max m1 m2) ltac:(lia) _ _ Hm1), Hstop.
      eapply scan_pure_ext; [|exact Hm2]. apply sat_ref_mono. lia.
Qed.

Lemma map_runs_sound runs e bs e' :
  (forall run x, run ∈ runs -> x ∈ r_items run -> x ∈ xs0) ->
  threaded e0 e -> map_runs f runs e = Some (bs, e') ->
  (exists m, map_runs_pure (sat_ref e0 m) runs = Some bs) /\ threaded e0 e'.
Proof.
  revert e bs. induction runs as [|run runs IH]; intros e bs Hsub He; simpl.
  - intros [= <- <-]. split; [by exists O|done].
  - intros Hmap.
    assert (exists b1 e1, scan_until (negb (String.eqb (r_logic run) "AND")) f
                            (r_items run) e = Some (b1, e1)
                          /\ match map_runs f runs e1 with
                             | Some (bs', e'') => Some (b1 :: bs', e'')
                             | None => None
                             end = Some (bs, e')) as (b1 & e1 & Hscan & Hrest).
    { unfold every_st, some_st in Hmap.
      destruct (String.eqb (r_logic run) "AND"); simpl;
        match type of Hmap with
        | match ?s with _ => _ end = _ =>
            destruct s as [[b1 e1]|] eqn:Hs; [|done]
        end; by exists b1, e1. }
    destruct (scan_until_sound _ _ _ _ _
                ltac:(intros x Hx; apply (Hsub run); [by left|done]) He Hscan)
      as [[m1 Hm1] He1].
    destruct (map_runs f runs e1) as [[bs' e'']|] eqn:Hrec; [|done].
    injection Hrest as <- <-.
    destruct (IH e1 bs') as [[m2 Hm2] He'']; [|done|done|].
    { intros r x Hr Hx. apply (Hsub r); [by right|done]. }
    split; [|done]. exists (Nat.max m1 m2).
    assert (extends (sat_ref e0 m1) (sat_ref e0 (Nat.max m1 m2))) as E1
      by (apply sat_ref_mono; lia).
    assert (extends (sat_ref e0 m2) (sat_ref e0 (Nat.max m1 m2))) as E2
      by (apply sat_ref_mono; lia).
    rewrite (scan_pure_ext _ _ _ _ _ E1 Hm1).
    by rewrite (map_runs_pure_ext _ _ _ _ E2 Hm2).
Qed.

Lemma siblings_sound l e b e' :
  threaded e0 e -> evaluateSiblingLogic_with f xs0 l e = Some (b, e') ->
  (exists m, siblings_pure (sat_ref e0 m) xs0 l = Some b) /\ threaded e0 e'.
Proof.
  intros He. unfold evaluateSiblingLogic_with, siblings_pure, every_st, some_st.
  destruct (uniform_logic xs0 l).
  - destruct (String.eqb l "AND"); simpl; by apply scan_until_sound.
  - destruct (map_runs f (group_runs xs0) e) as [[bs e1]|] eqn:Hmap; [|done].
    destruct (map_runs_sound _ _ _ _ (group_runs_elem xs0) He Hmap)
      as [[m Hm] He1].
    intros Hres. split.
    + exists m. rewrite Hm. by destruct (String.eqb l "AND"); injection Hres as <- <-.
    + by destruct (String.eqb l "AND"); injection Hres as <- <-.
Qed.

End Soundness.

Lemma isClauseSatisfied_sound fuel : forall c e b e',
  well_formed e -> caches_sound e -> c ∈ universe e ->
  isClauseSatisfied fuel c e = Some (b, e') ->
  (exists m, sat_ref e m c = Some b) /\ caches_sound e' /\ static e' = static e.
Proof.
  induction fuel as [|fuel IH]; intros c e b e' Hwf Hs Hc; simpl; [done|].
  destruct (_satCache e !! getCriterionId c) as [b0|] eqn:Hcache.
  { intros [= <- <-]. split; [|done]. by apply (proj1 Hs). }
  destruct (isLeafCriterion c e) as [leaf e1] eqn:Hleaf.
  destruct (isLeafCriterion_spec _ _ _ _ Hs Hleaf)
    as (Hl & Hs1 & Hst1 & Hsat1 & _).
  assert (Hwf1 : well_formed e1) by by apply (static_well_formed e).
  assert (Hc1 : c ∈ universe e1) by by rewrite (static_universe e).
  assert (Hfin : forall result e2 m,
            caches_sound e2 -> static e2 = static e ->
            sat_ref e m c = Some result ->
            (exists m, sat_ref e m c = Some result)
            /\ caches_sound (set_satCache (insert (getCriterionId c) result) e2)
            /\ static (set_satCache (insert (getCriterionId c) result) e2)
               = static e).
  { intros result e2 m Hs2 Hst2 Href. split; [by exists m|]. split; [|done].
    apply (caches_sound_insert_sat _ _ _ m); [by apply (static_well_formed e)
      |done|by rewrite (static_universe e)|by rewrite (static_sat_ref e)]. }
  unfold getClauseChildren. rewrite (static_children _ _ Hst1), (static_checked _ _ Hst1).
  destruct (clauseChildrenMap e !! getCriterionId c) as [cs|] eqn:Hcs;
    subst leaf; simpl.
  - destruct (0 <? length cs)%nat eqn:Hlen.
    + destruct (evaluateSiblingLogic_with _ cs (logic c) e1)
        as [[result e2]|] eqn:Hev; [|done].
      intros [= <- <-].
      destruct (siblings_sound e (isClauseSatisfied fuel) cs) with
        (l := logic c) (e := e1) (b := result) (e' := e2)
        as [[m Hm] [Hs2 Hst2]]; [|done|done|].
      { intros x e3 b3 e3' Hx [Hs3 Hst3] Hx3.
        destruct (IH x e3 b3 e3') as ([m Hm] & Hs3' & Hst3');
          [by apply (static_well_formed e)|done| |done|].
        - rewrite (static_universe e) by done.
          by apply (well_formed_children e (getCriterionId c) cs).
        - split; [exists m; by rewrite <- (static_sat_ref _ _ Hst3)|].
          split; [done|congruence]. }
      apply (Hfin _ _ (S m)); [done|done|].
      unfold sat_ref. simpl. by rewrite Hcs, Hlen.
    + intros [= <- <-]. apply (Hfin _ _ 1%nat); [done|done|].
      unfold sat_ref. simpl. by rewrite Hcs, Hlen.
  - intros [= <- <-]. apply (Hfin _ _ 1%nat); [done|done|].
    unfold sat_ref. simpl. by rewrite Hcs.
Qed.

(** *** The memo tables lose nothing: with the fuel that is enough for the
    reference evaluation, the memoised one returns the same result *)

Section Completeness.

Variable e0 : Engine.
Variable f : Criterion -> Eval bool.
Variable g : Criterion -> option bool.
Variable xs0 : list Criterion.

Hypothesis f_complete : forall x e b,
  x ∈ xs0 -> threaded e0 e -> g x = Some b ->
  exists e', f x e = Some (b, e') /\ threaded e0 e'.

Lemma scan_until_complete stop xs e b :
  (forall x, x ∈ xs -> x ∈ xs0) -> threaded e0 e ->
  scan_pure stop g xs = Some b ->
  exists e', scan_until stop f xs e = Some (b, e') /\ threaded e0 e'.
Proof.
  revert e. induction xs as [|x xs IH]; intros e Hsub He; simpl.
  - intros [= <-]. by exists e.
  - destruct (g x) as [b1|] eqn:Hgx; [|done].
    destruct (f_complete x e b1) as (e1 & Hfx & He1);
      [apply Hsub; by left|done|done|].
    rewrite Hfx. destruct (Bool.eqb b1 stop).
    + intros [= <-]. by exists e1.
    + apply IH; [intros y Hy; apply Hsub; by right|done].
Qed.

Lemma map_runs_complete runs e bs :
  (forall run x, run ∈ runs -> x ∈ r_items run -> x ∈ xs0) ->
  threaded e0 e -> map_runs_pure g runs = Some bs ->
  exists e', map_runs f runs e = Some (bs, e') /\ threaded e0 e'.
Proof.
  revert e bs. induction runs as [|run runs IH]; intros e bs Hsub He; simpl.
  - intros [= <-]. by exists e.
  - destruct (scan_pure _ g (r_items run)) as [b1|] eqn:Hscan; [|done].
    destruct (scan_until_complete _ _ e _
                ltac:(intros x Hx; apply (Hsub run); [by left|done]) He Hscan)
      as (e1 & Hscan1 & He1).
    destruct (map_runs_pure g runs) as [bs'|] eqn:Hrec; [|done].
    intros [= <-].
    destruct (IH e1 bs') as (e2 & Hmap & He2); [|done|done|].
    { intros r x Hr Hx. apply (Hsub r); [by right|done]. }
    exists e2. split; [|done].
    unfold every_st, some_st.
    destruct (String.eqb (r_logic run) "AND"); simpl in Hscan1;
      by rewrite Hscan1, Hmap.
Qed.

Lemma siblings_complete l e b :
  threaded e0 e -> siblings_pure g xs0 l = Some b ->
  exists e', evaluateSiblingLogic_with f xs0 l e = Some (b, e')
             /\ threaded e0 e'.
Proof.
  intros He. unfold evaluateSiblingLogic_with, siblings_pure, every_st, some_st.
  destruct (uniform_logic xs0 l).
  - destruct (String.eqb l "AND"); simpl; by apply scan_until_complete.
  - destruct (map_runs_pure g (group_runs xs0)) as [bs|] eqn:Hmap; [|done].
    destruct (map_runs_complete _ e _ (group_runs_elem xs0) He Hmap)
      as (e1 & Hmap1 & He1).
    intros [= <-]. exists e1. rewrite Hmap1.
    by destruct (String.eqb l "AND").
Qed.

End Completeness.

Lemma isClauseSatisfied_complete fuel : forall c e b,
  well_formed e -> caches_sound e -> c ∈ universe e ->
  sat_ref e fuel c = Some b ->
  exists e', isClauseSatisfied fuel c e = Some (b, e').
Proof.
  induction fuel as [|fuel IH]; intros c e b Hwf Hs Hc; [done|].
  intros Href. simpl.
  destruct (_satCache e !! getCriterionId c) as [b0|] eqn:Hcache.
  { destruct (proj1 Hs c b0 Hc Hcache) as [m Hm].
    rewrite (sat_ref_det _ _ _ _ _ _ Hm Href). by eexists. }
  destruct (isLeafCriterion c e) as [leaf e1] eqn:Hleaf.
  destruct (isLeafCriterion_spec _ _ _ _ Hs Hleaf)
    as (Hl & Hs1 & Hst1 & Hsat1 & _).
  unfold getClauseChildren.
  rewrite (static_children _ _ Hst1), (static_checked _ _ Hst1).
  unfold sat_ref in Href. simpl in Href.
  destruct (clauseChildrenMap e !! getCriterionId c) as [cs|] eqn:Hcs;
    subst leaf; simpl.
  - destruct (0 <? length cs)%nat eqn:Hlen.
    + destruct (siblings_complete e (isClauseSatisfied fuel) (sat_ref e fuel) cs)
        with (l := logic c) (e := e1) (b := b) as (e2 & Hev & _);
        [|done|done|by rewrite Hev; eexists].
      intros x e3 b3 Hx [Hs3 Hst3] Hx3.
      assert (Hwf3 : well_formed e3) by by apply (static_well_formed e).
      assert (Hx' : x ∈ universe e3).
      { rewrite (static_universe e) by done.
        by apply (well_formed_children e (getCriterionId c) cs). }
      destruct (IH x e3 b3) as [e3' He3']; [done|done|done| |].
      { by rewrite (static_sat_ref e). }
      exists e3'. split; [done|].
      destruct (isClauseSatisfied_sound _ _ _ _ _ Hwf3 Hs3 Hx' He3')
        as (_ & Hs3' & Hst3').
      split; [done|congruence].
    + injection Href as <-. by eexists.
  - injection Href as <-. by eexists.
Qed.

Lemma evaluates_iff e c b :
  well_formed e -> caches_sound e -> c ∈ universe e ->
  evaluates e c b <-> exists m, sat_ref e m c = Some b.
Proof.
  intros Hwf Hs Hc. split.
  - intros (fuel & e' & H).
    by destruct (isClauseSatisfied_sound _ _ _ _ _ Hwf Hs Hc H) as [? _].
  - intros [m Hm]. exists m. by apply isClauseSatisfied_complete.
Qed.

(** The values of finitely many criteria are reached with one fuel. *)
Lemma common_fuel e (v : Criterion -> bool) (cs : list Criterion) :
  (forall x, x ∈ cs -> exists m, sat_ref e m x = Some (v x)) ->
  exists m, forall x, x ∈ cs -> sat_ref e m x = Some (v x).
Proof.
  induction cs as [|c cs IH]; intros H.
  - exists O. intros x Hx. by apply elem_of_nil in Hx.
  - destruct (H c ltac:(by left)) as [m1 Hm1].
    destruct IH as [m2 Hm2]; [intros x Hx; apply H; by right|].
    exists (Nat.max m1 m2). intros x Hx.
    apply elem_of_cons in Hx as [->|Hx].
    + eapply sat_ref_mono; [|exact Hm1]. lia.
    + eapply sat_ref_mono; [|by apply Hm2]. lia.
Qed.

(** *** Consequences for the evaluation of one node *)

Lemma evaluates_det e c b b' :
  well_formed e -> caches_sound e -> c ∈ universe e ->
  evaluates e c b -> evaluates e c b' -> b = b'.
Proof.
  intros Hwf Hs Hc H1 H2.
  apply (evaluates_iff _ _ _ Hwf Hs Hc) in H1 as [m1 H1].
  apply (evaluates_iff _ _ _ Hwf Hs Hc) in H2 as [m2 H2].
  by apply (sat_ref_det _ _ _ _ _ _ H1 H2).
Qed.

Lemma caches_sound_empty e :
  _satCache e = ∅ -> _groupSatCache e = ∅ -> _leafCache e = ∅ ->
  caches_sound e.
Proof.
  intros H1 H2 H3. split; [|split].
  - intros c b _. by rewrite H1, lookup_empty.
  - intros code b. by rewrite H2, lookup_empty.
  - intros id b. by rewrite H3, lookup_empty.
Qed.

Lemma node_evaluates e node cs v b :
  well_formed e -> caches_sound e -> node ∈ universe e ->
  clauseChildrenMap e !! getCriterionId node = Some cs -> cs <> [] ->
  Forall (fun s => evaluates e s (v s)) cs ->
  (forall m, (forall x, x ∈ cs -> sat_ref e m x = Some (v x)) ->
             siblings_pure (sat_ref e m) cs (logic node) = Some b) ->
  evaluates e node b.
Proof.
  intros Hwf Hs Hnode Hcs Hne Hv Hsib.
  destruct (common_fuel e v cs) as [m Hm].
  { intros x Hx. apply evaluates_iff; [done|done| |].
    - by apply (well_formed_children e (getCriterionId node) cs).
    - by apply (proj1 (Forall_forall _ _) Hv). }
  apply evaluates_iff; [done|done|done|].
  exists (S m). unfold sat_ref. simpl. rewrite Hcs.
  destruct cs as [|c cs']; [done|]. simpl. by apply Hsib.
Qed.

Lemma uniform_logic_true cs pl l :
  cs <> [] -> Forall (fun s => logic s = l) cs -> uniform_logic cs pl = true.
Proof.
  intros Hne Hl. unfold uniform_logic.
  destruct cs as [|c cs']; [done|].
  apply forallb_forall. intros s Hs. apply String.eqb_eq.
  rewrite (proj1 (Forall_forall _ _) Hl c) by by left.
  apply (proj1 (Forall_forall _ _) Hl). by apply list_elem_of_In.
Qed.

Lemma uniform_logic_false (cs : list Criterion) pl s s' :
  s ∈ cs -> s' ∈ cs -> logic s <> logic s' -> uniform_logic cs pl = false.
Proof.
  intros Hs Hs' Hne. apply not_true_is_false. intros Hu.
  unfold uniform_logic in Hu. destruct cs as [|c cs']; [by apply elem_of_nil in Hs|].
  rewrite forallb_forall in Hu.
  apply Hne. transitivity (logic c).
  - apply String.eqb_eq, Hu. by apply list_elem_of_In.
  - symmetry. apply String.eqb_eq, Hu. by apply list_elem_of_In.
Qed.

(** ** Properties of the satisfaction evaluator *)

(** C1, as amended.  For every internal node with at least one child whose
    children all carry one and the same combinator [l], [isClauseSatisfied]
    of the node is decided by the node's OWN combinator, whatever [l] is:
    when the node is AND it is satisfied iff every child is, and otherwise
    iff at least one child is. *)
Theorem uniform_children_by_parent_logic e node cs l v :
  well_formed e -> caches_sound e -> node ∈ universe e ->
  clauseChildrenMap e !! getCriterionId node = Some cs -> cs <> [] ->
  Forall (fun s => logic s = l) cs ->
  Forall (fun s => evaluates e s (v s)) cs ->
  evaluates e node
    (if String.eqb (logic node) "AND" then forallb v cs else existsb v cs).
Proof.
  intros Hwf Hs Hnode Hcs Hne Hl Hv.
  apply (node_evaluates e node cs v); try done.
  intros m Hm. unfold siblings_pure.
  rewrite (uniform_logic_true cs (logic node) l Hne Hl).
  rewrite (scan_pure_total _ _ v cs Hm).
  by destruct (String.eqb (logic node) "AND").
Qed.

Lemma evaluates_compute e c b fuel :
  (fst <$> isClauseSatisfied fuel c e) = Some b -> evaluates e c b.
Proof.
  intros H. destruct (isClauseSatisfied fuel c e) as [[b' e']|] eqn:E; [|done].
  injection H as <-. by exists fuel, e'.
Qed.

Lemma well_formed_compute e : bool_decide (well_formed e) = true -> well_formed e.
Proof. apply bool_decide_eq_true_1. Qed.

Lemma ex_uniform_children_evaluate :
  Forall (fun s => evaluates ex_uniform s (clause s =? 2)) ex_uniform_children.
Proof.
  repeat constructor; by apply (evaluates_compute _ _ _ 1).
Qed.

(** C1, as stated, fails: under an AND parent, two children that share the
    combinator OR, one of them satisfied, do not satisfy the parent. *)
Lemma shared_combinator_counterexample :
  ~ (forall e node cs l v,
       well_formed e -> caches_sound e -> node ∈ universe e ->
       clauseChildrenMap e !! getCriterionId node = Some cs -> cs <> [] ->
       Forall (fun s => logic s = l) cs ->
       Forall (fun s => evaluates e s (v s)) cs ->
       evaluates e node
         (if String.eqb l "AND" then forallb v cs else existsb v cs)).
Proof.
  intros H.
  assert (Hwf : well_formed ex_uniform) by by apply well_formed_compute.
  assert (Hs : caches_sound ex_uniform) by by apply caches_sound_empty.
  assert (Hu : ex_uniform_parent ∈ universe ex_uniform) by by left.
  specialize (H ex_uniform ex_uniform_parent ex_uniform_children "OR"
                (fun s => clause s =? 2) Hwf Hs Hu eq_refl ltac:(done)
                ltac:(by repeat constructor) ex_uniform_children_evaluate).
  assert (Hcode : evaluates ex_uniform ex_uniform_parent false)
    by by apply (evaluates_compute _ _ _ 2).
  by pose proof (evaluates_det _ _ _ _ Hwf Hs Hu H Hcode).
Qed.

Lemma uniform_children_by_parent_logic_witness :
  evaluates ex_uniform ex_uniform_parent false.
Proof.
  apply (uniform_children_by_parent_logic ex_uniform ex_uniform_parent
           ex_uniform_children "OR" (fun s => clause s =? 2)).
  - apply well_formed_compute. vm_compute. reflexivity.
  - apply caches_sound_empty; reflexivity.
  - left.
  - reflexivity.
  - discriminate.
  - repeat constructor.
  - repeat constructor; apply (evaluates_compute _ _ _ 1); reflexivity.
Defined.

(** *** The runs are a partition into maximal runs *)

Lemma runs_loop_ok l items rest :
  items <> [] -> Forall (fun s => logic s = l) items ->
  Forall (fun r => r_items r <> [] /\
                   Forall (fun s => logic s = r_logic r) (r_items r))
    (runs_loop l items rest)
  /\ adjacent_differ (runs_loop l items rest)
  /\ exists r runs', runs_loop l items rest = r :: runs' /\ r_logic r = l.
Proof.
  revert l items. induction rest as [|s rest IH]; intros l items Hne Hl; simpl.
  - split; [|split; [done|by eexists _, _]]. by repeat constructor.
  - destruct (String.eqb (logic s) l) eqn:Hsl.
    + apply String.eqb_eq in Hsl. apply IH.
      * by destruct items.
      * apply Forall_app. split; [done|]. by repeat constructor.
    + apply String.eqb_neq in Hsl.
      destruct (IH (logic s) [s]) as (Hok & Hadj & r' & runs' & Hr & Hrl);
        [done|by repeat constructor|].
      split; [|split; [|by eexists _, _]].
      * constructor; [by split|done].
      * rewrite Hr in *. simpl. split; [|done]. by rewrite Hrl.
Qed.

Lemma group_runs_ok cs :
  Forall (fun r => r_items r <> [] /\
                   Forall (fun s => logic s = r_logic r) (r_items r))
    (group_runs cs)
  /\ adjacent_differ (group_runs cs).
Proof.
  destruct cs as [|s cs]; [by split|].
  destruct (runs_loop_ok (logic s) [s] cs) as (H1 & H2 & _);
    [done|by repeat constructor|done].
Qed.

Lemma every_true_map {A} (h : A -> bool) xs :
  every_true (map h xs) = forallb h xs.
Proof. induction xs as [|x xs IH]; simpl; [done|]. by rewrite <- IH. Qed.

Lemma some_true_map {A} (h : A -> bool) xs :
  some_true (map h xs) = existsb h xs.
Proof. induction xs as [|x xs IH]; simpl; [done|]. by rewrite <- IH. Qed.

(** C2.  For every internal node whose children carry at least two distinct
    combinators, the children are cut, in their order, into maximal runs of
    consecutive children with one combinator; each run has the value given
    by its own combinator (AND: all items, otherwise: at least one), and the
    node is satisfied by its own combinator over the runs (AND: all runs,
    otherwise: at least one run).  In particular children tagged AND, AND,
    OR, OR under an AND parent give (a and b) and (c or d): on the engine of
    the example, false with both AND children and no OR child checked, true
    with both AND children and one OR child, false with the two OR children
    only. *)
Theorem mixed_children_by_runs e node cs v :
  well_formed e -> caches_sound e -> node ∈ universe e ->
  clauseChildrenMap e !! getCriterionId node = Some cs ->
  (exists s s', s ∈ cs /\ s' ∈ cs /\ logic s <> logic s') ->
  Forall (fun s => evaluates e s (v s)) cs ->
  concat (map r_items (group_runs cs)) = cs
  /\ Forall (fun r => r_items r <> [] /\
                      Forall (fun s => logic s = r_logic r) (r_items r))
       (group_runs cs)
  /\ adjacent_differ (group_runs cs)
  /\ evaluates e node
       (if String.eqb (logic node) "AND"
        then forallb (run_value v) (group_runs cs)
        else existsb (run_value v) (group_runs cs))
  /\ (forall a b c d,
        cs = [a; b; c; d] -> logic node = "AND" ->
        logic a = "AND" -> logic b = "AND" ->
        logic c = "OR" -> logic d = "OR" ->
        evaluates e node ((v a && v b) && (v c || v d)))
  /\ (forall fuel,
        fst <$> isClauseSatisfied (S (S fuel)) ex_mixed_parent ex_mixed_and_pair
        = Some false
        /\ fst <$> isClauseSatisfied (S (S fuel)) ex_mixed_parent ex_mixed
           = Some true
        /\ fst <$> isClauseSatisfied (S (S fuel)) ex_mixed_parent
                     ex_mixed_or_pair
           = Some false).
Proof.
  intros Hwf Hs Hnode Hcs (s & s' & Hin & Hin' & Hdiff) Hv.
  assert (Hne : cs <> []) by (intros ->; by apply elem_of_nil in Hin).
  assert (Hev : evaluates e node
            (if String.eqb (logic node) "AND"
             then forallb (run_value v) (group_runs cs)
             else existsb (run_value v) (group_runs cs))).
  { apply (node_evaluates e node cs v); try done.
    intros m Hm. unfold siblings_pure.
    rewrite (uniform_logic_false cs (logic node) s s' Hin Hin' Hdiff).
    rewrite (map_runs_pure_total _ v).
    - rewrite every_true_map, some_true_map.
      by destruct (String.eqb (logic node) "AND").
    - intros run x Hrun Hx. apply Hm. by apply (group_runs_elem cs run). }
  split; [apply group_runs_concat|].
  split; [apply group_runs_ok|]. split; [apply group_runs_ok|].
  split; [done|]. split; [|intros fuel; by repeat split].
  intros a b c d -> Hn Ha Hb Hc Hd.
  rewrite Hn in Hev. unfold group_runs in Hev. simpl in Hev.
  rewrite Ha, Hb, Hc, Hd in Hev. simpl in Hev.
  unfold run_value in Hev. simpl in Hev.
  by rewrite !andb_true_r, !orb_false_r in Hev.
Qed.

Lemma mixed_children_by_runs_witness :
  evaluates ex_mixed_and_pair ex_mixed_parent false
  /\ evaluates ex_mixed ex_mixed_parent true
  /\ evaluates ex_mixed_or_pair ex_mixed_parent false.
Proof.
  split; [|split].
  - refine (proj1 (proj2 (proj2 (proj2 (proj2
      (mixed_children_by_runs ex_mixed_and_pair ex_mixed_parent
         ex_mixed_children (fun s => clause s <? 4) _ _ _ _ _ _))))) _ _ _ _
         eq_refl eq_refl eq_refl eq_refl eq_refl eq_refl).
    + apply well_formed_compute. vm_compute. reflexivity.
    + apply caches_sound_empty; reflexivity.
    + left.
    + reflexivity.
    + exists (input_criterion "MIX" 2 (Some 1) "AND"),
             (input_criterion "MIX" 4 (Some 1) "OR").
      split; [left|]. split; [right; right; left|]. discriminate.
    + repeat constructor; apply (evaluates_compute _ _ _ 1); reflexivity.
  - refine (proj1 (proj2 (proj2 (proj2 (proj2
      (mixed_children_by_runs ex_mixed ex_mixed_parent ex_mixed_children
         (fun s => clause s <? 5) _ _ _ _ _ _))))) _ _ _ _
         eq_refl eq_refl eq_refl eq_refl eq_refl eq_refl).
    + apply well_formed_compute. vm_compute. reflexivity.
    + apply caches_sound_empty; reflexivity.
    + left.
    + reflexivity.
    + exists (input_criterion "MIX" 2 (Some 1) "AND"),
             (input_criterion "MIX" 4 (Some 1) "OR").
      split; [left|]. split; [right; right; left|]. discriminate.
    + repeat constructor; apply (evaluates_compute _ _ _ 1); reflexivity.
  - refine (proj1 (proj2 (proj2 (proj2 (proj2
      (mixed_children_by_runs ex_mixed_or_pair ex_mixed_parent
         ex_mixed_children (fun s => 3 <? clause s) _ _ _ _ _ _))))) _ _ _ _
         eq_refl eq_refl eq_refl eq_refl eq_refl eq_refl).
    + apply well_formed_compute. vm_compute. reflexivity.
    + apply caches_sound_empty; reflexivity.
    + left.
    + reflexivity.
    + exists (input_criterion "MIX" 2 (Some 1) "AND"),
             (input_criterion "MIX" 4 (Some 1) "OR").
      split; [left|]. split; [right; right; left|]. discriminate.
    + repeat constructor; apply (evaluates_compute _ _ _ 1); reflexivity.
Defined.

(** *** What a mutation does to the engine

    The selection is written, the two satisfaction tables are emptied, and
    the notification changes the list of listeners at most. *)

Lemma set_listeners_twice f g e :
  set_listeners f (set_listeners g e) = set_listeners (fun l => f (g l)) e.
Proof. reflexivity. Qed.

Lemma notify_from_fst n : forall k e,
  exists l, fst (notify_from n k e) = set_listeners (fun _ => l) e.
Proof.
  induction n as [|n IH]; intros k e; simpl.
  - exists (_listeners e). by destruct e.
  - destruct (_listeners e !! k) as [fn|]; [|apply IH].
    destruct (IH (S k) (run_listener fn e)) as [l Hl].
    destruct (notify_from n (S k) (run_listener fn e)) as [e' calls].
    simpl in *. exists l. rewrite Hl. by destruct fn.
Qed.

Lemma notify_fst e : exists l, fst (_notify e) = set_listeners (fun _ => l) e.
Proof. apply notify_from_fst. Qed.

Lemma check_fst id e :
  exists l,
    fst (check id e)
    = set_listeners (fun _ => l)
        (_invalidateCaches
           (set_checkedCriteria
              (if String.eqb id "__proto__" then (fun ck => ck)
               else insert id true) e)).
Proof.
  unfold check.
  destruct (notify_fst (_invalidateCaches
              (if String.eqb id "__proto__" then e
               else set_checkedCriteria (insert id true) e))) as [l Hl].
  exists l. rewrite Hl. by destruct (String.eqb id "__proto__"), e.
Qed.

Lemma uncheck_fst id e :
  exists l,
    fst (uncheck id e)
    = set_listeners (fun _ => l)
        (_invalidateCaches (set_checkedCriteria (delete id) e)).
Proof. apply notify_fst. Qed.

Lemma reset_fst e :
  exists l,
    fst (reset e)
    = set_listeners (fun _ => l)
        (_invalidateCaches (set_checkedCriteria (fun _ => ∅) e)).
Proof. apply notify_fst. Qed.

Lemma toggle_fst id e :
  exists f l,
    fst (toggle id e)
    = set_listeners (fun _ => l)
        (_invalidateCaches (set_checkedCriteria f e)).
Proof.
  unfold toggle.
  destruct (match checkedCriteria e !! id with
            | Some b => b
            | None => inherited id
            end).
  - destruct (uncheck_fst id e) as [l Hl]. by eexists _, l.
  - destruct (check_fst id e) as [l Hl]. by eexists _, l.
Qed.

(** *** Mutations leave sound memo tables *)

Lemma caches_sound_invalidate f l e :
  caches_sound e ->
  caches_sound (set_listeners (fun _ => l)
                  (_invalidateCaches (set_checkedCriteria f e))).
Proof.
  intros (_ & _ & Hleaf). split; [|split].
  - intros c b _. simpl. by rewrite lookup_empty.
  - intros code b. simpl. by rewrite lookup_empty.
  - exact Hleaf.
Qed.

Lemma leaf_result e c fuel :
  caches_sound e -> c ∈ universe e ->
  clauseChildrenMap e !! getCriterionId c = None ->
  exists e', isClauseSatisfied (S fuel) c e
             = Some (truthy (checkedCriteria e !! getCriterionId c), e').
Proof.
  intros Hs Hc Hleaf. simpl.
  destruct (_satCache e !! getCriterionId c) as [b0|] eqn:Hcache.
  - destruct (proj1 Hs c b0 Hc Hcache) as [[|m] Hm]; [done|].
    unfold sat_ref in Hm. simpl in Hm. rewrite Hleaf in Hm.
    injection Hm as <-. by eexists.
  - destruct (isLeafCriterion c e) as [leaf e1] eqn:Hl.
    destruct (isLeafCriterion_spec _ _ _ _ Hs Hl) as (-> & _ & Hst & _).
    rewrite Hleaf, (static_checked _ _ Hst). by eexists.
Qed.

Lemma childless_result e c fuel :
  caches_sound e -> c ∈ universe e ->
  clauseChildrenMap e !! getCriterionId c = Some [] ->
  exists e', isClauseSatisfied (S fuel) c e = Some (false, e').
Proof.
  intros Hs Hc Hnil. simpl.
  destruct (_satCache e !! getCriterionId c) as [b0|] eqn:Hcache.
  - destruct (proj1 Hs c b0 Hc Hcache) as [[|m] Hm]; [done|].
    unfold sat_ref in Hm. simpl in Hm. rewrite Hnil in Hm.
    injection Hm as <-. by eexists.
  - destruct (isLeafCriterion c e) as [leaf e1] eqn:Hl.
    destruct (isLeafCriterion_spec _ _ _ _ Hs Hl) as (-> & _ & Hst & _).
    unfold getClauseChildren. rewrite Hnil, (static_children _ _ Hst), Hnil.
    by eexists.
Qed.

(** C3.  A criterion with no entry in [clauseChildrenMap] is satisfied iff
    its identity is present and true in [checkedCriteria], so after
    [uncheck] of its identity it evaluates false; a criterion whose entry is
    the empty list of children evaluates false, whatever is checked. *)
Theorem leaf_and_childless e c :
  caches_sound e -> c ∈ universe e ->
  (clauseChildrenMap e !! getCriterionId c = None ->
   forall fuel,
     (exists b e', isClauseSatisfied (S fuel) c e = Some (b, e')
        /\ (b = true <-> checkedCriteria e !! getCriterionId c = Some true))
     /\ exists e', isClauseSatisfied (S fuel) c
                     (fst (uncheck (getCriterionId c) e)) = Some (false, e'))
  /\ (clauseChildrenMap e !! getCriterionId c = Some [] ->
      forall fuel, exists e', isClauseSatisfied (S fuel) c e = Some (false, e')).
Proof.
  intros Hs Hc. split.
  - intros Hleaf fuel. split.
    + destruct (leaf_result e c fuel Hs Hc Hleaf) as [e' He'].
      eexists _, e'. split; [exact He'|].
      destruct (checkedCriteria e !! getCriterionId c) as [[|]|]; simpl;
        split; congruence.
    + destruct (uncheck_fst (getCriterionId c) e) as [l Hl]. rewrite Hl.
      destruct (leaf_result
                  (set_listeners (fun _ => l)
                     (_invalidateCaches
                        (set_checkedCriteria (delete (getCriterionId c)) e)))
                  c fuel)
        as [e' He']; [by apply caches_sound_invalidate|done|done|].
      exists e'. rewrite He'. simpl. by rewrite lookup_delete_eq.
  - intros Hnil fuel. by apply childless_result.
Qed.

Lemma leaf_and_childless_witness :
  ((exists b e', isClauseSatisfied 1 (input_criterion "P" 2 (Some 1) "OR")
                   ex_uniform = Some (b, e')
      /\ (b = true <-> checkedCriteria ex_uniform !! "P_2" = Some true))
   /\ exists e', isClauseSatisfied 1 (input_criterion "P" 2 (Some 1) "OR")
                   (fst (uncheck "P_2" ex_uniform)) = Some (false, e'))
  /\ exists e', isClauseSatisfied 1 (synthetic_root "A" []) ex_childless
                 = Some (false, e').
Proof.
  split.
  - refine (proj1 (leaf_and_childless ex_uniform
                     (input_criterion "P" 2 (Some 1) "OR") _ _) _ O).
    + apply caches_sound_empty; reflexivity.
    + right; left.
    + reflexivity.
  - refine (proj2 (leaf_and_childless ex_childless
                     (synthetic_root "A" []) _ _) _ O).
    + apply caches_sound_empty; reflexivity.
    + right; right; left.
    + reflexivity.
Defined.

(** *** What an evaluation leaves untouched *)

Lemma grows_refl e : grows e e.
Proof. by repeat split. Qed.

Lemma grows_trans e1 e2 e3 : grows e1 e2 -> grows e2 e3 -> grows e1 e3.
Proof.
  intros (Hi & Hc & Hl & Hg & Hf) (Hi' & Hc' & Hl' & Hg' & Hf').
  repeat split; try congruence; by etrans.
Qed.

Lemma grows_set_satCache f e : grows e (set_satCache f e).
Proof. by repeat split. Qed.

Lemma isLeafCriterion_grows c e b e' :
  isLeafCriterion c e = (b, e') -> grows e e'.
Proof.
  unfold isLeafCriterion.
  destruct (_leafCache e !! getCriterionId c) eqn:Hc; intros [= <- <-].
  - apply grows_refl.
  - repeat split; try done. simpl. by apply insert_subseteq.
Qed.

Lemma scan_until_growing stop f xs :
  (forall x, growing (f x)) -> growing (scan_until stop f xs).
Proof.
  intros Hf. induction xs as [|x xs IH]; intros e a e'; simpl.
  - intros [= <- <-]. apply grows_refl.
  - destruct (f x e) as [[b e1]|] eqn:Hx; [|done].
    pose proof (Hf x e b e1 Hx) as H1.
    destruct (Bool.eqb b stop).
    + by intros [= <- <-].
    + intros H. apply (grows_trans e e1); [done|]. by apply (IH e1 a).
Qed.

Lemma map_runs_growing f runs :
  (forall x, growing (f x)) -> growing (map_runs f runs).
Proof.
  intros Hf. induction runs as [|run runs IH]; intros e a e'; simpl.
  - intros [= <- <-]. apply grows_refl.
  - unfold every_st, some_st.
    destruct (if String.eqb (r_logic run) "AND"
              then scan_until false f (r_items run) e
              else scan_until true f (r_items run) e) as [[b e1]|] eqn:Hs;
      [|done].
    assert (H1 : grows e e1).
    { destruct (String.eqb (r_logic run) "AND").
      - by apply (scan_until_growing false f (r_items run) Hf e b).
      - by apply (scan_until_growing true f (r_items run) Hf e b). }
    destruct (map_runs f runs e1) as [[bs e2]|] eqn:Hrec; [|done].
    intros [= <- <-]. apply (grows_trans e e1); [done|]. by apply (IH e1 bs).
Qed.

Lemma evaluateSiblingLogic_with_growing f siblings parentLogic :
  (forall x, growing (f x)) ->
  growing (evaluateSiblingLogic_with f siblings parentLogic).
Proof.
  intros Hf e a e'. unfold evaluateSiblingLogic_with, every_st, some_st.
  destruct (uniform_logic siblings parentLogic).
  - destruct (String.eqb parentLogic "AND"); by apply scan_until_growing.
  - destruct (map_runs f (group_runs siblings) e) as [[bs e1]|] eqn:Hm;
      [|done].
    pose proof (map_runs_growing f _ Hf e bs e1 Hm).
    by destruct (String.eqb parentLogic "AND"); intros [= <- <-].
Qed.

Lemma isClauseSatisfied_growing fuel : forall c,
  growing (isClauseSatisfied fuel c).
Proof.
  induction fuel as [|fuel IH]; intros c e a e'; simpl; [done|].
  destruct (_satCache e !! getCriterionId c).
  { intros [= <- <-]. apply grows_refl. }
  destruct (isLeafCriterion c e) as [leaf e1] eqn:Hl.
  pose proof (isLeafCriterion_grows _ _ _ _ Hl) as H1.
  destruct leaf.
  - intros [= <- <-]. apply (grows_trans e e1); [done|].
    apply grows_set_satCache.
  - destruct (0 <? length (getClauseChildren c e1))%nat.
    + destruct (evaluateSiblingLogic_with _ _ _ e1) as [[b e2]|] eqn:Hev;
        [|done].
      intros [= <- <-].
      apply (grows_trans e e1); [done|]. apply (grows_trans e1 e2).
      * exact (evaluateSiblingLogic_with_growing _ _ _ IH e1 b e2 Hev).
      * apply grows_set_satCache.
    + intros [= <- <-]. apply (grows_trans e e1); [done|].
      apply grows_set_satCache.
Qed.

Lemma isGroupSatisfied_growing fuel code : growing (isGroupSatisfied fuel code).
Proof.
  intros e a e'. unfold isGroupSatisfied.
  destruct (_groupSatCache e !! code) eqn:Hc.
  { intros [= <- <-]. apply grows_refl. }
  destruct (inherited code).
  { intros [= <- <-]. apply grows_refl. }
  destruct (oget (groupRoots e) code).
  - destruct (isClauseSatisfied fuel c e) as [[b e1]|] eqn:Hev; [|done].
    intros [= <- <-].
    destruct (isClauseSatisfied_growing _ _ _ _ _ Hev)
      as (Hi & Hck & Hl & Hg & Hf).
    repeat split; try done. simpl. by apply insert_subseteq_r.
  - intros [= <- <-]. repeat split; try done.
    simpl. by apply insert_subseteq.
Qed.

Lemma findCurrentLevel_loop_growing fuel codes : forall deepest,
  growing (findCurrentLevel_loop fuel codes deepest).
Proof.
  induction codes as [|code codes IH]; intros deepest e a e'; simpl.
  - intros [= <- <-]. apply grows_refl.
  - destruct (isGroupSatisfied fuel code e) as [[sat e1]|] eqn:Hg; [|done].
    intros H. apply (grows_trans e e1).
    + exact (isGroupSatisfied_growing _ _ _ _ _ Hg).
    + exact (IH _ _ _ _ H).
Qed.

Lemma findCurrentLevel_growing fuel : growing (findCurrentLevel fuel).
Proof. intros e a e'. apply findCurrentLevel_loop_growing. Qed.

(** *** Group satisfaction *)

Lemma oget_elem_of {V} (m : JSObj V) k v : oget m k = Some v -> v ∈ ovalues m.
Proof.
  unfold oget, ovalues. induction m as [|[k' v'] m IH]; simpl; [done|].
  destruct (String.eqb k' k); simpl.
  - intros [= <-]. by left.
  - intros H. right. by apply IH.
Qed.

Lemma oget_key {V} (m : JSObj V) k v : oget m k = Some v -> k ∈ okeys m.
Proof.
  unfold oget, okeys. induction m as [|[k' v'] m IH]; simpl; [done|].
  destruct (String.eqb k' k) eqn:Hk; simpl.
  - apply String.eqb_eq in Hk as ->. by left.
  - intros H. right. by apply IH.
Qed.

Lemma root_in_universe e code root :
  oget (groupRoots e) code = Some root -> root ∈ universe e.
Proof.
  intros H. apply elem_of_app. right. by apply (oget_elem_of _ code).
Qed.

Lemma group_ref_mono e n m :
  (n <= m)%nat -> forall code b,
  group_ref e n code = Some b -> group_ref e m code = Some b.
Proof.
  intros Hnm code b. unfold group_ref.
  destruct (oget (groupRoots e) code); [|done]. by apply sat_ref_mono.
Qed.

Lemma group_ref_det e n m code b b' :
  group_ref e n code = Some b -> group_ref e m code = Some b' -> b = b'.
Proof.
  unfold group_ref. destruct (oget (groupRoots e) code); [|congruence].
  apply sat_ref_det.
Qed.

Lemma caches_sound_insert_group e code b m :
  caches_sound e -> group_ref e m code = Some b ->
  caches_sound (set_groupSatCache (insert code b) e).
Proof.
  intros (Hsat & Hgrp & Hleaf) Href.
  split; [exact Hsat|split; [|exact Hleaf]].
  intros code' b'. simpl. rewrite lookup_insert.
  case_decide as Hcode; [|by apply Hgrp].
  subst code'. intros [= <-]. by exists m.
Qed.

Lemma isGroupSatisfied_sound fuel code e r e' :
  well_formed e -> caches_sound e ->
  isGroupSatisfied fuel code e = Some (r, e') ->
  match r with
  | VBool b => exists m, group_ref e m code = Some b
  | VProto name =>
      name = code /\ inherited code = true
      /\ _groupSatCache e !! code = None /\ e' = e
  end
  /\ caches_sound e' /\ static e' = static e.
Proof.
  intros Hwf Hs. unfold isGroupSatisfied.
  destruct (_groupSatCache e !! code) as [b0|] eqn:Hcache.
  { intros [= <- <-]. split; [|done]. by apply (proj1 (proj2 Hs)). }
  destruct (inherited code) eqn:Hin.
  { by intros [= <- <-]. }
  destruct (oget (groupRoots e) code) as [root|] eqn:Hroot.
  - destruct (isClauseSatisfied fuel root e) as [[result e1]|] eqn:Hev; [|done].
    intros [= <- <-].
    destruct (isClauseSatisfied_sound _ _ _ _ _ Hwf Hs
                (root_in_universe _ _ _ Hroot) Hev) as ([m Hm] & Hs1 & Hst1).
    assert (Href : group_ref e m code = Some result)
      by (unfold group_ref; by rewrite Hroot).
    split; [by exists m|]. split; [|done].
    apply (caches_sound_insert_group _ _ _ m); [done|].
    by rewrite (static_group_ref e).
  - intros [= <- <-].
    assert (Href : group_ref e O code = Some false)
      by (unfold group_ref; by rewrite Hroot).
    split; [by exists O|]. split; [|done].
    by apply (caches_sound_insert_group _ _ _ O).
Qed.

Lemma isGroupSatisfied_complete fuel code e b :
  well_formed e -> caches_sound e -> own_answer e code ->
  group_ref e fuel code = Some b ->
  exists e', isGroupSatisfied fuel code e = Some (VBool b, e').
Proof.
  intros Hwf Hs Hown Href. unfold isGroupSatisfied.
  destruct (_groupSatCache e !! code) as [b0|] eqn:Hcache.
  { destruct (proj1 (proj2 Hs) code b0 Hcache) as [m Hm].
    rewrite (group_ref_det _ _ _ _ _ _ Hm Href). by eexists. }
  destruct Hown as [->|[b0 Hb0]]; [|congruence].
  unfold group_ref in Href.
  destruct (oget (groupRoots e) code) as [root|] eqn:Hroot.
  - destruct (isClauseSatisfied_complete _ _ _ _ Hwf Hs
                (root_in_universe _ _ _ Hroot) Href) as [e1 He1].
    rewrite He1. by eexists.
  - injection Href as <-. by eexists.
Qed.

Lemma own_answer_grows e e' code :
  grows e e' -> own_answer e code -> own_answer e' code.
Proof.
  intros (_ & _ & _ & Hg & _) [H|[b Hb]]; [by left|right].
  exists b. by apply (lookup_weaken _ _ _ _ Hb Hg).
Qed.

Lemma group_evaluates_own e code b :
  well_formed e -> caches_sound e ->
  group_evaluates e code b -> own_answer e code.
Proof.
  intros Hwf Hs (fuel & e' & H). unfold isGroupSatisfied in H.
  unfold own_answer.
  destruct (_groupSatCache e !! code) as [b0|]; [right; by eexists|].
  destruct (inherited code); [done|by left].
Qed.

Lemma group_evaluates_iff e code b :
  well_formed e -> caches_sound e ->
  group_evaluates e code b
  <-> own_answer e code /\ exists m, group_ref e m code = Some b.
Proof.
  intros Hwf Hs. split.
  - intros H. split; [by apply (group_evaluates_own e code b)|].
    destruct H as (fuel & e' & H).
    by destruct (isGroupSatisfied_sound _ _ _ _ _ Hwf Hs H) as [? _].
  - intros [Hown [m Hm]]. exists m. by apply isGroupSatisfied_complete.
Qed.

(** X23.  For a code that names no inherited property,
    [isGroupSatisfied(code)] is [isClauseSatisfied] of the root of the
    group, and for such a code with no root in [groupRoots] it returns
    false, with no evaluation at all. *)
Theorem isGroupSatisfied_is_root e code :
  well_formed e -> caches_sound e -> inherited code = false ->
  (forall root, oget (groupRoots e) code = Some root ->
     forall b, group_evaluates e code b <-> evaluates e root b)
  /\ (oget (groupRoots e) code = None ->
      forall fuel,
        exists e', isGroupSatisfied fuel code e = Some (VBool false, e')).
Proof.
  intros Hwf Hs Hplain.
  assert (Hown : own_answer e code) by by left. split.
  - intros root Hroot b.
    rewrite (group_evaluates_iff _ _ _ Hwf Hs),
      (evaluates_iff _ _ _ Hwf Hs (root_in_universe _ _ _ Hroot)).
    unfold group_ref. rewrite Hroot. split; [by intros [_ ?]|by split].
  - intros Hroot fuel. apply isGroupSatisfied_complete; [done|done|done|].
    unfold group_ref. by rewrite Hroot.
Qed.

Lemma isGroupSatisfied_is_root_witness :
  (group_evaluates ex_mixed "MIX" true <-> evaluates ex_mixed ex_mixed_parent true)
  /\ exists e', isGroupSatisfied 0 "ZZZ" ex_mixed = Some (VBool false, e').
Proof.
  assert (Hwf : well_formed ex_mixed)
    by (apply well_formed_compute; vm_compute; reflexivity).
  assert (Hs : caches_sound ex_mixed)
    by (apply caches_sound_empty; reflexivity).
  split.
  - apply (proj1 (isGroupSatisfied_is_root ex_mixed "MIX" Hwf Hs eq_refl)).
    reflexivity.
  - apply (proj2 (isGroupSatisfied_is_root ex_mixed "ZZZ" Hwf Hs eq_refl)).
    reflexivity.
Defined.

(** C4.  The claim fails for a code that names a property inherited from
    [Object.prototype]: such a code has no group, and [isGroupSatisfied]
    returns the inherited value that the read of [_groupSatCache] gives,
    not false. *)
Theorem isGroupSatisfied_inherited_code fuel :
  oget (groupRoots ex_mixed) "constructor" = None
  /\ isGroupSatisfied fuel "constructor" ex_mixed
     = Some (VProto "constructor", ex_mixed)
  /\ js_truthy (VProto "constructor") = true.
Proof. by destruct fuel. Qed.

(** ** Properties of the navigator *)

Lemma deepest_step_among v seen d code :
  deepest_among v seen d ->
  deepest_among v (seen ++ [code]) (deepest_step v d code).
Proof.
  unfold deepest_step, deepest_among, deeper.
  destruct (v code) eqn:Hv; simpl.
  - destruct d as [x|].
    + intros (Hx & Hvx & Hmax).
      destruct ((String.length x =? 0)%nat || (String.length x <? String.length code)%nat)
        eqn:Hd.
      * split; [apply elem_of_app; right; by left|]. split; [done|].
        intros c Hc Hvc. apply elem_of_app in Hc as [Hc|Hc].
        -- specialize (Hmax c Hc Hvc).
           apply orb_true_iff in Hd as [Hd|Hd].
           ++ apply Nat.eqb_eq in Hd. lia.
           ++ apply Nat.ltb_lt in Hd. lia.
        -- apply list_elem_of_singleton in Hc as ->. lia.
      * apply orb_false_iff in Hd as [_ Hd]. apply Nat.ltb_ge in Hd.
        split; [apply elem_of_app; by left|]. split; [done|].
        intros c Hc Hvc. apply elem_of_app in Hc as [Hc|Hc]; [by apply Hmax|].
        by apply list_elem_of_singleton in Hc as ->.
    + intros Hnone. split; [apply elem_of_app; right; by left|]. split; [done|].
      intros c Hc Hvc. apply elem_of_app in Hc as [Hc|Hc].
      * rewrite (Hnone c Hc) in Hvc. done.
      * apply list_elem_of_singleton in Hc as ->. lia.
  - destruct d as [x|].
    + intros (Hx & Hvx & Hmax).
      split; [apply elem_of_app; by left|]. split; [done|].
      intros c Hc Hvc. apply elem_of_app in Hc as [Hc|Hc]; [by apply Hmax|].
      apply list_elem_of_singleton in Hc as ->. congruence.
    + intros Hnone c Hc. apply elem_of_app in Hc as [Hc|Hc]; [by apply Hnone|].
      by apply list_elem_of_singleton in Hc as ->.
Qed.

Lemma deepest_of_among v codes : forall seen d,
  deepest_among v seen d ->
  deepest_among v (seen ++ codes) (deepest_of v codes d).
Proof.
  induction codes as [|code codes IH]; intros seen d Hd; simpl.
  - by rewrite app_nil_r.
  - rewrite (cons_middle code seen codes), app_assoc.
    apply IH. by apply deepest_step_among.
Qed.

Lemma findCurrentLevel_loop_sound fuel v codes : forall d e r e',
  well_formed e -> caches_sound e ->
  (forall code, code ∈ codes -> own_answer e code) ->
  (forall code, code ∈ codes -> exists m, group_ref e m code = Some (v code)) ->
  findCurrentLevel_loop fuel codes d e = Some (r, e') ->
  r = deepest_of v codes d /\ caches_sound e' /\ static e' = static e.
Proof.
  induction codes as [|code codes IH]; intros d e r e' Hwf Hs Hown Hv; simpl.
  - by intros [= <- <-].
  - destruct (isGroupSatisfied fuel code e) as [[sat e1]|] eqn:Hg; [|done].
    destruct (isGroupSatisfied_sound _ _ _ _ _ Hwf Hs Hg)
      as (Hsat & Hs1 & Hst1).
    assert (Hb : sat = VBool (v code)).
    { destruct sat as [b|name].
      - destruct Hsat as [m Hm]. destruct (Hv code ltac:(by left)) as [m' Hm'].
        by rewrite (group_ref_det _ _ _ _ _ _ Hm Hm').
      - destruct Hsat as (_ & Hin & Hnone & _).
        destruct (Hown code ltac:(by left)) as [H|[b H]]; congruence. }
    subst sat. simpl. intros Hloop.
    apply IH in Hloop as (-> & Hs' & Hst');
      [|by apply (static_well_formed e)|done| |].
    + split; [done|]. split; [done|congruence].
    + intros c Hc. apply (own_answer_grows e).
      * exact (isGroupSatisfied_growing _ _ _ _ _ Hg).
      * apply Hown. by right.
    + intros c Hc. rewrite (static_group_ref _ _ Hst1). apply Hv. by right.
Qed.

Lemma findCurrentLevel_loop_complete fuel v codes : forall d e,
  well_formed e -> caches_sound e ->
  (forall code, code ∈ codes -> own_answer e code) ->
  (forall code, code ∈ codes -> group_ref e fuel code = Some (v code)) ->
  exists e', findCurrentLevel_loop fuel codes d e
             = Some (deepest_of v codes d, e').
Proof.
  induction codes as [|code codes IH]; intros d e Hwf Hs Hown Hv; simpl.
  - by eexists.
  - destruct (isGroupSatisfied_complete fuel code e (v code) Hwf Hs)
      as [e1 Hg]; [apply Hown; by left|apply Hv; by left|].
    rewrite Hg.
    destruct (isGroupSatisfied_sound _ _ _ _ _ Hwf Hs Hg) as (_ & Hs1 & Hst1).
    apply IH; [by apply (static_well_formed e)|done| |].
    + intros c Hc. apply (own_answer_grows e).
      * exact (isGroupSatisfied_growing _ _ _ _ _ Hg).
      * apply Hown. by right.
    + intros c Hc. rewrite (static_group_ref _ _ Hst1). apply Hv. by right.
Qed.

Lemma common_group_fuel e (v : string -> bool) (codes : list string) :
  (forall code, code ∈ codes -> exists m, group_ref e m code = Some (v code)) ->
  exists m, forall code, code ∈ codes -> group_ref e m code = Some (v code).
Proof.
  induction codes as [|c codes IH]; intros H.
  - exists O. intros x Hx. by apply elem_of_nil in Hx.
  - destruct (H c ltac:(by left)) as [m1 Hm1].
    destruct IH as [m2 Hm2]; [intros x Hx; apply H; by right|].
    exists (Nat.max m1 m2). intros x Hx.
    apply elem_of_cons in Hx as [->|Hx].
    + eapply group_ref_mono; [|exact Hm1]. lia.
    + eapply group_ref_mono; [|by apply Hm2]. lia.
Qed.

(** The result of [findCurrentLevel], when every group evaluates. *)
Lemma findCurrentLevel_result e v :
  well_formed e -> caches_sound e ->
  Forall (fun code => group_evaluates e code (v code)) (okeys (groupRoots e)) ->
  (exists fuel e', findCurrentLevel fuel e
                   = Some (deepest_of v (okeys (groupRoots e)) None, e')
                   /\ caches_sound e' /\ static e' = static e)
  /\ (forall fuel r e', findCurrentLevel fuel e = Some (r, e') ->
        r = deepest_of v (okeys (groupRoots e)) None).
Proof.
  intros Hwf Hs Hv.
  assert (Hv' : forall code, code ∈ okeys (groupRoots e) ->
                  exists m, group_ref e m code = Some (v code)).
  { intros code Hc.
    apply (proj1 (group_evaluates_iff _ _ _ Hwf Hs)).
    by apply (proj1 (Forall_forall _ _) Hv). }
  assert (Hown : forall code, code ∈ okeys (groupRoots e) ->
                   own_answer e code).
  { intros code Hc. apply (group_evaluates_own e code (v code)); [done|done|].
    by apply (proj1 (Forall_forall _ _) Hv). }
  split.
  - destruct (common_group_fuel _ _ _ Hv') as [m Hm].
    destruct (findCurrentLevel_loop_complete m v _ None e Hwf Hs Hown Hm)
      as [e' He'].
    exists m, e'. split; [done|].
    by destruct (findCurrentLevel_loop_sound _ _ _ _ _ _ _ Hwf Hs Hown Hv' He')
      as (_ & ? & ?).
  - intros fuel r e' H.
    by destruct (findCurrentLevel_loop_sound _ _ _ _ _ _ _ Hwf Hs Hown Hv' H)
      as (? & _).
Qed.

(** C5.  [findCurrentLevel] returns a code of a satisfied group that is at
    least as long as the code of every satisfied group, and [null] exactly
    when no group is satisfied; when the satisfied codes are A, AA and AAA
    it returns AAA. *)
Theorem findCurrentLevel_deepest e v :
  well_formed e -> caches_sound e ->
  Forall (fun code => group_evaluates e code (v code)) (okeys (groupRoots e)) ->
  exists r,
    (exists fuel e', findCurrentLevel fuel e = Some (r, e'))
    /\ (forall fuel r' e', findCurrentLevel fuel e = Some (r', e') -> r' = r)
    /\ (r = None <-> forall code, code ∈ okeys (groupRoots e) -> v code = false)
    /\ (forall code, r = Some code ->
          code ∈ okeys (groupRoots e) /\ v code = true
          /\ forall code', code' ∈ okeys (groupRoots e) -> v code' = true ->
                           (String.length code' <= String.length code)%nat)
    /\ ((forall code, code ∈ okeys (groupRoots e) /\ v code = true
                      <-> code ∈ ["A"; "AA"; "AAA"]) ->
        r = Some "AAA").
Proof.
  intros Hwf Hs Hv.
  destruct (findCurrentLevel_result e v Hwf Hs Hv)
    as [(fuel & e' & Hrun & _) Huniq].
  pose proof (deepest_of_among v (okeys (groupRoots e)) [] None
                ltac:(intros c Hc; by apply elem_of_nil in Hc)) as Hd.
  simpl in Hd.
  set (r := deepest_of v (okeys (groupRoots e)) None) in *.
  exists r. split; [by exists fuel, e'|]. split; [exact Huniq|].
  assert (Hnone : r = None <->
            forall code, code ∈ okeys (groupRoots e) -> v code = false).
  { destruct r as [x|]; simpl in Hd.
    - split; [done|]. intros Hall. destruct Hd as (Hx & Hvx & _).
      rewrite (Hall x Hx) in Hvx. done.
    - by split. }
  assert (Hsome : forall code, r = Some code ->
            code ∈ okeys (groupRoots e) /\ v code = true
            /\ forall code', code' ∈ okeys (groupRoots e) -> v code' = true ->
                             (String.length code' <= String.length code)%nat).
  { intros code Hr. by rewrite Hr in Hd. }
  split; [exact Hnone|]. split; [exact Hsome|].
  intros Hthree.
  destruct r as [x|].
  - destruct (Hsome x eq_refl) as (Hx & Hvx & Hmax).
    assert (Hlen : (3 <= String.length x)%nat).
    { apply (Hmax "AAA"); apply (proj2 (Hthree "AAA")); by repeat constructor. }
    pose proof (proj1 (Hthree x) (conj Hx Hvx)) as Hin.
    apply elem_of_cons in Hin as [->|Hin]; [simpl in Hlen; lia|].
    apply elem_of_cons in Hin as [->|Hin]; [simpl in Hlen; lia|].
    by apply list_elem_of_singleton in Hin as ->.
  - assert (HinA : "A" ∈ ["A"; "AA"; "AAA"]) by by left.
    destruct (proj2 (Hthree "A") HinA) as [HkA HvA].
    pose proof (proj1 Hnone eq_refl "A" HkA). congruence.
Qed.

Lemma findCurrentLevel_deepest_witness :
  exists r,
    (exists fuel e', findCurrentLevel fuel ex_nested = Some (r, e'))
    /\ r = Some "AAA".
Proof.
  destruct (findCurrentLevel_deepest ex_nested (fun _ => true))
    as (r & Hrun & _ & _ & _ & Hthree).
  - apply well_formed_compute. vm_compute. reflexivity.
  - apply caches_sound_empty; reflexivity.
  - repeat constructor; exists 1%nat; eexists; vm_compute; reflexivity.
  - exists r. split; [exact Hrun|]. apply Hthree.
    intros code. split; [intros [H _]; exact H|intros H; split; [exact H|reflexivity]].
Defined.

(** *** The prefixes of a code *)

Lemma substring_0_length i s :
  (i <= String.length s)%nat -> String.length (String.substring 0 i s) = i.
Proof.
  revert i. induction s as [|c s IH]; intros [|i] Hi; simpl in *; try lia.
  rewrite IH; lia.
Qed.

Lemma prefix_length p s :
  String.prefix p s = true -> (String.length p <= String.length s)%nat.
Proof.
  revert p. induction s as [|c s IH]; intros [|a p]; simpl; try lia; try done.
  destruct (Ascii.ascii_dec a c); [|done]. intros H. apply IH in H. lia.
Qed.

Lemma code_prefixes_spec p cur :
  p ∈ code_prefixes cur <-> p <> "" /\ String.prefix p cur = true.
Proof.
  unfold code_prefixes. rewrite list_elem_of_fmap. split.
  - intros (i & -> & Hi). apply elem_of_seq in Hi.
    assert (Hlen : String.length (String.substring 0 i cur) = i)
      by (apply substring_0_length; lia).
    split.
    + intros Hnil. rewrite Hnil in Hlen. simpl in Hlen. lia.
    + apply String.prefix_correct. by rewrite Hlen.
  - intros [Hne Hp]. exists (String.length p). split.
    + symmetry. by apply String.prefix_correct.
    + apply elem_of_seq. pose proof (prefix_length _ _ Hp).
      destruct p; [done|]. simpl in *. lia.
Qed.

Lemma code_truthy_Some r cur :
  code_truthy r = Some cur <-> r = Some cur /\ cur <> "".
Proof.
  unfold code_truthy. destruct r as [[|a s]|]; simpl.
  - split; [done|]. intros [H1 H2]. by injection H1 as <-.
  - split.
    + intros H. injection H as <-. by split.
    + intros [H _]. by injection H as <-.
  - split; [done|]. by intros [H _].
Qed.

(** C6, as amended.  When no group is satisfied (or only the group of the
    empty code is), [getVisibleGroups] returns exactly the groups with a code
    of length 1.  When the deepest satisfied code [cur] is not empty, it
    returns exactly the groups of
    [groupedCriteria] whose code is a non-empty prefix of [cur] or one of the
    child codes of [cur] in [children_by_parent]: a prefix of [cur] that is
    the code of no group is not in the result. *)
Theorem getVisibleGroups_codes e v :
  well_formed e -> caches_sound e ->
  Forall (fun code => group_evaluates e code (v code)) (okeys (groupRoots e)) ->
  exists r gs,
    (exists fuel e' e'', findCurrentLevel fuel e = Some (r, e')
                         /\ getVisibleGroups fuel e = Some (gs, e''))
    /\ (forall fuel r' e', findCurrentLevel fuel e = Some (r', e') -> r' = r)
    /\ (forall fuel gs' e', getVisibleGroups fuel e = Some (gs', e') -> gs' = gs)
    /\ ((forall code, code ∈ okeys (groupRoots e) -> v code = false) ->
        gs = filter (fun g => String.length (g_code g) = 1%nat)
               (groupedCriteria e))
    /\ (r = Some "" ->
        gs = filter (fun g => String.length (g_code g) = 1%nat)
               (groupedCriteria e))
    /\ (forall cur, r = Some cur -> cur <> "" ->
        forall g, g ∈ gs <->
          g ∈ groupedCriteria e
          /\ ((g_code g <> "" /\ String.prefix (g_code g) cur = true)
              \/ g_code g ∈ default [] (children_by_parent e !! cur))).
Proof.
  intros Hwf Hs Hv.
  destruct (findCurrentLevel_result e v Hwf Hs Hv)
    as [(fuel & e' & Hrun & _ & Hst) Huniq].
  set (r := deepest_of v (okeys (groupRoots e)) None) in *.
  assert (Hunfold : forall fuel2 e2, findCurrentLevel fuel2 e = Some (r, e2) ->
            getVisibleGroups fuel2 e
            = Some (match code_truthy r with
                    | None => filter (fun g => String.length (g_code g) = 1%nat)
                                (groupedCriteria e)
                    | Some cur =>
                        filter (fun g => g_code g ∈@{gset string}
                                  list_to_set (code_prefixes cur)
                                  ∪ list_to_set
                                      (default [] (children_by_parent e !! cur)))
                          (groupedCriteria e)
                    end, e2)).
  { intros fuel2 e2 Hrun2. unfold getVisibleGroups. rewrite Hrun2.
    destruct (findCurrentLevel_loop_sound fuel2 v (okeys (groupRoots e))
                None e r e2 Hwf Hs)
      as (_ & _ & Hst2); [| |exact Hrun2|].
    { intros code Hc. apply (group_evaluates_own e code (v code)); [done|done|].
      by apply (proj1 (Forall_forall _ _) Hv). }
    { intros code Hc. apply (proj1 (group_evaluates_iff _ _ _ Hwf Hs)).
      by apply (proj1 (Forall_forall _ _) Hv). }
    assert (groupedCriteria e2 = groupedCriteria e) as ->
      by (unfold static in Hst2; congruence).
    assert (children_by_parent e2 = children_by_parent e) as ->
      by (unfold static in Hst2; congruence).
    by destruct (code_truthy r). }
  eexists r, _. split; [exists fuel, e', e'; split; [exact Hrun|by apply Hunfold]|].
  split; [exact Huniq|]. split.
  { intros fuel2 gs' e2 H2.
    destruct (findCurrentLevel fuel2 e) as [[r2 e2']|] eqn:Hrun2.
    - pose proof (Huniq _ _ _ Hrun2) as ->.
      rewrite (Hunfold _ _ Hrun2) in H2. by injection H2 as <- _.
    - unfold getVisibleGroups in H2. by rewrite Hrun2 in H2. }
  split.
  - intros Hnone.
    assert (Hr : r = None).
    { pose proof (deepest_of_among v (okeys (groupRoots e)) [] None
                    ltac:(intros c Hc; by apply elem_of_nil in Hc)) as Hd.
      simpl in Hd. fold r in Hd. destruct r as [x|]; [|done].
      destruct Hd as (Hx & Hvx & _). rewrite (Hnone x Hx) in Hvx. done. }
    by rewrite Hr.
  - split; [intros Hr; by rewrite Hr|].
    intros cur Hr Hne g.
    rewrite (proj2 (code_truthy_Some r cur) (conj Hr Hne)).
    rewrite list_elem_of_filter, elem_of_union, !elem_of_list_to_set,
      code_prefixes_spec.
    tauto.
Qed.

(** C6, as stated, fails: with groups A and AAA only, both satisfied, the
    prefix AA of the deepest satisfied code AAA is not a visible code. *)
Lemma visible_prefix_counterexample :
  exists gs e',
    getVisibleGroups 1 ex_gap = Some (gs, e')
    /\ (fst <$> findCurrentLevel 1 ex_gap) = Some (Some "AAA")
    /\ "AA" ∈ code_prefixes "AAA"
    /\ ("AA" ∉ map g_code gs)
    /\ map g_code gs = ["A"; "AAA"].
Proof.
  eexists _, _. split; [vm_compute; reflexivity|].
  split; [by vm_compute|]. split; [by right; left|].
  split; [|done].
  simpl. intros H. by repeat (apply elem_of_cons in H as [H|H]; [done|]);
    apply elem_of_nil in H.
Qed.

Lemma getVisibleGroups_codes_witness :
  exists r gs,
    (exists fuel e' e'', findCurrentLevel fuel ex_gap = Some (r, e')
                         /\ getVisibleGroups fuel ex_gap = Some (gs, e''))
    /\ (forall cur, r = Some cur -> cur <> "" ->
        forall g, g ∈ gs <->
          g ∈ groupedCriteria ex_gap
          /\ ((g_code g <> "" /\ String.prefix (g_code g) cur = true)
              \/ g_code g ∈ default [] (children_by_parent ex_gap !! cur))).
Proof.
  destruct (getVisibleGroups_codes ex_gap (fun _ => true))
    as (r & gs & Hrun & _ & _ & _ & _ & Hcodes).
  - apply well_formed_compute. vm_compute. reflexivity.
  - apply caches_sound_empty; reflexivity.
  - repeat constructor; exists 1%nat; eexists; vm_compute; reflexivity.
  - exists r, gs. split; [exact Hrun|exact Hcodes].
Defined.

(** ** Properties of the selection state *)

Lemma notify_from_inert n : forall k e,
  Forall inert (_listeners e) ->
  notify_from n k e
  = (e, map (fun fn => (fn, e)) (take n (drop k (_listeners e)))).
Proof.
  induction n as [|n IH]; intros k e Hin; simpl; [done|].
  destruct (_listeners e !! k) as [fn|] eqn:Hk.
  - assert (Hfn : inert fn).
    { apply (proj1 (Forall_forall _ _) Hin). by eapply list_elem_of_lookup_2. }
    destruct fn as [i|i]; [|done]. simpl.
    rewrite (IH (S k) e Hin). by rewrite (drop_S _ _ _ Hk).
  - rewrite (IH (S k) e Hin).
    apply lookup_ge_None in Hk.
    rewrite (drop_ge _ (S k)), (drop_ge _ k) by lia. by rewrite !take_nil.
Qed.

Lemma notify_inert e :
  Forall inert (_listeners e) ->
  _notify e = (e, map (fun fn => (fn, e)) (_listeners e)).
Proof.
  intros Hin. unfold _notify. rewrite (notify_from_inert _ _ _ Hin).
  by rewrite drop_0, firstn_all.
Qed.

Lemma notify_calls e :
  Forall inert (_listeners e) ->
  fst (_notify e) = e
  /\ map fst (snd (_notify e)) = _listeners e
  /\ Forall (fun call => snd call = e) (snd (_notify e)).
Proof.
  intros Hin. rewrite (notify_inert e Hin). simpl. split; [done|]. split.
  - rewrite map_map. simpl. apply map_id.
  - apply Forall_forall. intros call Hc.
    apply list_elem_of_fmap in Hc as (fn & -> & _). done.
Qed.

(** X24.  When no listener touches the engine, [check], [uncheck],
    [toggle] and [reset] update [checkedCriteria] as the statement says,
    empty [_satCache] and [_groupSatCache], leave
    [_leafCache] as it was, and call every listener once, in registration
    order, each with the engine in this final state.  [check] stores the
    identity unless it is [__proto__], and [toggle] unchecks an identity
    that is checked or names an inherited property. *)
Theorem mutations_invalidate_and_notify e id :
  Forall inert (_listeners e) ->
  mutation_post e
    (if String.eqb id "__proto__" then checkedCriteria e
     else <[id := true]> (checkedCriteria e)) (check id e)
  /\ mutation_post e (delete id (checkedCriteria e)) (uncheck id e)
  /\ mutation_post e
       (if match checkedCriteria e !! id with
           | Some b => b
           | None => inherited id
           end
        then delete id (checkedCriteria e)
        else if String.eqb id "__proto__" then checkedCriteria e
             else <[id := true]> (checkedCriteria e))
       (toggle id e)
  /\ mutation_post e ∅ (reset e)
  /\ forall fn, _listeners (onChange fn e) = _listeners e ++ [fn].
Proof.
  intros Hin.
  assert (Hpost : forall f,
            mutation_post e (f (checkedCriteria e))
              (_notify (_invalidateCaches (set_checkedCriteria f e)))).
  { intros f. unfold mutation_post.
    destruct (notify_calls (_invalidateCaches (set_checkedCriteria f e)))
      as (H0 & H1 & H2); [exact Hin|].
    rewrite H0. repeat split; try done. }
  assert (Hcheck : mutation_post e
            (if String.eqb id "__proto__" then checkedCriteria e
             else <[id := true]> (checkedCriteria e)) (check id e)).
  { unfold check. destruct (String.eqb id "__proto__").
    - unfold mutation_post.
      destruct (notify_calls (_invalidateCaches e)) as (H0 & H1 & H2);
        [exact Hin|].
      rewrite H0. repeat split; try done.
    - apply (Hpost (insert id true)). }
  split; [exact Hcheck|].
  split; [apply (Hpost (delete id))|].
  split.
  - unfold toggle.
    destruct (match checkedCriteria e !! id with
              | Some b => b
              | None => inherited id
              end).
    + apply (Hpost (delete id)).
    + exact Hcheck.
  - split; [apply (Hpost (fun _ => ∅))|done].
Qed.

Lemma mutations_invalidate_and_notify_witness :
  mutation_post ex_listeners (<["MIX_5" := true]> (checkedCriteria ex_listeners))
    (check "MIX_5" ex_listeners).
Proof.
  apply (mutations_invalidate_and_notify ex_listeners "MIX_5").
  repeat constructor.
Defined.

(** C7.  The claim fails in two ways.  For the identity [__proto__],
    [check] stores nothing, and for an identity that names an inherited
    property, [toggle] unchecks whatever the selection holds: the selection
    is not updated.  And a listener that unsubscribes itself when it is
    notified makes [forEach] pass over the listener registered after it. *)
Theorem mutation_failing_inputs :
  checkedCriteria (fst (check "__proto__" ex_mixed)) !! "__proto__" = None
  /\ checkedCriteria (fst (toggle "toString" ex_mixed)) !! "toString" = None
  /\ _listeners (onChange (Listener 2) (onChange (OneShot 1) ex_mixed))
     = [OneShot 1; Listener 2]
  /\ map fst (snd (check "MIX_5"
                     (onChange (Listener 2) (onChange (OneShot 1) ex_mixed))))
     = [OneShot 1].
Proof. vm_compute. by repeat split. Qed.

(** *** Reads do not depend on the contents of the leaf table *)

Lemma agree_refl e : leaf_cache_ok e -> agree e e.
Proof. by repeat split. Qed.

Lemma agree_children e1 e2 :
  agree e1 e2 -> clauseChildrenMap e1 = clauseChildrenMap e2.
Proof. intros [H _]. unfold indices in H. congruence. Qed.

Lemma agree_roots e1 e2 : agree e1 e2 -> groupRoots e1 = groupRoots e2.
Proof. intros [H _]. unfold indices in H. congruence. Qed.

Lemma sim_ret {A} (a : A) e1 e2 :
  agree e1 e2 -> sim e1 (Some (a, e1)) (Some (a, e2)).
Proof. intros H. simpl. split; [done|]. split; [done|]. by repeat split. Qed.

Lemma sim_frame {A} e1 e1' (r1 r2 : option (A * Engine)) :
  sim e1' r1 r2 -> indices e1' = indices e1 ->
  checkedCriteria e1' = checkedCriteria e1 ->
  _listeners e1' = _listeners e1 -> sim e1 r1 r2.
Proof.
  destruct r1 as [[a1 x1]|], r2 as [[a2 x2]|]; simpl; try done.
  intros (-> & Hag & Hi & Hc & Hl) Hi' Hc' Hl'.
  split; [done|]. split; [exact Hag|]. repeat split; congruence.
Qed.

Lemma sim_set_satCache f e0 e1 e2 (b : bool) :
  sim e0 (Some (b, e1)) (Some (b, e2)) ->
  sim e0 (Some (b, set_satCache f e1)) (Some (b, set_satCache f e2)).
Proof.
  simpl. intros (_ & (Hi & Hc & Hs & Hg & Hl1 & Hl2) & Hfr).
  split; [done|]. split; [|exact Hfr].
  repeat split; try done. simpl. by rewrite Hs.
Qed.

Lemma sim_set_groupSatCache {A B} f e0 e1 e2 (a : A) (b : B) :
  sim e0 (Some (a, e1)) (Some (a, e2)) ->
  sim e0 (Some (b, set_groupSatCache f e1))
         (Some (b, set_groupSatCache f e2)).
Proof.
  simpl. intros (_ & (Hi & Hc & Hs & Hg & Hl1 & Hl2) & Hfr).
  split; [done|]. split; [|exact Hfr].
  repeat split; try done. simpl. by rewrite Hg.
Qed.

Lemma leaf_cache_ok_insert e id :
  leaf_cache_ok e ->
  leaf_cache_ok
    (set_leafCache (insert id match clauseChildrenMap e !! id with
                              | Some _ => false
                              | None => true
                              end) e).
Proof.
  intros H id' b. simpl. rewrite lookup_insert.
  case_decide as Hid; [|by apply H]. subst id'. by intros [= <-].
Qed.

Lemma isLeafCriterion_simulates c :
  simulates (fun e => Some (isLeafCriterion c e)).
Proof.
  intros e1 e2 Hag. pose proof (agree_children _ _ Hag) as Hch.
  destruct Hag as (Hi & Hc & Hs & Hg & Hl1 & Hl2).
  unfold isLeafCriterion.
  destruct (_leafCache e1 !! getCriterionId c) as [b1|] eqn:H1,
           (_leafCache e2 !! getCriterionId c) as [b2|] eqn:H2; simpl.
  - rewrite (Hl1 _ _ H1), (Hl2 _ _ H2), Hch. by repeat split.
  - rewrite (Hl1 _ _ H1), Hch. repeat split; try done.
    by apply leaf_cache_ok_insert.
  - rewrite (Hl2 _ _ H2), Hch. repeat split; try done.
    rewrite <- Hch. by apply leaf_cache_ok_insert.
  - rewrite Hch. repeat split; try done.
    + rewrite <- Hch. by apply leaf_cache_ok_insert.
    + by apply leaf_cache_ok_insert.
Qed.

(** One step of two runs side by side: both stop, or both go on with the
    same value from engines that agree. *)
Ltac sim_step H :=
  match type of H with
  | sim _ ?r1 ?r2 =>
      let a := fresh "a" in
      let x1 := fresh "x1" in
      let x2 := fresh "x2" in
      let Hag := fresh "Hag" in
      let Hfr := fresh "Hfr" in
      destruct r1 as [[a x1]|], r2 as [[? x2]|]; simpl in H; try done;
      destruct H as (<- & Hag & Hfr)
  end.

Lemma sim_frame' {A} e1 e1' (r1 r2 : option (A * Engine)) :
  sim e1' r1 r2 ->
  indices e1' = indices e1 /\ checkedCriteria e1' = checkedCriteria e1
  /\ _listeners e1' = _listeners e1 ->
  sim e1 r1 r2.
Proof. intros H (? & ? & ?). by apply (sim_frame e1 e1'). Qed.

Lemma sim_intro {A} (a : A) e1 x1 x2 :
  agree x1 x2 ->
  indices x1 = indices e1 /\ checkedCriteria x1 = checkedCriteria e1
  /\ _listeners x1 = _listeners e1 ->
  sim e1 (Some (a, x1)) (Some (a, x2)).
Proof. intros Hag Hfr. simpl. by split. Qed.

Lemma frame_trans e1 x1 y1 :
  indices x1 = indices e1 /\ checkedCriteria x1 = checkedCriteria e1
  /\ _listeners x1 = _listeners e1 ->
  indices y1 = indices x1 /\ checkedCriteria y1 = checkedCriteria x1
  /\ _listeners y1 = _listeners x1 ->
  indices y1 = indices e1 /\ checkedCriteria y1 = checkedCriteria e1
  /\ _listeners y1 = _listeners e1.
Proof. intros (? & ? & ?) (? & ? & ?). repeat split; congruence. Qed.

Lemma scan_until_simulates stop f xs :
  (forall x, simulates (f x)) -> simulates (scan_until stop f xs).
Proof.
  intros Hf. induction xs as [|x xs IH]; intros e1 e2 Hag; simpl.
  - by apply sim_ret.
  - pose proof (Hf x e1 e2 Hag) as H. sim_step H.
    destruct (Bool.eqb a stop).
    + by apply sim_intro.
    + apply (sim_frame' e1 x1); [by apply IH|done].
Qed.

Lemma map_runs_simulates f runs :
  (forall x, simulates (f x)) -> simulates (map_runs f runs).
Proof.
  intros Hf. induction runs as [|run runs IH]; intros e1 e2 Hag; simpl.
  - by apply sim_ret.
  - assert (H : sim e1
        (if String.eqb (r_logic run) "AND" then every_st f (r_items run) e1
         else some_st f (r_items run) e1)
        (if String.eqb (r_logic run) "AND" then every_st f (r_items run) e2
         else some_st f (r_items run) e2)).
    { destruct (String.eqb (r_logic run) "AND");
        by apply scan_until_simulates. }
    sim_step H.
    pose proof (IH x1 x2 Hag0) as H. sim_step H.
    apply sim_intro; [done|]. by apply (frame_trans e1 x1).
Qed.

Lemma evaluateSiblingLogic_with_simulates f siblings parentLogic :
  (forall x, simulates (f x)) ->
  simulates (evaluateSiblingLogic_with f siblings parentLogic).
Proof.
  intros Hf e1 e2 Hag. unfold evaluateSiblingLogic_with.
  destruct (uniform_logic siblings parentLogic).
  - destruct (String.eqb parentLogic "AND"); by apply scan_until_simulates.
  - pose proof (map_runs_simulates f (group_runs siblings) Hf e1 e2 Hag) as H.
    sim_step H. by destruct (String.eqb parentLogic "AND"); apply sim_intro.
Qed.

Lemma isClauseSatisfied_simulates fuel : forall c,
  simulates (isClauseSatisfied fuel c).
Proof.
  induction fuel as [|fuel IH]; intros c e1 e2 Hag; simpl; [done|].
  pose proof Hag as (Hi & Hc & Hs & Hg & Hl1 & Hl2).
  rewrite <- Hs.
  destruct (_satCache e1 !! getCriterionId c) as [b0|]; [by apply sim_ret|].
  pose proof (isLeafCriterion_simulates c e1 e2 Hag) as H. simpl in H.
  destruct (isLeafCriterion c e1) as [leaf x1], (isLeafCriterion c e2) as [? x2].
  destruct H as (<- & Hag1 & Hfr1).
  assert (Hch : getClauseChildren c x1 = getClauseChildren c x2)
    by (unfold getClauseChildren; by rewrite (agree_children _ _ Hag1)).
  assert (Hck : checkedCriteria x1 = checkedCriteria x2) by apply Hag1.
  destruct leaf.
  - rewrite <- Hck. by apply sim_set_satCache, sim_intro.
  - rewrite <- Hch. destruct (0 <? length (getClauseChildren c x1))%nat.
    + pose proof (evaluateSiblingLogic_with_simulates (isClauseSatisfied fuel)
                    (getClauseChildren c x1) (logic c) IH x1 x2 Hag1) as H.
      sim_step H. apply sim_set_satCache, sim_intro; [done|].
      by apply (frame_trans e1 x1).
    + by apply sim_set_satCache, sim_intro.
Qed.

Lemma agree_fields e1 e2 :
  agree e1 e2 ->
  allCriteria e1 = allCriteria e2 /\ codeNames e1 = codeNames e2
  /\ criteriaByCode e1 = criteriaByCode e2
  /\ clauseChildrenMap e1 = clauseChildrenMap e2
  /\ groupRoots e1 = groupRoots e2
  /\ groupedCriteria e1 = groupedCriteria e2
  /\ children_by_parent e1 = children_by_parent e2
  /\ checkedCriteria e1 = checkedCriteria e2.
Proof.
  intros (Hi & Hc & _). unfold indices in Hi.
  injection Hi as H1 H2 H3 H4 H5 H6 H7 H8. by repeat split.
Qed.

Lemma isGroupSatisfied_simulates fuel code :
  simulates (isGroupSatisfied fuel code).
Proof.
  intros e1 e2 Hag. unfold isGroupSatisfied.
  pose proof Hag as (Hi & Hc & Hs & Hg & Hl1 & Hl2).
  rewrite <- Hg, <- (agree_roots _ _ Hag).
  destruct (_groupSatCache e1 !! code) as [b0|]; [by apply sim_ret|].
  destruct (inherited code); [by apply sim_ret|].
  destruct (oget (groupRoots e1) code) as [root|].
  - pose proof (isClauseSatisfied_simulates fuel root e1 e2 Hag) as H.
    sim_step H. by apply (sim_set_groupSatCache _ _ _ _ a), sim_intro.
  - by apply (sim_set_groupSatCache _ _ _ _ false), sim_ret.
Qed.

Lemma findCurrentLevel_loop_simulates fuel codes : forall deepest,
  simulates (findCurrentLevel_loop fuel codes deepest).
Proof.
  induction codes as [|code codes IH]; intros deepest e1 e2 Hag; simpl.
  - by apply sim_ret.
  - pose proof (isGroupSatisfied_simulates fuel code e1 e2 Hag) as H.
    sim_step H. apply (sim_frame' e1 x1); [by apply IH|done].
Qed.

Lemma findCurrentLevel_simulates fuel : simulates (findCurrentLevel fuel).
Proof.
  intros e1 e2 Hag. unfold findCurrentLevel.
  rewrite <- (agree_roots _ _ Hag). by apply findCurrentLevel_loop_simulates.
Qed.

Lemma getVisibleGroups_simulates fuel : simulates (getVisibleGroups fuel).
Proof.
  intros e1 e2 Hag. unfold getVisibleGroups.
  pose proof (findCurrentLevel_simulates fuel e1 e2 Hag) as H. sim_step H.
  destruct (agree_fields _ _ Hag0) as (_ & _ & _ & _ & _ & Hgc & Hbp & _).
  rewrite <- Hgc, <- Hbp.
  by destruct (code_truthy a); apply sim_intro.
Qed.

Lemma getClassificationPath_simulates fuel :
  simulates (getClassificationPath fuel).
Proof.
  intros e1 e2 Hag. unfold getClassificationPath.
  pose proof (findCurrentLevel_simulates fuel e1 e2 Hag) as H. sim_step H.
  destruct (agree_fields _ _ Hag0) as (_ & Hcn & _).
  unfold nameOf. rewrite <- Hcn.
  by destruct (code_truthy a); apply sim_intro.
Qed.

Lemma getCurrentClassification_simulates fuel :
  simulates (getCurrentClassification fuel).
Proof.
  intros e1 e2 Hag. unfold getCurrentClassification.
  pose proof (findCurrentLevel_simulates fuel e1 e2 Hag) as H. sim_step H.
  destruct (agree_fields _ _ Hag0) as (_ & Hcn & _).
  unfold nameOf. rewrite <- Hcn.
  by destruct (code_truthy a); apply sim_intro.
Qed.

Lemma getClassificationLevel_simulates fuel :
  simulates (getClassificationLevel fuel).
Proof.
  intros e1 e2 Hag. unfold getClassificationLevel.
  pose proof (findCurrentLevel_simulates fuel e1 e2 Hag) as H. sim_step H.
  by destruct (code_truthy a); apply sim_intro.
Qed.

Lemma getClassificationBreadcrumb_simulates fuel :
  simulates (getClassificationBreadcrumb fuel).
Proof.
  intros e1 e2 Hag. unfold getClassificationBreadcrumb.
  pose proof (findCurrentLevel_simulates fuel e1 e2 Hag) as H. sim_step H.
  destruct (agree_fields _ _ Hag0) as (_ & Hcn & _).
  assert (Hn : nameOf x1 = nameOf x2) by (unfold nameOf; by rewrite Hcn).
  rewrite <- Hn.
  by destruct (code_truthy a); apply sim_intro.
Qed.

Lemma checkedLeaves_filter_simulates cs :
  simulates (fun e => Some (checkedLeaves_filter cs e)).
Proof.
  induction cs as [|c cs IH]; intros e1 e2 Hag; simpl.
  - by apply sim_ret.
  - pose proof (isLeafCriterion_simulates c e1 e2 Hag) as H. simpl in H.
    destruct (isLeafCriterion c e1) as [leaf x1],
             (isLeafCriterion c e2) as [? x2].
    destruct H as (<- & Hag1 & Hfr1).
    pose proof (IH x1 x2 Hag1) as H. simpl in H.
    destruct (checkedLeaves_filter cs x1) as [kept y1],
             (checkedLeaves_filter cs x2) as [? y2].
    destruct H as (<- & Hag2 & Hfr2).
    destruct (agree_fields _ _ Hag1) as (_ & _ & _ & _ & _ & _ & _ & Hck).
    rewrite <- Hck. apply sim_intro; [done|]. by apply (frame_trans e1 x1).
Qed.

Lemma getCheckedLeaves_simulates localeCompare :
  simulates (fun e => Some (getCheckedLeaves localeCompare e)).
Proof.
  intros e1 e2 Hag. unfold getCheckedLeaves.
  destruct (agree_fields _ _ Hag) as (Hall & _).
  rewrite <- Hall.
  pose proof (checkedLeaves_filter_simulates (allCriteria e1) e1 e2 Hag) as H.
  simpl in H.
  destruct (checkedLeaves_filter (allCriteria e1) e1) as [kept y1],
           (checkedLeaves_filter (allCriteria e1) e2) as [? y2].
  destruct H as (<- & Hag2 & Hfr2). by apply sim_intro.
Qed.

Lemma sim_answer {A} (wrap : A -> Answer) e1 r1 r2 :
  sim e1 r1 r2 -> sim e1 (answer wrap r1) (answer wrap r2).
Proof.
  destruct r1 as [[a1 x1]|], r2 as [[a2 x2]|]; simpl; try done.
  by intros (-> & ?).
Qed.

Lemma runRead_simulates localeCompare fuel r :
  simulates (runRead localeCompare fuel r).
Proof.
  intros e1 e2 Hag.
  destruct (agree_fields _ _ Hag)
    as (Hall & Hcn & Hbc & Hch & Hgr & Hgc & Hbp & Hck).
  destruct r; cbv [runRead].
  - unfold getCriterionByCode. rewrite <- Hbc. by apply sim_ret.
  - unfold getDirectChildren, getCriterionByCode. rewrite <- Hbc, <- Hbp.
    by apply sim_ret.
  - unfold getParent, getCriterionByCode. rewrite <- Hbc. by apply sim_ret.
  - by apply sim_answer, isLeafCriterion_simulates.
  - unfold getClauseChildren. rewrite <- Hch. by apply sim_ret.
  - by apply sim_answer, isClauseSatisfied_simulates.
  - apply sim_answer, evaluateSiblingLogic_with_simulates; [|done].
    apply isClauseSatisfied_simulates.
  - by apply sim_answer, isGroupSatisfied_simulates.
  - by apply sim_answer, findCurrentLevel_simulates.
  - by apply sim_answer, getVisibleGroups_simulates.
  - by apply sim_answer, getCheckedLeaves_simulates.
  - by apply sim_answer, getClassificationPath_simulates.
  - by apply sim_answer, getCurrentClassification_simulates.
  - by apply sim_answer, getClassificationLevel_simulates.
  - by apply sim_answer, getClassificationBreadcrumb_simulates.
Qed.

(** *** What holds of every state the engine goes through *)

Lemma oget_oreplace {V} (m : JSObj V) k v k' :
  existsb (String.eqb k) (okeys m) = true ->
  oget (oreplace m k v) k' = if String.eqb k k' then Some v else oget m k'.
Proof.
  unfold oget. induction m as [|[k0 v0] m IH]; simpl; [done|].
  rewrite (String.eqb_sym k k0).
  destruct (String.eqb k0 k) eqn:Hk0; simpl.
  - intros _. apply String.eqb_eq in Hk0 as ->.
    by destruct (String.eqb k k').
  - intros Hex. destruct (String.eqb k0 k') eqn:Hk0'; simpl; [|by apply IH].
    apply String.eqb_eq in Hk0' as ->. by rewrite String.eqb_sym, Hk0.
Qed.

Lemma oget_absent {V} (m : JSObj V) k :
  existsb (String.eqb k) (okeys m) = false -> oget m k = None.
Proof.
  unfold oget. induction m as [|[k0 v0] m IH]; simpl; [done|].
  rewrite (String.eqb_sym k k0).
  destruct (String.eqb k0 k); simpl; [done|]. apply IH.
Qed.

Lemma oget_oinsert {V} (m : JSObj V) k v k' :
  existsb (String.eqb k) (okeys m) = false ->
  oget (oinsert m k v) k' = if String.eqb k k' then Some v else oget m k'.
Proof.
  intros Hex. destruct (String.eqb k k') eqn:Hkk'.
  - apply String.eqb_eq in Hkk' as <-.
    induction m as [|[k0 v0] m IH]; simpl.
    + unfold oget. simpl. by rewrite String.eqb_refl.
    + simpl in Hex. apply orb_false_iff in Hex as [Hk0 Hex].
      destruct (key_before k k0).
      * unfold oget. simpl. by rewrite String.eqb_refl.
      * unfold oget in *. simpl. rewrite String.eqb_sym, Hk0. by apply IH.
  - clear Hex. induction m as [|[k0 v0] m IH]; simpl.
    + unfold oget. simpl. by rewrite Hkk'.
    + destruct (key_before k k0).
      * unfold oget. simpl. by rewrite Hkk'.
      * unfold oget in *. simpl. destruct (String.eqb k0 k'); [done|]. exact IH.
Qed.

Lemma oget_oset {V} (m : JSObj V) k v k' :
  oget (oset m k v) k' = if String.eqb k k' then Some v else oget m k'.
Proof.
  unfold oset. destruct (existsb (String.eqb k) (okeys m)) eqn:Hex.
  - by apply oget_oreplace.
  - by apply oget_oinsert.
Qed.

Lemma push_by_code_plain m c m1 :
  push_by_code m c = Some m1 ->
  m1 = push_plain m c
  /\ (is_Some (oget m (crit c)) \/ inherited (crit c) = false).
Proof.
  unfold push_by_code, push_plain.
  destruct (oget m (crit c)) as [g|] eqn:Hg; simpl.
  - intros [= <-]. split; [done|]. left. by eexists.
  - destruct (inherited (crit c)); [done|]. intros [= <-]. by split; [|right].
Qed.

Lemma push_plain_keeps m c x :
  is_Some (oget (push_plain m c) (crit x)) \/ inherited (crit x) = false ->
  is_Some (oget m (crit c)) \/ inherited (crit c) = false ->
  is_Some (oget m (crit x)) \/ inherited (crit x) = false.
Proof.
  unfold push_plain. rewrite oget_oset.
  destruct (String.eqb (crit c) (crit x)) eqn:Hcx; [|done].
  apply String.eqb_eq in Hcx. rewrite <- Hcx. by intros _ H.
Qed.

Lemma forEach_push_plain cs : forall m m',
  forEach_throwing push_by_code cs m = Some m' ->
  m' = fold_left push_plain cs m
  /\ Forall (fun c => is_Some (oget m (crit c)) \/ inherited (crit c) = false)
       cs.
Proof.
  induction cs as [|c cs IH]; intros m m'; simpl.
  - by intros [= <-].
  - destruct (push_by_code m c) as [m1|] eqn:Hpush; [|done].
    apply push_by_code_plain in Hpush as [-> Hc].
    intros H. destruct (IH _ _ H) as [-> Hall]. split; [done|].
    constructor; [done|].
    eapply Forall_impl; [exact Hall|]. intros x Hx. simpl in Hx.
    by apply (push_plain_keeps m c x).
Qed.

Lemma create_built localeCompare data e :
  create localeCompare data = Some e -> e = built localeCompare data.
Proof.
  destruct data as [d|]; simpl; [|by intros [= <-]].
  unfold buildIndices.
  destruct (forEach_throwing push_by_code (allCriteria (loaded d)) [])
    as [byCode0|] eqn:Hpush; [|done].
  intros [= <-]. by destruct (forEach_push_plain _ _ _ Hpush) as [-> _].
Qed.

Lemma create_plain_codes localeCompare d e :
  create localeCompare (Some d) = Some e ->
  Forall (fun c => inherited (crit c) = false) (allCriteria (loaded d)).
Proof.
  simpl. unfold buildIndices.
  destruct (forEach_throwing push_by_code (allCriteria (loaded d)) [])
    as [byCode0|] eqn:Hpush; [|done].
  intros _. destruct (forEach_push_plain _ _ _ Hpush) as [_ Hall].
  eapply Forall_impl; [exact Hall|]. by intros x [[g Hg]|Hx].
Qed.

Lemma forEach_push_returns cs : forall m,
  Forall (fun c => inherited (crit c) = false) cs ->
  forEach_throwing push_by_code cs m = Some (fold_left push_plain cs m).
Proof.
  induction cs as [|c cs IH]; intros m Hall; simpl; [done|].
  apply Forall_cons in Hall as [Hc Hall].
  assert (push_by_code m c = Some (push_plain m c)) as ->.
  { unfold push_by_code, push_plain. rewrite Hc.
    by destruct (oget m (crit c)). }
  by apply IH.
Qed.

Lemma create_returns localeCompare d :
  Forall (fun c => inherited (crit c) = false) (allCriteria (loaded d)) ->
  create localeCompare (Some d) = Some (built localeCompare (Some d)).
Proof.
  intros Hall. simpl. unfold buildIndices.
  by rewrite (forEach_push_returns _ _ Hall).
Qed.

Lemma built_fresh localeCompare data :
  checkedCriteria (built localeCompare data) = ∅
  /\ _satCache (built localeCompare data) = ∅
  /\ _groupSatCache (built localeCompare data) = ∅
  /\ _leafCache (built localeCompare data) = ∅
  /\ _listeners (built localeCompare data) = [].
Proof. by destruct data. Qed.

Lemma check_selection id e :
  checkedCriteria (fst (check id e))
  = if String.eqb id "__proto__" then checkedCriteria e
    else <[id := true]> (checkedCriteria e).
Proof.
  destruct (check_fst id e) as [l ->]. simpl.
  by destruct (String.eqb id "__proto__").
Qed.

Lemma uncheck_selection id e :
  checkedCriteria (fst (uncheck id e)) = delete id (checkedCriteria e).
Proof. by destruct (uncheck_fst id e) as [l ->]. Qed.

Lemma reset_selection e : checkedCriteria (fst (reset e)) = ∅.
Proof. by destruct (reset_fst e) as [l ->]. Qed.

Lemma toggle_selection id e :
  checkedCriteria (fst (toggle id e))
  = if match checkedCriteria e !! id with
       | Some b => b
       | None => inherited id
       end
    then delete id (checkedCriteria e)
    else if String.eqb id "__proto__" then checkedCriteria e
         else <[id := true]> (checkedCriteria e).
Proof.
  unfold toggle.
  destruct (match checkedCriteria e !! id with
            | Some b => b
            | None => inherited id
            end).
  - apply uncheck_selection.
  - apply check_selection.
Qed.

Lemma mutated_invariant f l e e0 :
  indices e = indices e0 /\ leaf_cache_ok e ->
  indices (set_listeners (fun _ => l)
             (_invalidateCaches (set_checkedCriteria f e))) = indices e0
  /\ leaf_cache_ok (set_listeners (fun _ => l)
                      (_invalidateCaches (set_checkedCriteria f e))).
Proof. by intros [? ?]. Qed.

Lemma reachable_invariant localeCompare data e :
  Reachable localeCompare data e ->
  indices e = indices (built localeCompare data)
  /\ leaf_cache_ok e /\ checked_all_true e.
Proof.
  induction 1 as [e Hcreate|e id _ (Hi & Hl & Hc)|e id _ (Hi & Hl & Hc)
                  |e id _ (Hi & Hl & Hc)|e _ (Hi & Hl & Hc)
                  |e fn _ IH|e fn _ IH|e fuel r a e' _ (Hi & Hl & Hc) Hrun].
  - apply create_built in Hcreate as ->.
    destruct (built_fresh localeCompare data) as (Hck & _ & _ & Hlf & _).
    split; [done|]. split.
    + intros id b. by rewrite Hlf, lookup_empty.
    + intros id b. by rewrite Hck, lookup_empty.
  - assert (Hsel := check_selection id e).
    destruct (check_fst id e) as [l Hl']. rewrite Hl' in *.
    destruct (mutated_invariant
                (if String.eqb id "__proto__" then (fun ck => ck)
                 else insert id true) l e _ (conj Hi Hl)) as [? ?].
    split; [done|]. split; [done|].
    intros id' b. rewrite Hsel.
    destruct (String.eqb id "__proto__"); [apply Hc|].
    rewrite lookup_insert. case_decide; [by intros [= <-]|by apply Hc].
  - assert (Hsel := uncheck_selection id e).
    destruct (uncheck_fst id e) as [l Hl']. rewrite Hl' in *.
    destruct (mutated_invariant (delete id) l e _ (conj Hi Hl)) as [? ?].
    split; [done|]. split; [done|].
    intros id' b. rewrite Hsel, lookup_delete.
    case_decide; [done|by apply Hc].
  - assert (Hsel := toggle_selection id e).
    destruct (toggle_fst id e) as (f & l & Hl'). rewrite Hl' in *.
    destruct (mutated_invariant f l e _ (conj Hi Hl)) as [? ?].
    split; [done|]. split; [done|].
    intros id' b. rewrite Hsel.
    destruct (match checkedCriteria e !! id with
              | Some b0 => b0
              | None => inherited id
              end).
    + rewrite lookup_delete. case_decide; [done|by apply Hc].
    + destruct (String.eqb id "__proto__"); [apply Hc|].
      rewrite lookup_insert. case_decide; [by intros [= <-]|by apply Hc].
  - assert (Hsel := reset_selection e).
    destruct (reset_fst e) as [l Hl']. rewrite Hl' in *.
    destruct (mutated_invariant (fun _ => ∅) l e _ (conj Hi Hl)) as [? ?].
    split; [done|]. split; [done|].
    intros id' b. by rewrite Hsel, lookup_empty.
  - exact IH.
  - exact IH.
  - pose proof (runRead_simulates localeCompare fuel r e e (agree_refl e Hl))
      as Hsim.
    rewrite Hrun in Hsim. simpl in Hsim.
    destruct Hsim as (_ & Hag & Hi' & Hc' & _).
    split; [congruence|]. split; [apply Hag|].
    intros id b. rewrite Hc'. apply Hc.
Qed.

(** X25.  In every state of an engine: [check] twice gives the selection
    of [check] once; [toggle] twice gives back the selection, for an
    identity that names no inherited property or is not checked; and after
    [reset] every read answers as it does on the engine freshly created
    from the same data. *)
Theorem selection_idempotence_and_reset localeCompare data e0 e id :
  create localeCompare data = Some e0 ->
  Reachable localeCompare data e ->
  checkedCriteria (fst (check id (fst (check id e))))
  = checkedCriteria (fst (check id e))
  /\ (inherited id = false \/ checkedCriteria e !! id = None ->
      checkedCriteria (fst (toggle id (fst (toggle id e)))) = checkedCriteria e)
  /\ forall fuel r,
       fst <$> runRead localeCompare fuel r (fst (reset e))
       = fst <$> runRead localeCompare fuel r e0.
Proof.
  intros Hcreate Hreach.
  apply create_built in Hcreate as ->.
  destruct (reachable_invariant _ _ _ Hreach) as (Hi & Hl & Hc).
  split; [|split].
  - rewrite !check_selection.
    destruct (String.eqb id "__proto__"); [done|]. apply insert_insert_eq.
  - intros Hplain. rewrite !toggle_selection.
    destruct (checkedCriteria e !! id) as [b|] eqn:Hid.
    + pose proof (Hc id b Hid) as ->.
      destruct Hplain as [Hplain|Hnone]; [|congruence].
      rewrite lookup_delete_eq, Hplain.
      assert (String.eqb id "__proto__" = false) as ->.
      { destruct (String.eqb_spec id "__proto__") as [->|]; [done|done]. }
      rewrite insert_delete_eq. by apply insert_id.
    + destruct (inherited id) eqn:Hin.
      * rewrite (delete_id _ _ Hid), Hid. by rewrite delete_id.
      * assert (String.eqb id "__proto__" = false) as ->.
        { destruct (String.eqb_spec id "__proto__") as [->|]; [done|done]. }
        rewrite lookup_insert_eq, delete_insert_eq. by apply delete_id.
  - intros fuel r.
    destruct (built_fresh localeCompare data) as (Hck & Hs & Hg & Hlf & _).
    assert (Hag : agree (fst (reset e)) (built localeCompare data)).
    { assert (Hsel := reset_selection e).
      destruct (reset_fst e) as [l Hl']. rewrite Hl' in *.
      split; [exact Hi|]. split; [by rewrite Hck|].
      split; [by rewrite Hs|]. split; [by rewrite Hg|]. split; [exact Hl|].
      intros id' b. by rewrite Hlf, lookup_empty. }
    pose proof (runRead_simulates localeCompare fuel r _ _ Hag) as Hsim.
    destruct (runRead localeCompare fuel r (fst (reset e))) as [[a1 x1]|],
             (runRead localeCompare fuel r (built localeCompare data))
               as [[a2 x2]|]; simpl in Hsim; try done.
    by destruct Hsim as (-> & _).
Qed.

Lemma selection_idempotence_and_reset_witness :
  checkedCriteria (fst (check "P_3" (fst (check "P_3" ex_uniform))))
  = checkedCriteria (fst (check "P_3" ex_uniform))
  /\ checkedCriteria (fst (toggle "P_2" (fst (toggle "P_2" ex_uniform))))
     = checkedCriteria ex_uniform
  /\ (fst <$> runRead codeunit_compare 3 (RIsGroupSatisfied "P")
                (fst (reset ex_uniform)))
     = (fst <$> runRead codeunit_compare 3 (RIsGroupSatisfied "P")
                  (engine_of
                     (create codeunit_compare
                        (data_of (ex_uniform_parent :: ex_uniform_children))))).
Proof.
  assert (Hreach : Reachable codeunit_compare
                     (data_of (ex_uniform_parent :: ex_uniform_children))
                     ex_uniform)
    by (apply Reach_check, Reach_create; reflexivity).
  destruct (selection_idempotence_and_reset codeunit_compare
              (data_of (ex_uniform_parent :: ex_uniform_children))
              (engine_of
                 (create codeunit_compare
                    (data_of (ex_uniform_parent :: ex_uniform_children))))
              ex_uniform "P_2" eq_refl Hreach) as (_ & H2 & H3).
  split; [|split; [apply H2; by left|apply H3]].
  apply (selection_idempotence_and_reset codeunit_compare
           (data_of (ex_uniform_parent :: ex_uniform_children))
           (engine_of
              (create codeunit_compare
                 (data_of (ex_uniform_parent :: ex_uniform_children))))
           ex_uniform "P_3" eq_refl Hreach).
Defined.

(** C8.  The claim fails for an identity that names an inherited property
    and is checked: the first [toggle] unchecks it, and the second, reading
    the inherited value, unchecks again instead of checking. *)
Theorem toggle_twice_inherited :
  checkedCriteria (fst (check "toString" ex_uniform)) !! "toString" = Some true
  /\ checkedCriteria
       (fst (toggle "toString"
               (fst (toggle "toString" (fst (check "toString" ex_uniform))))))
     !! "toString" = None.
Proof. vm_compute. by split. Qed.

(** ** Properties of the index builder *)

Lemma members_app code cs c :
  members code (cs ++ [c])
  = members code cs ++ (if String.eqb (crit c) code then [c] else []).
Proof. unfold members. by rewrite List.filter_app. Qed.

Lemma push_plain_groups m cs c :
  groups_of m cs -> groups_of (push_plain m c) (cs ++ [c]).
Proof.
  intros H code. unfold push_plain. rewrite oget_oset, members_app.
  destruct (String.eqb (crit c) code) eqn:Hc.
  - apply String.eqb_eq in Hc as <-. rewrite (H (crit c)).
    by destruct (members (crit c) cs).
  - rewrite app_nil_r. apply H.
Qed.

Lemma fold_push_plain_groups cs : forall m cs0,
  groups_of m cs0 -> groups_of (fold_left push_plain cs m) (cs0 ++ cs).
Proof.
  induction cs as [|c cs IH]; intros m cs0 H; simpl.
  - by rewrite app_nil_r.
  - rewrite (cons_middle c cs0 cs), app_assoc.
    by apply IH, push_plain_groups.
Qed.

Lemma inject_outcome_groups st o :
  groups_of (snd st) (fst st) ->
  groups_of (snd (inject_outcome st o)) (fst (inject_outcome st o)).
Proof.
  intros H. unfold inject_outcome. destruct o as [code outcome].
  destruct (oget (snd st) code) eqn:Hcode; [done|].
  destruct (inherited code); [done|]. simpl.
  intros code'. rewrite oget_oset, members_app. simpl.
  destruct (String.eqb code code') eqn:Hc.
  - apply String.eqb_eq in Hc as <-.
    specialize (H code). rewrite Hcode in H.
    by destruct (members code (fst st)).
  - rewrite app_nil_r. apply H.
Qed.

Lemma fold_inject_outcome_groups outs : forall st,
  groups_of (snd st) (fst st) ->
  groups_of (snd (fold_left inject_outcome outs st))
            (fst (fold_left inject_outcome outs st)).
Proof.
  induction outs as [|o outs IH]; intros st H; simpl; [done|].
  by apply IH, inject_outcome_groups.
Qed.

Lemma built_groups localeCompare data :
  groups_of (criteriaByCode (built localeCompare data))
            (allCriteria (built localeCompare data)).
Proof.
  destruct data as [d|]; [|done]. simpl.
  apply fold_inject_outcome_groups. simpl.
  apply (fold_push_plain_groups _ [] []). done.
Qed.

Lemma create_groups localeCompare data e :
  create localeCompare data = Some e ->
  groups_of (criteriaByCode e) (allCriteria e).
Proof. intros ->%create_built. apply built_groups. Qed.

(** The walk up the prefixes ends within the length of the code: it stops
    at an existing code or at the empty string. *)
Lemma slice_last_length s :
  String.length (slice_last s) = (String.length s - 1)%nat.
Proof. unfold slice_last. apply substring_0_length. lia. Qed.

Lemma nearest_ancestor_exit allCodes : forall n ancestor,
  (String.length ancestor <= n)%nat ->
  String.length (nearest_ancestor n allCodes ancestor) = 0%nat
  \/ existsb (String.eqb (nearest_ancestor n allCodes ancestor)) allCodes
     = true.
Proof.
  induction n as [|n IH]; intros ancestor Hlen; simpl.
  - left. lia.
  - destruct (0 <? String.length ancestor)%nat eqn:Hpos; simpl.
    + destruct (existsb (String.eqb ancestor) allCodes) eqn:Hex; simpl.
      * by right.
      * apply IH. rewrite slice_last_length. lia.
    + apply Nat.ltb_ge in Hpos. left. lia.
Qed.

(** C10.  [getParent] returns [null] for a code of length at most 1;
    otherwise the first criterion whose code is the input code without its
    last character, or [null] when there is none.  It does not look further
    up: with groups A and AAA only, [getParent("AAA")] is [null] although
    [children_by_parent] lists AAA under A. *)
Theorem getParent_one_step localeCompare data e code :
  create localeCompare data = Some e ->
  getParent code e
  = (if (String.length code <=? 1)%nat then None
     else head (members (slice_last code) (allCriteria e)))
  /\ getParent "AAA" ex_gap = None
  /\ children_by_parent ex_gap !! "A" = Some ["AAA"].
Proof.
  intros Hcreate. split; [|by split].
  unfold getParent, getCriterionByCode.
  destruct (String.length code <=? 1)%nat; [done|].
  rewrite (create_groups localeCompare data e Hcreate (slice_last code)).
  by destruct (members _ _).
Qed.

Lemma getParent_one_step_witness :
  let e := engine_of
             (create codeunit_compare
                (data_of [input_criterion "A" 1 None "OR";
                          input_criterion "AA" 1 None "AND"])) in
  getParent "AA" e = head (members "A" (allCriteria e))
  /\ getParent "AAA" ex_gap = None
  /\ children_by_parent ex_gap !! "A" = Some ["AAA"].
Proof.
  apply (getParent_one_step codeunit_compare
           (data_of [input_criterion "A" 1 None "OR";
                     input_criterion "AA" 1 None "AND"]) _ "AA").
  reflexivity.
Defined.

(** *** Groups without explicit root *)

Lemma append_cons a s t : String a s +:+ t = String a (s +:+ t).
Proof. reflexivity. Qed.

Lemma length_append a b :
  String.length (a +:+ b) = (String.length a + String.length b)%nat.
Proof.
  induction a as [|x a IH]; [done|].
  rewrite append_cons. simpl. by rewrite IH.
Qed.

Lemma append_inj_r s1 s2 t : s1 +:+ t = s2 +:+ t -> s1 = s2.
Proof.
  revert s2. induction s1 as [|a s1 IH]; intros [|b s2] H.
  - done.
  - apply (f_equal String.length) in H. rewrite !length_append in H.
    simpl in H. lia.
  - apply (f_equal String.length) in H. rewrite !length_append in H.
    simpl in H. lia.
  - rewrite !append_cons in H. injection H as -> H. by rewrite (IH s2 H).
Qed.

Lemma synthetic_root_id code topLevel :
  getCriterionId (synthetic_root code topLevel) = code +:+ "_0".
Proof. reflexivity. Qed.

Lemma fold_explicit_root_none code all : forall roots,
  (forall q, q ∈ all -> crit q = code -> has_parent_ref q <> None) ->
  oget (fold_left explicit_root all roots) code = oget roots code.
Proof.
  induction all as [|c all IH]; intros roots H; simpl; [done|].
  rewrite IH by (intros q Hq; apply H; by right).
  unfold explicit_root.
  destruct (has_parent_ref c) eqn:Hp; [done|].
  destruct (oget roots (crit c)); [done|].
  rewrite oget_oset. destruct (String.eqb (crit c) code) eqn:Hc; [|done].
  apply String.eqb_eq in Hc. by destruct (H c ltac:(by left) Hc).
Qed.

Lemma fold_inject_outcome_keeps code g outs : forall st,
  oget (snd st) code = Some g ->
  oget (snd (fold_left inject_outcome outs st)) code = Some g
  /\ forall q, q ∈ fst (fold_left inject_outcome outs st) ->
               crit q = code -> q ∈ fst st.
Proof.
  induction outs as [|[k o] outs IH]; intros st Hg; simpl; [done|].
  destruct (oget (snd st) k) eqn:Hk; [by apply IH|].
  destruct (inherited k); [by apply IH|].
  destruct (IH (fst st ++ [ {| crit := k; clause := 1; parent_clause := None;
                                logic := js_or (o_logic o) "FIRST";
                                content := js_or (o_content o) k;
                                depth := 0; origin := FromOutcome |} ],
                  oset (snd st) k
                    [ {| crit := k; clause := 1; parent_clause := None;
                         logic := js_or (o_logic o) "FIRST";
                         content := js_or (o_content o) k;
                         depth := 0; origin := FromOutcome |} ]))
      as [H1 H2].
    + simpl. rewrite oget_oset.
      destruct (String.eqb k code) eqn:Hkc; [|done].
      apply String.eqb_eq in Hkc as ->. congruence.
    + split; [exact H1|]. intros q Hq Hc.
      specialize (H2 q Hq Hc). simpl in H2.
      apply elem_of_app in H2 as [H2|H2]; [done|].
      apply list_elem_of_singleton in H2 as ->. simpl in Hc. subst k.
      congruence.
Qed.

Lemma fold_synthetic_keeps code r cs entries : forall st,
  oget (fst st) code = Some r -> snd st !! (code +:+ "_0") = Some cs ->
  oget (fst (fold_left add_synthetic_root entries st)) code = Some r
  /\ snd (fold_left add_synthetic_root entries st) !! (code +:+ "_0") = Some cs.
Proof.
  induction entries as [|[k items] entries IH]; intros st Hr Hcs; simpl;
    [done|].
  destruct (oget (fst st) k) eqn:Hk; [by apply IH|].
  assert (Hne : k <> code) by congruence.
  apply IH; simpl.
  - rewrite oget_oset. destruct (String.eqb k code) eqn:Hkc; [|done].
    by apply String.eqb_eq in Hkc.
  - rewrite synthetic_root_id, lookup_insert_ne; [done|].
    intros Heq. by apply append_inj_r in Heq.
Qed.

Lemma fold_synthetic_adds code items entries : forall st,
  oget entries code = Some items -> oget (fst st) code = None ->
  oget (fst (fold_left add_synthetic_root entries st)) code
  = Some (synthetic_root code (top_level items))
  /\ snd (fold_left add_synthetic_root entries st) !! (code +:+ "_0")
     = Some (top_level items).
Proof.
  induction entries as [|[k its] entries IH]; intros st Hitems Hnone;
    [done|].
  unfold oget in Hitems. simpl in Hitems. simpl.
  destruct (String.eqb k code) eqn:Hkc.
  - apply String.eqb_eq in Hkc as ->. simpl in Hitems.
    injection Hitems as ->. rewrite Hnone.
    apply fold_synthetic_keeps; simpl.
    + by rewrite oget_oset, String.eqb_refl.
    + by rewrite synthetic_root_id, lookup_insert_eq.
  - apply String.eqb_neq in Hkc.
    destruct (oget (fst st) k) eqn:Hk; [by apply IH|].
    apply IH; [done|]. simpl. rewrite oget_oset.
    destruct (String.eqb k code) eqn:Hkc'; [|done].
    by apply String.eqb_eq in Hkc'.
Qed.

Lemma elem_of_members code (cs : list Criterion) c :
  c ∈ members code cs <-> c ∈ cs /\ crit c = code.
Proof.
  unfold members. rewrite !list_elem_of_In, List.filter_In.
  by rewrite String.eqb_eq.
Qed.

(** C9, as amended.  For input none of whose criterion codes names an
    inherited property, and which holds a criterion whose [parent_clause]
    matches no [clause] of its group, [create] returns an engine.  When the
    group has no explicit root (no member with [parent_clause] empty or 0),
    the root of the group in that engine is a synthetic root, and the
    criterion is one of the children [clauseChildrenMap] gives that root. *)
Theorem dangling_parent_under_synthetic_root localeCompare d c p :
  Forall (fun q => inherited (crit q) = false) (allCriteria (loaded d)) ->
  c ∈ allCriteria (loaded d) ->
  parent_clause c = Some p ->
  (forall q, q ∈ allCriteria (loaded d) -> crit q = crit c -> clause q <> p) ->
  exists e,
    create localeCompare (Some d) = Some e
    /\ ((forall q, q ∈ allCriteria (loaded d) -> crit q = crit c ->
                   has_parent_ref q <> None) ->
        let children :=
          top_level (members (crit c) (allCriteria (loaded d))) in
        oget (groupRoots e) (crit c) = Some (synthetic_root (crit c) children)
        /\ clauseChildrenMap e
             !! getCriterionId (synthetic_root (crit c) children)
           = Some children
        /\ c ∈ children).
Proof.
  intros Hplain Hc Hp Hdangling.
  exists (built localeCompare (Some d)).
  split; [by apply create_returns|]. intros Hrootless children.
  set (input := allCriteria (loaded d)) in *.
  set (byCode0 := fold_left push_plain input []).
  assert (Hg0 : oget byCode0 (crit c) = Some (members (crit c) input)).
  { pose proof (fold_push_plain_groups input [] [] ltac:(done) (crit c)) as H.
    simpl in H. fold byCode0 in H. rewrite H.
    assert (Hin : c ∈ members (crit c) input) by by apply elem_of_members.
    destruct (members (crit c) input); [by apply elem_of_nil in Hin|done]. }
  destruct (fold_inject_outcome_keeps (crit c) _ (outcomes (loaded d))
              (input, byCode0) Hg0) as [Hg Hall].
  assert (Hroots0 : oget (fold_left explicit_root
             (fst (fold_left inject_outcome (outcomes (loaded d))
                     (input, byCode0))) []) (crit c) = None).
  { rewrite fold_explicit_root_none; [done|].
    intros q Hq Hcq. apply Hrootless; [by apply Hall|done]. }
  destruct (fold_synthetic_adds (crit c) _ _
              (_, fold_left (link_child byCode0) input ∅) Hg Hroots0)
    as [H1 H2].
  split; [exact H1|]. split; [by rewrite synthetic_root_id|].
  unfold children, top_level. apply list_elem_of_In, List.filter_In.
  split; [by apply list_elem_of_In, elem_of_members|].
  rewrite Hp. apply negb_true_iff, not_true_iff_false.
  intros Hex. apply existsb_exists in Hex as (k & Hk & Hpk).
  apply Z.eqb_eq in Hpk as <-.
  apply List.in_map_iff in Hk as (q & Hq & Hqin).
  apply list_elem_of_In, elem_of_members in Hqin as [Hqin Hqc].
  by apply (Hdangling q).
Qed.

(** C9, as stated, fails: in a group with an explicit root, a member whose
    parent clause does not exist is neither the root nor a child of any
    node, and checking it does not satisfy the group, although the root
    combines its children by OR. *)
Lemma dangling_parent_counterexample :
  let c := input_criterion "A" 3 (Some 99) "OR" in
  c ∈ allCriteria ex_dangling
  /\ Forall (fun q => clause q <> 99) (allCriteria ex_dangling)
  /\ oget (groupRoots ex_dangling) "A" = Some (input_criterion "A" 1 None "OR")
  /\ map_Forall (fun _ cs => c ∉ cs) (clauseChildrenMap ex_dangling)
  /\ (fst <$> isClauseSatisfied 1 c ex_dangling) = Some true
  /\ (fst <$> isGroupSatisfied 3 "A" ex_dangling) = Some (VBool false).
Proof.
  split; [by repeat constructor|].
  split; [by repeat constructor|].
  split; [done|].
  split; [|by split].
  refine (bool_decide_eq_true_1 _ _). vm_compute. reflexivity.
Qed.

Lemma dangling_parent_under_synthetic_root_witness :
  let c := input_criterion "B" 2 (Some 1) "AND" in
  exists e,
    create codeunit_compare (Some ex_rootless_data) = Some e
    /\ oget (groupRoots e) "B" = Some (synthetic_root "B" [c])
    /\ clauseChildrenMap e !! "B_0" = Some [c]
    /\ c ∈ [c].
Proof.
  destruct (dangling_parent_under_synthetic_root codeunit_compare
              ex_rootless_data (input_criterion "B" 2 (Some 1) "AND") 1)
    as (e & Hcreate & Hroot).
  - by repeat constructor.
  - left.
  - reflexivity.
  - intros q Hq _.
    apply elem_of_cons in Hq as [->|Hq]; [discriminate|].
    apply list_elem_of_singleton in Hq as ->. discriminate.
  - exists e. split; [exact Hcreate|].
    apply Hroot. intros q Hq _.
    apply elem_of_cons in Hq as [->|Hq]; [discriminate|].
    apply list_elem_of_singleton in Hq as ->. discriminate.
Defined.

(** ** The hypotheses of the evaluator's properties hold along the life of
    an engine *)

Lemma elem_of_oset {V} (m : JSObj V) k v k' v' :
  (k', v') ∈ oset m k v -> (k', v') ∈ m \/ v' = v.
Proof.
  unfold oset. destruct (existsb (String.eqb k) (okeys m)).
  - induction m as [|[k0 v0] m IH]; simpl; [by left|].
    destruct (String.eqb k0 k).
    + intros H. apply elem_of_cons in H as [H|H].
      * right. congruence.
      * left. by right.
    + intros H. apply elem_of_cons in H as [H|H].
      * left. rewrite H. by left.
      * destruct (IH H) as [H'|H']; [left; by right|by right].
  - induction m as [|[k0 v0] m IH]; simpl.
    + intros H. apply list_elem_of_singleton in H. right. congruence.
    + destruct (key_before k k0).
      * intros H. apply elem_of_cons in H as [H|H]; [right; congruence|].
        by left.
      * intros H. apply elem_of_cons in H as [H|H].
        -- left. rewrite H. by left.
        -- destruct (IH H) as [H'|H']; [left; by right|by right].
Qed.

Lemma oget_entry {V} (m : JSObj V) k v :
  oget m k = Some v -> exists k', (k', v) ∈ m.
Proof.
  unfold oget. induction m as [|[k0 v0] m IH]; simpl; [done|].
  destruct (String.eqb k0 k); simpl.
  - intros [= <-]. exists k0. by left.
  - intros H. destruct (IH H) as [k' Hk']. exists k'. by right.
Qed.

Lemma push_plain_within m cs c :
  entries_within m cs -> entries_within (push_plain m c) (cs ++ [c]).
Proof.
  intros H k items Hin q Hq. unfold push_plain in Hin.
  apply elem_of_oset in Hin as [Hin| ->].
  - apply elem_of_app. left. by apply (H k items).
  - apply elem_of_app in Hq as [Hq|Hq]; [|apply elem_of_app; by right].
    apply elem_of_app. left.
    destruct (oget m (crit c)) as [old|] eqn:Hold; simpl in Hq;
      [|by apply elem_of_nil in Hq].
    destruct (oget_entry _ _ _ Hold) as [k' Hk']. by apply (H k' old).
Qed.

Lemma fold_push_plain_within cs : forall m cs0,
  entries_within m cs0 ->
  entries_within (fold_left push_plain cs m) (cs0 ++ cs).
Proof.
  induction cs as [|c cs IH]; intros m cs0 H; simpl.
  - by rewrite app_nil_r.
  - rewrite (cons_middle c cs0 cs), app_assoc.
    by apply IH, push_plain_within.
Qed.

Lemma fold_inject_outcome_within outs : forall st,
  entries_within (snd st) (fst st) ->
  entries_within (snd (fold_left inject_outcome outs st))
                 (fst (fold_left inject_outcome outs st))
  /\ forall q, q ∈ fst st -> q ∈ fst (fold_left inject_outcome outs st).
Proof.
  induction outs as [|[k o] outs IH]; intros st H; simpl; [done|].
  destruct (oget (snd st) k); [by apply IH|].
  destruct (inherited k); [by apply IH|].
  match goal with
  | |- context [fold_left inject_outcome outs ?st1] =>
      destruct (IH st1) as [H1 H2]
  end.
  - intros k' items Hin q Hq. simpl in *.
    apply elem_of_oset in Hin as [Hin| ->].
    + apply elem_of_app. left. by apply (H k' items).
    + apply elem_of_app. by right.
  - split; [exact H1|]. intros q Hq. apply H2. simpl.
    apply elem_of_app. by left.
Qed.

Lemma link_child_within byCode (input : list Criterion) m c :
  c ∈ input ->
  map_Forall (fun _ cs => Forall (fun q => q ∈ input) cs) m ->
  map_Forall (fun _ cs => Forall (fun q => q ∈ input) cs)
    (link_child byCode m c).
Proof.
  intros Hc Hm. unfold link_child.
  destruct (has_parent_ref c); [|done].
  destruct (oget byCode (crit c)); [|done].
  destruct (List.find _ _) as [parent|]; [|done].
  apply map_Forall_insert_2; [|done].
  apply Forall_app. split; [|by repeat constructor].
  destruct (m !! getCriterionId parent) as [old|] eqn:Hold; simpl; [|done].
  by apply (Hm _ _ Hold).
Qed.

Lemma fold_link_child_within byCode (input : list Criterion) cs : forall m,
  (forall c, c ∈ cs -> c ∈ input) ->
  map_Forall (fun _ cs => Forall (fun q => q ∈ input) cs) m ->
  map_Forall (fun _ cs => Forall (fun q => q ∈ input) cs)
    (fold_left (link_child byCode) cs m).
Proof.
  induction cs as [|c cs IH]; intros m Hsub Hm; simpl; [done|].
  apply IH; [intros q Hq; apply Hsub; by right|].
  apply link_child_within; [apply Hsub; by left|done].
Qed.

Lemma top_level_subset items q : q ∈ top_level items -> q ∈ items.
Proof.
  unfold top_level. rewrite !list_elem_of_In, List.filter_In. by intros [? _].
Qed.

Lemma fold_synthetic_within (all : list Criterion) entries : forall st,
  (forall k items, (k, items) ∈ entries -> forall q, q ∈ items -> q ∈ all) ->
  map_Forall (fun _ cs => Forall (fun q => q ∈ all) cs) (snd st) ->
  map_Forall (fun _ cs => Forall (fun q => q ∈ all) cs)
    (snd (fold_left add_synthetic_root entries st)).
Proof.
  induction entries as [|[k items] entries IH]; intros st Hent Hm; simpl;
    [done|].
  assert (Hent' : forall k' its, (k', its) ∈ entries ->
                    forall q, q ∈ its -> q ∈ all)
    by (intros k' its Hin; apply (Hent k' its); by right).
  destruct (oget (fst st) k); [by apply IH|].
  apply IH; [done|]. simpl.
  apply map_Forall_insert_2; [|done].
  apply Forall_forall. intros q Hq.
  apply (Hent k items); [by left|by apply top_level_subset].
Qed.

(** The children [buildIndices] links are criteria of [allCriteria]. *)
Lemma built_children_known localeCompare data :
  map_Forall (fun _ cs => Forall (fun c => c ∈ universe (built localeCompare data)) cs)
    (clauseChildrenMap (built localeCompare data)).
Proof.
  destruct data as [d|]; [|by apply map_Forall_empty].
  set (input := allCriteria (loaded d)).
  set (byCode0 := fold_left push_plain input []).
  set (injected := fold_left inject_outcome (outcomes (loaded d))
                     (input, byCode0)).
  assert (Hwithin0 : entries_within byCode0 input).
  { apply (fold_push_plain_within input [] []).
    intros k items Hin. by apply elem_of_nil in Hin. }
  destruct (fold_inject_outcome_within (outcomes (loaded d)) (input, byCode0)
              Hwithin0) as [Hwithin Hgrow].
  fold injected in Hwithin, Hgrow.
  assert (Hall : map_Forall (fun _ cs => Forall (fun q => q ∈ fst injected) cs)
                   (clauseChildrenMap (built localeCompare (Some d)))).
  { apply (fold_synthetic_within (fst injected)); [exact Hwithin|]. simpl.
    eapply map_Forall_impl.
    - apply (fold_link_child_within byCode0 input input ∅); [done|].
      apply map_Forall_empty.
    - intros id cs Hcs. simpl in Hcs. eapply Forall_impl; [exact Hcs|].
      intros q Hq. by apply Hgrow. }
  eapply map_Forall_impl; [exact Hall|].
  intros id cs Hcs. simpl in Hcs. eapply Forall_impl; [exact Hcs|].
  intros q Hq. apply elem_of_app. by left.
Qed.

Lemma create_children_known localeCompare data e :
  create localeCompare data = Some e ->
  map_Forall (fun _ cs => Forall (fun c => c ∈ universe e) cs)
    (clauseChildrenMap e).
Proof. intros ->%create_built. apply built_children_known. Qed.

Lemma create_fresh localeCompare data e :
  create localeCompare data = Some e ->
  checkedCriteria e = ∅ /\ _satCache e = ∅ /\ _groupSatCache e = ∅
  /\ _leafCache e = ∅ /\ _listeners e = [].
Proof. intros ->%create_built. apply built_fresh. Qed.

Lemma create_caches_sound localeCompare data e :
  create localeCompare data = Some e -> caches_sound e.
Proof.
  intros H. destruct (create_fresh _ _ _ H) as (_ & H1 & H2 & H3 & _).
  by apply caches_sound_empty.
Qed.

Lemma well_formed_set_listeners f e :
  well_formed (set_listeners f e) <-> well_formed e.
Proof. done. Qed.

(** A mutation keeps the identity invariant and leaves sound tables. *)
Lemma mutation_keeps_sound e id :
  well_formed e -> caches_sound e ->
  (well_formed (fst (check id e)) /\ caches_sound (fst (check id e)))
  /\ (well_formed (fst (uncheck id e)) /\ caches_sound (fst (uncheck id e)))
  /\ (well_formed (fst (toggle id e)) /\ caches_sound (fst (toggle id e)))
  /\ (well_formed (fst (reset e)) /\ caches_sound (fst (reset e))).
Proof.
  intros Hwf Hs.
  assert (H : forall f l,
            well_formed (set_listeners (fun _ => l)
                           (_invalidateCaches (set_checkedCriteria f e)))
            /\ caches_sound (set_listeners (fun _ => l)
                               (_invalidateCaches (set_checkedCriteria f e)))).
  { intros f l. split; [exact Hwf|by apply caches_sound_invalidate]. }
  destruct (check_fst id e) as [l1 ->].
  destruct (uncheck_fst id e) as [l2 ->].
  destruct (toggle_fst id e) as (f3 & l3 & ->).
  destruct (reset_fst e) as [l4 ->].
  repeat split; apply H.
Qed.

Lemma checkedLeaves_filter_sound cs : forall e kept e',
  caches_sound e -> checkedLeaves_filter cs e = (kept, e') ->
  caches_sound e' /\ static e' = static e.
Proof.
  induction cs as [|c cs IH]; intros e kept e' Hs; simpl.
  - by intros [= <- <-].
  - destruct (isLeafCriterion c e) as [leaf e1] eqn:Hl.
    destruct (isLeafCriterion_spec _ _ _ _ Hs Hl) as (_ & Hs1 & Hst1 & _).
    destruct (checkedLeaves_filter cs e1) as [kept1 e2] eqn:Hrec.
    intros [= <- <-].
    destruct (IH _ _ _ Hs1 Hrec) as [Hs2 Hst2]. split; [done|congruence].
Qed.

Lemma findCurrentLevel_loop_keeps fuel codes : forall d e r e',
  well_formed e -> caches_sound e ->
  findCurrentLevel_loop fuel codes d e = Some (r, e') ->
  caches_sound e' /\ static e' = static e.
Proof.
  induction codes as [|code codes IH]; intros d e r e' Hwf Hs; simpl.
  - by intros [= <- <-].
  - destruct (isGroupSatisfied fuel code e) as [[sat e1]|] eqn:Hg; [|done].
    destruct (isGroupSatisfied_sound _ _ _ _ _ Hwf Hs Hg) as (_ & Hs1 & Hst1).
    intros Hloop.
    apply IH in Hloop as [Hs' Hst']; [|by apply (static_well_formed e)|done].
    split; [done|congruence].
Qed.

(** A read that is passed criteria of the engine leaves sound tables. *)
Lemma read_keeps_sound localeCompare fuel r e a e' :
  well_formed e -> caches_sound e -> proper_read e r ->
  runRead localeCompare fuel r e = Some (a, e') ->
  well_formed e' /\ caches_sound e'.
Proof.
  intros Hwf Hs Hproper Hrun.
  assert (Hlevel : forall r0 e0,
            findCurrentLevel fuel e = Some (r0, e0) ->
            caches_sound e0 /\ static e0 = static e)
    by (intros r0 e0; by apply findCurrentLevel_loop_keeps).
  assert (Hgoal : caches_sound e' /\ static e' = static e);
    [|destruct Hgoal; split; [by apply (static_well_formed e)|done]].
  destruct r; cbv [runRead answer] in Hrun; simpl in Hproper.
  - by injection Hrun as <- <-.
  - by injection Hrun as <- <-.
  - by injection Hrun as <- <-.
  - destruct (isLeafCriterion c e) as [leaf e1] eqn:Hl.
    injection Hrun as <- <-.
    by destruct (isLeafCriterion_spec _ _ _ _ Hs Hl) as (_ & ? & ? & _).
  - by injection Hrun as <- <-.
  - destruct (isClauseSatisfied fuel c e) as [[b e1]|] eqn:Hev; [|done].
    injection Hrun as <- <-.
    by destruct (isClauseSatisfied_sound _ _ _ _ _ Hwf Hs Hproper Hev)
      as (_ & ? & ?).
  - destruct (evaluateSiblingLogic fuel siblings parentLogic e)
      as [[b e1]|] eqn:Hev; [|done].
    injection Hrun as <- <-.
    destruct (siblings_sound e (isClauseSatisfied fuel) siblings) with
      (l := parentLogic) (e := e) (b := b) (e' := e1) as [_ [? ?]]; try done.
    intros x e3 b3 e3' Hx [Hs3 Hst3] Hx3.
    destruct (isClauseSatisfied_sound fuel x e3 b3 e3')
      as ([m Hm] & Hs3' & Hst3');
      [by apply (static_well_formed e)|done| |done|].
    + rewrite (static_universe e) by done.
      by apply (proj1 (Forall_forall _ _) Hproper).
    + split; [exists m; by rewrite <- (static_sat_ref _ _ Hst3)|].
      split; [done|congruence].
  - destruct (isGroupSatisfied fuel code e) as [[b e1]|] eqn:Hev; [|done].
    injection Hrun as <- <-.
    by destruct (isGroupSatisfied_sound _ _ _ _ _ Hwf Hs Hev) as (_ & ? & ?).
  - destruct (findCurrentLevel fuel e) as [[r0 e1]|] eqn:Hev; [|done].
    injection Hrun as <- <-. by apply (Hlevel r0).
  - unfold getVisibleGroups in Hrun.
    destruct (findCurrentLevel fuel e) as [[r0 e1]|] eqn:Hev; [|done].
    destruct (code_truthy r0); injection Hrun as <- <-; by apply (Hlevel r0).
  - unfold getCheckedLeaves in Hrun.
    destruct (checkedLeaves_filter (allCriteria e) e) as [kept e1] eqn:Hf.
    injection Hrun as <- <-. by apply (checkedLeaves_filter_sound _ _ _ _ Hs Hf).
  - unfold getClassificationPath in Hrun.
    destruct (findCurrentLevel fuel e) as [[r0 e1]|] eqn:Hev; [|done].
    destruct (code_truthy r0); injection Hrun as <- <-; by apply (Hlevel r0).
  - unfold getCurrentClassification in Hrun.
    destruct (findCurrentLevel fuel e) as [[r0 e1]|] eqn:Hev; [|done].
    destruct (code_truthy r0); injection Hrun as <- <-; by apply (Hlevel r0).
  - unfold getClassificationLevel in Hrun.
    destruct (findCurrentLevel fuel e) as [[r0 e1]|] eqn:Hev; [|done].
    destruct (code_truthy r0); injection Hrun as <- <-; by apply (Hlevel r0).
  - unfold getClassificationBreadcrumb in Hrun.
    destruct (findCurrentLevel fuel e) as [[r0 e1]|] eqn:Hev; [|done].
    destruct (code_truthy r0); injection Hrun as <- <-; by apply (Hlevel r0).
Qed.

(** * Further properties of the engine *)

(** ** Identities *)

Lemma has_char_append a s t :
  has_char a (s +:+ t) = has_char a s || has_char a t.
Proof.
  induction s as [|b s IH]; [done|].
  rewrite append_cons. simpl. by rewrite IH, orb_assoc.
Qed.

Lemma pretty_N_char_not_underscore x : pretty_N_char x <> "_"%char.
Proof. unfold pretty_N_char. by repeat case_match. Qed.

Lemma pretty_N_go_no_underscore x : forall s,
  has_char "_" s = false -> has_char "_" (pretty_N_go x s) = false.
Proof.
  induction (N.lt_wf_0 x) as [x _ IH]; intros s Hs.
  assert (x = 0 \/ 0 < x)%N as [->|Hpos] by lia.
  - by rewrite pretty_N_go_0.
  - rewrite pretty_N_go_step by done. apply IH; [by apply N.div_lt|].
    cbn [has_char]. rewrite Hs, orb_false_r. apply Ascii.eqb_neq.
    intros H. by apply (pretty_N_char_not_underscore (x `mod` 10)%N).
Qed.

Lemma pretty_Z_no_underscore (z : Z) : has_char "_" (pretty z) = false.
Proof.
  assert (HN : forall n : N, has_char "_" (pretty n) = false).
  { intros n. unfold pretty, pretty_N. case_decide; [done|].
    by apply pretty_N_go_no_underscore. }
  destruct z as [|p|p]; [done|apply (HN (N.pos p))|].
  unfold pretty, pretty_Z. rewrite has_char_append. simpl.
  apply (HN (N.pos p)).
Qed.

Lemma split_at_last_underscore s1 s2 d1 d2 :
  has_char "_" d1 = false -> has_char "_" d2 = false ->
  s1 +:+ String "_" d1 = s2 +:+ String "_" d2 -> s1 = s2 /\ d1 = d2.
Proof.
  intros H1 H2. revert s2.
  induction s1 as [|a s1 IH]; intros [|b s2] H.
  - change (String "_" d1 = String "_" d2) in H. by injection H.
  - change (String "_" d1 = String b (s2 +:+ String "_" d2)) in H.
    injection H as <- H.
    rewrite H, has_char_append in H1. cbn [has_char] in H1.
    by rewrite Ascii.eqb_refl, orb_true_r in H1.
  - change (String a (s1 +:+ String "_" d1) = String "_" d2) in H.
    injection H as -> H.
    rewrite <- H, has_char_append in H2. cbn [has_char] in H2.
    by rewrite Ascii.eqb_refl, orb_true_r in H2.
  - rewrite !append_cons in H. injection H as -> H.
    destruct (IH s2 H) as [-> ->]. done.
Qed.

Lemma getCriterionId_eq_inv c c' :
  getCriterionId c = getCriterionId c' ->
  crit c = crit c' /\ clause c = clause c'.
Proof.
  unfold getCriterionId. intros H.
  change (crit c +:+ String "_" (pretty (clause c))
          = crit c' +:+ String "_" (pretty (clause c'))) in H.
  apply split_at_last_underscore in H as [Hc Hk];
    [|apply pretty_Z_no_underscore..].
  split; [done|]. by apply (inj pretty).
Qed.

(** X1.  Two criteria have the same identity exactly when they have the same
    code and the same clause number: the underscore that [getCriterionId]
    inserts is the last one of the identity, whatever the code holds. *)
Theorem getCriterionId_inj c c' :
  getCriterionId c = getCriterionId c'
  <-> crit c = crit c' /\ clause c = clause c'.
Proof.
  split; [apply getCriterionId_eq_inv|].
  unfold getCriterionId. by intros [-> ->].
Qed.

Lemma pretty_N_go_nonempty x : forall s, s <> "" -> pretty_N_go x s <> "".
Proof.
  induction (N.lt_wf_0 x) as [x _ IH]; intros s Hs.
  assert (x = 0 \/ 0 < x)%N as [->|Hpos] by lia.
  - by rewrite pretty_N_go_0.
  - rewrite pretty_N_go_step by done. apply IH; [by apply N.div_lt|done].
Qed.

Lemma pretty_Z_nonempty (z : Z) : pretty z <> "".
Proof.
  assert (HN : forall n : N, pretty n <> "").
  { intros n. unfold pretty, pretty_N. case_decide; [done|].
    rewrite pretty_N_go_step by lia. by apply pretty_N_go_nonempty. }
  destruct z as [|p|p]; [done|apply (HN (N.pos p))|].
  unfold pretty, pretty_Z. intros H.
  apply (f_equal String.length) in H. rewrite length_append in H.
  simpl in H. lia.
Qed.

Lemma id_no_plain_name s d name :
  has_char "_" name = false -> s +:+ String "_" d <> name.
Proof.
  intros Hname <-. rewrite has_char_append in Hname. cbn [has_char] in Hname.
  by rewrite Ascii.eqb_refl, orb_true_r in Hname.
Qed.

Lemma id_no_underscore_end s d name :
  has_char "_" d = false -> d <> "" ->
  s +:+ String "_" d <> name +:+ String "_" "".
Proof.
  intros Hd Hne H.
  apply split_at_last_underscore in H as [_ ->]; done.
Qed.

(** X26.  No identity names a property inherited from [Object.prototype]:
    an identity ends in an underscore followed by the digits of the clause
    number.  The tables that are read with the identity of a criterion
    ([_satCache], [_leafCache], [clauseChildrenMap], and [checkedCriteria]
    in [isClauseSatisfied]) are therefore read at their own properties
    only. *)
Theorem getCriterionId_not_inherited c : inherited (getCriterionId c) = false.
Proof.
  apply not_true_iff_false. intros H. unfold inherited in H.
  apply existsb_exists in H as (name & Hname & Heq).
  apply String.eqb_eq in Heq. subst name.
  unfold getCriterionId in Hname.
  change (In (crit c +:+ String "_" (pretty (clause c))) proto_names)
    in Hname.
  pose proof (pretty_Z_no_underscore (clause c)) as Hd.
  pose proof (pretty_Z_nonempty (clause c)) as Hne.
  unfold proto_names in Hname. simpl in Hname.
  repeat (destruct Hname as [Hname|Hname];
          [symmetry in Hname; revert Hname;
           first [by apply id_no_plain_name
                 |apply (id_no_underscore_end _ _ "__defineGetter_"); done
                 |apply (id_no_underscore_end _ _ "__defineSetter_"); done
                 |apply (id_no_underscore_end _ _ "__lookupGetter_"); done
                 |apply (id_no_underscore_end _ _ "__lookupSetter_"); done
                 |apply (id_no_underscore_end _ _ "__proto_"); done]|]).
  done.
Qed.

(** ** What a read leaves untouched *)

Lemma checkedLeaves_filter_grows cs : forall e kept e',
  checkedLeaves_filter cs e = (kept, e') -> grows e e'.
Proof.
  induction cs as [|c cs IH]; intros e kept e'; simpl.
  - intros [= <- <-]. apply grows_refl.
  - destruct (isLeafCriterion c e) as [leaf e1] eqn:Hl.
    destruct (checkedLeaves_filter cs e1) as [kept1 e2] eqn:Hrec.
    intros [= <- <-]. apply (grows_trans e e1).
    + exact (isLeafCriterion_grows _ _ _ _ Hl).
    + exact (IH _ _ _ Hrec).
Qed.

(** X2.  No read changes the indices, the selection or the listeners, and
    no read changes an entry that the leaf table or the group table already
    holds: whatever is read, with whatever arguments, these only gain
    entries. *)
Theorem reads_only_grow_tables localeCompare fuel r e a e' :
  runRead localeCompare fuel r e = Some (a, e') ->
  indices e' = indices e
  /\ checkedCriteria e' = checkedCriteria e
  /\ _listeners e' = _listeners e
  /\ _groupSatCache e ⊆ _groupSatCache e'
  /\ _leafCache e ⊆ _leafCache e'.
Proof.
  intros Hrun. change (grows e e').
  destruct r; cbv [runRead answer] in Hrun.
  - injection Hrun as <- <-. apply grows_refl.
  - injection Hrun as <- <-. apply grows_refl.
  - injection Hrun as <- <-. apply grows_refl.
  - destruct (isLeafCriterion c e) as [leaf e1] eqn:Hl.
    injection Hrun as <- <-. exact (isLeafCriterion_grows _ _ _ _ Hl).
  - injection Hrun as <- <-. apply grows_refl.
  - destruct (isClauseSatisfied fuel c e) as [[b e1]|] eqn:Hev; [|done].
    injection Hrun as <- <-. exact (isClauseSatisfied_growing _ _ _ _ _ Hev).
  - destruct (evaluateSiblingLogic fuel siblings parentLogic e)
      as [[b e1]|] eqn:Hev; [|done].
    injection Hrun as <- <-.
    exact (evaluateSiblingLogic_with_growing _ _ _
             (isClauseSatisfied_growing fuel) _ _ _ Hev).
  - destruct (isGroupSatisfied fuel code e) as [[b e1]|] eqn:Hev; [|done].
    injection Hrun as <- <-. exact (isGroupSatisfied_growing _ _ _ _ _ Hev).
  - destruct (findCurrentLevel fuel e) as [[r0 e1]|] eqn:Hev; [|done].
    injection Hrun as <- <-. exact (findCurrentLevel_growing _ _ _ _ Hev).
  - unfold getVisibleGroups in Hrun.
    destruct (findCurrentLevel fuel e) as [[r0 e1]|] eqn:Hev; [|done].
    destruct (code_truthy r0); injection Hrun as <- <-;
      exact (findCurrentLevel_growing _ _ _ _ Hev).
  - unfold getCheckedLeaves in Hrun.
    destruct (checkedLeaves_filter (allCriteria e) e) as [kept e1] eqn:Hf.
    injection Hrun as <- <-. exact (checkedLeaves_filter_grows _ _ _ _ Hf).
  - unfold getClassificationPath in Hrun.
    destruct (findCurrentLevel fuel e) as [[r0 e1]|] eqn:Hev; [|done].
    destruct (code_truthy r0); injection Hrun as <- <-;
      exact (findCurrentLevel_growing _ _ _ _ Hev).
  - unfold getCurrentClassification in Hrun.
    destruct (findCurrentLevel fuel e) as [[r0 e1]|] eqn:Hev; [|done].
    destruct (code_truthy r0); injection Hrun as <- <-;
      exact (findCurrentLevel_growing _ _ _ _ Hev).
  - unfold getClassificationLevel in Hrun.
    destruct (findCurrentLevel fuel e) as [[r0 e1]|] eqn:Hev; [|done].
    destruct (code_truthy r0); injection Hrun as <- <-;
      exact (findCurrentLevel_growing _ _ _ _ Hev).
  - unfold getClassificationBreadcrumb in Hrun.
    destruct (findCurrentLevel fuel e) as [[r0 e1]|] eqn:Hev; [|done].
    destruct (code_truthy r0); injection Hrun as <- <-;
      exact (findCurrentLevel_growing _ _ _ _ Hev).
Qed.

Lemma reads_only_grow_tables_witness :
  indices (snd (isLeafCriterion ex_uniform_parent ex_uniform))
  = indices ex_uniform
  /\ checkedCriteria (snd (isLeafCriterion ex_uniform_parent ex_uniform))
     = checkedCriteria ex_uniform
  /\ _listeners (snd (isLeafCriterion ex_uniform_parent ex_uniform))
     = _listeners ex_uniform
  /\ _groupSatCache ex_uniform
     ⊆ _groupSatCache (snd (isLeafCriterion ex_uniform_parent ex_uniform))
  /\ _leafCache ex_uniform
     ⊆ _leafCache (snd (isLeafCriterion ex_uniform_parent ex_uniform)).
Proof.
  apply (reads_only_grow_tables codeunit_compare 0
           (RIsLeafCriterion ex_uniform_parent) ex_uniform (ABool false)).
  reflexivity.
Defined.

(** ** Repeated reads *)

Lemma isClauseSatisfied_cached fuel c e b e' :
  isClauseSatisfied fuel c e = Some (b, e') ->
  _satCache e' !! getCriterionId c = Some b.
Proof.
  destruct fuel as [|fuel]; simpl; [done|].
  destruct (_satCache e !! getCriterionId c) eqn:Hc.
  { by intros [= <- <-]. }
  destruct (isLeafCriterion c e) as [leaf e1].
  destruct leaf.
  - intros [= <- <-]. simpl. apply lookup_insert_eq.
  - destruct (0 <? length (getClauseChildren c e1))%nat.
    + destruct (evaluateSiblingLogic_with _ _ _ e1) as [[r e2]|]; [|done].
      intros [= <- <-]. simpl. apply lookup_insert_eq.
    + intros [= <- <-]. simpl. apply lookup_insert_eq.
Qed.

Lemma isLeafCriterion_groups c e b e' :
  isLeafCriterion c e = (b, e') -> _groupSatCache e' = _groupSatCache e.
Proof.
  unfold isLeafCriterion.
  by destruct (_leafCache e !! getCriterionId c); intros [= <- <-].
Qed.

Lemma scan_until_groups stop (f : Criterion -> Eval bool) xs :
  (forall x e a e', f x e = Some (a, e') ->
                    _groupSatCache e' = _groupSatCache e) ->
  forall e a e', scan_until stop f xs e = Some (a, e') ->
                 _groupSatCache e' = _groupSatCache e.
Proof.
  intros Hf. induction xs as [|x xs IH]; intros e a e'; simpl.
  - by intros [= <- <-].
  - destruct (f x e) as [[b e1]|] eqn:Hx; [|done].
    pose proof (Hf x e b e1 Hx) as H1.
    destruct (Bool.eqb b stop).
    + by intros [= <- <-].
    + intros H. rewrite <- H1. by apply (IH e1 a).
Qed.

Lemma map_runs_groups (f : Criterion -> Eval bool) runs :
  (forall x e a e', f x e = Some (a, e') ->
                    _groupSatCache e' = _groupSatCache e) ->
  forall e a e', map_runs f runs e = Some (a, e') ->
                 _groupSatCache e' = _groupSatCache e.
Proof.
  intros Hf. induction runs as [|run runs IH]; intros e a e'; simpl.
  - by intros [= <- <-].
  - unfold every_st, some_st.
    destruct (if String.eqb (r_logic run) "AND"
              then scan_until false f (r_items run) e
              else scan_until true f (r_items run) e) as [[b e1]|] eqn:Hs;
      [|done].
    assert (H1 : _groupSatCache e1 = _groupSatCache e).
    { destruct (String.eqb (r_logic run) "AND").
      - by apply (scan_until_groups false f (r_items run) Hf e b).
      - by apply (scan_until_groups true f (r_items run) Hf e b). }
    destruct (map_runs f runs e1) as [[bs e2]|] eqn:Hrec; [|done].
    intros [= <- <-]. rewrite <- H1. by apply (IH e1 bs).
Qed.

Lemma evaluateSiblingLogic_with_groups f siblings parentLogic :
  (forall x e a e', f x e = Some (a, e') ->
                    _groupSatCache e' = _groupSatCache e) ->
  forall e a e',
    evaluateSiblingLogic_with f siblings parentLogic e = Some (a, e') ->
    _groupSatCache e' = _groupSatCache e.
Proof.
  intros Hf e a e'. unfold evaluateSiblingLogic_with, every_st, some_st.
  destruct (uniform_logic siblings parentLogic).
  - destruct (String.eqb parentLogic "AND"); by apply scan_until_groups.
  - destruct (map_runs f (group_runs siblings) e) as [[bs e1]|] eqn:Hm;
      [|done].
    pose proof (map_runs_groups f _ Hf e bs e1 Hm).
    by destruct (String.eqb parentLogic "AND"); intros [= <- <-].
Qed.

Lemma isClauseSatisfied_groups fuel : forall c e a e',
  isClauseSatisfied fuel c e = Some (a, e') ->
  _groupSatCache e' = _groupSatCache e.
Proof.
  induction fuel as [|fuel IH]; intros c e a e'; simpl; [done|].
  destruct (_satCache e !! getCriterionId c).
  { by intros [= <- <-]. }
  destruct (isLeafCriterion c e) as [leaf e1] eqn:Hl.
  pose proof (isLeafCriterion_groups _ _ _ _ Hl) as H1.
  destruct leaf.
  - by intros [= <- <-].
  - destruct (0 <? length (getClauseChildren c e1))%nat.
    + destruct (evaluateSiblingLogic_with _ _ _ e1) as [[b e2]|] eqn:Hev;
        [|done].
      intros [= <- <-]. simpl. rewrite <- H1.
      exact (evaluateSiblingLogic_with_groups _ _ _ IH e1 b e2 Hev).
    + by intros [= <- <-].
Qed.

(** What [isGroupSatisfied] leaves in the group table: the answer under
    its code when the answer is a boolean, and nothing new under a code
    that names an inherited property. *)
Lemma isGroupSatisfied_cached fuel code e r e' :
  isGroupSatisfied fuel code e = Some (r, e') ->
  match r with
  | VBool b => _groupSatCache e' !! code = Some b
  | VProto _ => _groupSatCache e !! code = None /\ inherited code = true
  end
  /\ forall k, inherited k = true ->
               _groupSatCache e' !! k = _groupSatCache e !! k.
Proof.
  unfold isGroupSatisfied.
  destruct (_groupSatCache e !! code) eqn:Hc.
  { by intros [= <- <-]. }
  destruct (inherited code) eqn:Hin.
  { by intros [= <- <-]. }
  destruct (oget (groupRoots e) code).
  - destruct (isClauseSatisfied fuel c e) as [[b e1]|] eqn:Hev; [|done].
    intros [= <- <-]. simpl. split; [apply lookup_insert_eq|].
    intros k Hk. rewrite lookup_insert_ne by congruence.
    by rewrite (isClauseSatisfied_groups _ _ _ _ _ Hev).
  - intros [= <- <-]. simpl. split; [apply lookup_insert_eq|].
    intros k Hk. by rewrite lookup_insert_ne by congruence.
Qed.

Lemma findCurrentLevel_loop_inherited fuel codes : forall deepest e r e',
  findCurrentLevel_loop fuel codes deepest e = Some (r, e') ->
  forall k, inherited k = true ->
            _groupSatCache e' !! k = _groupSatCache e !! k.
Proof.
  induction codes as [|code codes IH]; intros deepest e r e'; simpl.
  - by intros [= <- <-].
  - destruct (isGroupSatisfied fuel code e) as [[sat e1]|] eqn:Hg; [|done].
    intros Hloop k Hk.
    rewrite (IH _ _ _ _ Hloop k Hk).
    by apply (isGroupSatisfied_cached _ _ _ _ _ Hg).
Qed.

Lemma findCurrentLevel_loop_replay fuel codes : forall deepest e r e',
  findCurrentLevel_loop fuel codes deepest e = Some (r, e') ->
  forall fuel' e2,
    _groupSatCache e' ⊆ _groupSatCache e2 ->
    (forall k, inherited k = true ->
               _groupSatCache e2 !! k = _groupSatCache e' !! k) ->
    findCurrentLevel_loop fuel' codes deepest e2 = Some (r, e2).
Proof.
  induction codes as [|code codes IH]; intros deepest e r e'; simpl.
  - by intros [= <- <-].
  - destruct (isGroupSatisfied fuel code e) as [[sat e1]|] eqn:Hg; [|done].
    intros Hloop fuel' e2 Hsub Hin.
    destruct (isGroupSatisfied_cached _ _ _ _ _ Hg) as [Hc _].
    destruct (findCurrentLevel_loop_growing _ _ _ _ _ _ Hloop)
      as (_ & _ & _ & Hgrow & _).
    unfold isGroupSatisfied. destruct sat as [b|name].
    + rewrite (lookup_weaken _ _ _ _ Hc (transitivity Hgrow Hsub)).
      by apply (IH _ _ _ _ Hloop).
    + destruct Hc as [Hnone Hk].
      assert (name = code) as ->.
      { unfold isGroupSatisfied in Hg. rewrite Hnone, Hk in Hg.
        by injection Hg. }
      assert (e1 = e) as ->.
      { unfold isGroupSatisfied in Hg. rewrite Hnone, Hk in Hg.
        by injection Hg. }
      rewrite (Hin code Hk),
        (findCurrentLevel_loop_inherited _ _ _ _ _ _ Hloop code Hk), Hnone, Hk.
      by apply (IH _ _ _ _ Hloop).
Qed.

(** X3.  A read that has returned is answered from the tables when it is
    repeated: [isClauseSatisfied], [isGroupSatisfied] and
    [findCurrentLevel] then return the same answer, leave the engine as it
    is, and need no recursion (a stack of depth one, or none, is enough). *)
Theorem repeated_read_from_tables fuel e :
  (forall c b e', isClauseSatisfied fuel c e = Some (b, e') ->
     forall fuel', isClauseSatisfied (S fuel') c e' = Some (b, e'))
  /\ (forall code b e', isGroupSatisfied fuel code e = Some (b, e') ->
        forall fuel', isGroupSatisfied fuel' code e' = Some (b, e'))
  /\ (forall r e', findCurrentLevel fuel e = Some (r, e') ->
        forall fuel', findCurrentLevel fuel' e' = Some (r, e')).
Proof.
  split; [|split].
  - intros c b e' H fuel'. simpl.
    by rewrite (isClauseSatisfied_cached _ _ _ _ _ H).
  - intros code b e' H fuel'.
    destruct (isGroupSatisfied_cached _ _ _ _ _ H) as [Hc Hk].
    destruct b as [b|name].
    + unfold isGroupSatisfied. by rewrite Hc.
    + destruct Hc as [Hnone Hin].
      unfold isGroupSatisfied in *. rewrite Hnone, Hin in H.
      injection H as <- <-. by rewrite Hnone, Hin.
  - intros r e' H fuel'. unfold findCurrentLevel in *.
    destruct (findCurrentLevel_loop_growing _ _ _ _ _ _ H) as (Hi & _).
    assert (Hroots : groupRoots e' = groupRoots e)
      by (unfold indices in Hi; congruence).
    rewrite Hroots. by apply (findCurrentLevel_loop_replay _ _ _ _ _ _ H).
Qed.

Lemma repeated_read_from_tables_witness :
  exists e', findCurrentLevel 1 ex_nested = Some (Some "AAA", e')
             /\ findCurrentLevel 0 e' = Some (Some "AAA", e').
Proof.
  eexists. split; [vm_compute; reflexivity|].
  apply (proj2 (proj2 (repeated_read_from_tables 1 ex_nested))).
  vm_compute. reflexivity.
Defined.

(** ** Satisfaction is monotone in the selection *)








(** ** Termination *)

Lemma sat_pure_acyclic ch ck (rank : string -> nat) :
  (forall id cs x, ch !! id = Some cs -> x ∈ cs ->
                   (rank (getCriterionId x) < rank id)%nat) ->
  forall n c, (rank (getCriterionId c) < n)%nat ->
              exists b, sat_pure ch ck n c = Some b.
Proof.
  intros Hrank. induction n as [|n IH]; intros c Hn; [lia|]. simpl.
  destruct (ch !! getCriterionId c) as [cs|] eqn:Hcs; [|by eexists].
  destruct (0 <? length cs)%nat; [|by eexists].
  set (v := fun x => default false (sat_pure ch ck n x)).
  assert (Hv : forall x, x ∈ cs -> sat_pure ch ck n x = Some (v x)).
  { intros x Hx. destruct (IH x) as [b Hb].
    - pose proof (Hrank _ _ _ Hcs Hx). lia.
    - unfold v. by rewrite Hb. }
  unfold siblings_pure. destruct (uniform_logic cs (logic c)).
  - rewrite (scan_pure_total _ _ v cs Hv). by eexists.
  - rewrite (map_runs_pure_total _ v); [by eexists|].
    intros run x Hrun Hx. apply Hv. by apply (group_runs_elem cs run).
Qed.

(** X5.  On data whose parent links have no cycle (a height function
    decreases from every criterion to its children), [isClauseSatisfied]
    returns for every criterion, with a stack no deeper than the height of
    the criterion plus one. *)
Theorem acyclic_data_terminates e (rank : string -> nat) c :
  well_formed e -> caches_sound e -> c ∈ universe e ->
  map_Forall (fun id cs =>
                Forall (fun x => (rank (getCriterionId x) < rank id)%nat) cs)
    (clauseChildrenMap e) ->
  exists b e',
    isClauseSatisfied (S (rank (getCriterionId c))) c e = Some (b, e').
Proof.
  intros Hwf Hs Hc Hrank.
  destruct (sat_pure_acyclic (clauseChildrenMap e) (checkedCriteria e) rank)
    with (n := S (rank (getCriterionId c))) (c := c) as [b Hb]; [|lia|].
  - intros id cs x Hcs Hx.
    by apply (proj1 (Forall_forall _ _) (Hrank id cs Hcs)).
  - exists b. by apply isClauseSatisfied_complete.
Qed.

Lemma acyclic_data_terminates_witness :
  exists b e', isClauseSatisfied 2 ex_mixed_parent ex_mixed = Some (b, e').
Proof.
  apply (acyclic_data_terminates ex_mixed ex_mixed_rank ex_mixed_parent).
  - apply well_formed_compute. vm_compute. reflexivity.
  - apply caches_sound_empty; reflexivity.
  - left.
  - refine (bool_decide_eq_true_1 _ _). vm_compute. reflexivity.
Defined.

Lemma isLeafCriterion_leaf_ok c e b e' :
  leaf_cache_ok e -> isLeafCriterion c e = (b, e') ->
  b = match clauseChildrenMap e !! getCriterionId c with
      | Some _ => false
      | None => true
      end
  /\ leaf_cache_ok e'
  /\ clauseChildrenMap e' = clauseChildrenMap e
  /\ _satCache e' = _satCache e.
Proof.
  intros Hleaf. unfold isLeafCriterion.
  destruct (_leafCache e !! getCriterionId c) as [b0|] eqn:Hc; intros [= <- <-].
  - split; [by apply Hleaf|done].
  - split; [done|]. split; [|done]. by apply leaf_cache_ok_insert.
Qed.

Lemma runs_loop_head l items rest :
  exists tl runs,
    runs_loop l items rest
    = {| r_logic := l; r_items := items ++ tl |} :: runs.
Proof.
  revert items. induction rest as [|s rest IH]; intros items; simpl.
  - exists [], []. by rewrite app_nil_r.
  - destruct (String.eqb (logic s) l).
    + destruct (IH (items ++ [s])) as (tl & runs & ->).
      exists (s :: tl), runs. by rewrite <- app_assoc.
    + exists [], (runs_loop (logic s) [s] rest). by rewrite app_nil_r.
Qed.

Lemma evaluateSiblingLogic_with_first f x xs l e :
  f x e = None -> evaluateSiblingLogic_with f (x :: xs) l e = None.
Proof.
  intros Hx. unfold evaluateSiblingLogic_with, every_st, some_st.
  destruct (uniform_logic (x :: xs) l).
  - destruct (String.eqb l "AND"); simpl; by rewrite Hx.
  - unfold group_runs.
    destruct (runs_loop_head (logic x) [x] xs) as (tl & runs & ->).
    simpl. unfold every_st, some_st.
    destruct (String.eqb (logic x) "AND"); simpl; by rewrite Hx.
Qed.

Lemma self_child_overflows_any fuel i c' cs : forall x e,
  getCriterionId x = i -> getCriterionId c' = i ->
  leaf_cache_ok e -> _satCache e !! i = None ->
  clauseChildrenMap e !! i = Some (c' :: cs) ->
  isClauseSatisfied fuel x e = None.
Proof.
  induction fuel as [|fuel IH]; intros x e Hx Hc' Hleaf Hcache Hch; [done|].
  simpl. rewrite Hx, Hcache.
  destruct (isLeafCriterion x e) as [leaf e1] eqn:Hl.
  destruct (isLeafCriterion_leaf_ok _ _ _ _ Hleaf Hl)
    as (-> & Hleaf1 & Hch1 & Hsat1).
  rewrite Hx, Hch. unfold getClauseChildren. rewrite Hch1, Hx, Hch. simpl.
  rewrite evaluateSiblingLogic_with_first; [done|].
  apply IH; try done; congruence.
Qed.

(** X6.  A criterion whose first child has the criterion's own identity
    (as when a record names its own clause as its parent) cannot be
    evaluated: as long as its result is not in the table, the recursion
    never returns, whatever the depth of the stack. *)
Theorem self_child_overflows e c c' cs :
  leaf_cache_ok e ->
  _satCache e !! getCriterionId c = None ->
  clauseChildrenMap e !! getCriterionId c = Some (c' :: cs) ->
  getCriterionId c' = getCriterionId c ->
  forall fuel, isClauseSatisfied fuel c e = None.
Proof.
  intros Hleaf Hcache Hch Hid fuel.
  by apply (self_child_overflows_any fuel (getCriterionId c) c' cs).
Qed.

Lemma self_child_overflows_witness :
  isClauseSatisfied 1000 (input_criterion "A" 1 (Some 1) "OR") ex_self_parent
  = None.
Proof.
  apply (self_child_overflows ex_self_parent
           (input_criterion "A" 1 (Some 1) "OR")
           (input_criterion "A" 1 (Some 1) "OR") []).
  - intros id b H. vm_compute in H. discriminate.
  - reflexivity.
  - reflexivity.
  - reflexivity.
Defined.

(** ** Listeners *)

Lemma remove_first_absent fn l : fn ∉ l -> remove_first fn l = l.
Proof.
  induction l as [|x l IH]; intros H; simpl; [done|].
  case_bool_decide as Hx.
  - subst x. destruct H. by left.
  - rewrite IH; [done|]. intros Hin. apply H. by right.
Qed.

Lemma remove_first_app_absent fn l : fn ∉ l -> remove_first fn (l ++ [fn]) = l.
Proof.
  induction l as [|x l IH]; intros H; simpl.
  - by rewrite bool_decide_eq_true_2.
  - case_bool_decide as Hx.
    + subst x. destruct H. by left.
    + rewrite IH; [done|]. intros Hin. apply H. by right.
Qed.

Lemma remove_first_present fn l :
  fn ∈ l ->
  exists l1 l2, l = l1 ++ fn :: l2 /\ (fn ∉ l1) /\ remove_first fn l = l1 ++ l2.
Proof.
  induction l as [|x l IH]; intros H; [by apply elem_of_nil in H|]. simpl.
  case_bool_decide as Hx.
  - subst x. exists [], l.
    split; [done|]. split; [|done]. intros Hin. by apply elem_of_nil in Hin.
  - apply elem_of_cons in H as [->|H]; [done|].
    destruct (IH H) as (l1 & l2 & -> & Hnot & ->).
    exists (x :: l1), l2. split; [done|]. split; [|done].
    intros Hin. apply elem_of_cons in Hin as [->|Hin]; [done|by apply Hnot].
Qed.

(** X7.  Subscribing a listener that is not registered and then calling the
    function [onChange] returned gives back the engine as it was, and that
    function does nothing when the listener is not registered (so calling
    it twice is harmless).  For a listener registered more than once it
    removes the earliest registration only and keeps the order of the
    others. *)
Theorem subscribe_unsubscribe fn e :
  (fn ∉ _listeners e ->
     unsubscribe fn (onChange fn e) = e /\ unsubscribe fn e = e)
  /\ (fn ∈ _listeners e ->
      exists l1 l2,
        _listeners e = l1 ++ fn :: l2 /\ (fn ∉ l1)
        /\ _listeners (unsubscribe fn e) = l1 ++ l2).
Proof.
  split.
  - intros H. destruct e. unfold unsubscribe, onChange, set_listeners. simpl in *.
    by rewrite remove_first_app_absent, remove_first_absent.
  - intros H. destruct (remove_first_present fn _ H) as (l1 & l2 & H1 & H2 & H3).
    by exists l1, l2.
Qed.

Lemma subscribe_unsubscribe_witness :
  (unsubscribe (Listener 7) (onChange (Listener 7) ex_listeners) = ex_listeners
   /\ unsubscribe (Listener 7) ex_listeners = ex_listeners)
  /\ exists l1 l2,
       _listeners ex_listeners = l1 ++ Listener 1 :: l2 /\ (Listener 1 ∉ l1)
       /\ _listeners (unsubscribe (Listener 1) ex_listeners) = l1 ++ l2.
Proof.
  split.
  - apply (proj1 (subscribe_unsubscribe (Listener 7) ex_listeners)).
    intros H. repeat (apply elem_of_cons in H as [H|H]; [discriminate|]).
    by apply elem_of_nil in H.
  - apply (proj2 (subscribe_unsubscribe (Listener 1) ex_listeners)). left.
Defined.

(** ** Sorting, and the checked leaves *)

Lemma sort_insert_perm {A} (cmp : A -> A -> Z) x l :
  Permutation (sort_insert cmp x l) (x :: l).
Proof.
  induction l as [|y l IH]; simpl; [done|].
  destruct (cmp x y <=? 0); [done|].
  rewrite IH. apply perm_swap.
Qed.

Lemma js_sort_perm {A} (cmp : A -> A -> Z) l : Permutation (js_sort cmp l) l.
Proof.
  induction l as [|x l IH]; simpl; [done|].
  unfold js_sort in *. simpl. rewrite sort_insert_perm. by constructor.
Qed.

Lemma sort_insert_sorted {A} (cmp : A -> A -> Z) x l :
  orders cmp -> locally_sorted cmp l -> locally_sorted cmp (sort_insert cmp x l).
Proof.
  intros Hord. induction l as [|y l IH]; intros Hl; simpl; [done|].
  destruct (cmp x y <=? 0) eqn:Hxy.
  - apply Z.leb_le in Hxy. by split.
  - apply Z.leb_gt in Hxy.
    assert (Hl' : locally_sorted cmp l) by (destruct l; [done|apply Hl]).
    specialize (IH Hl').
    destruct l as [|z l]; simpl in *.
    + split; [by apply Hord|done].
    + destruct (cmp x z <=? 0).
      * split; [by apply Hord|done].
      * split; [apply Hl|done].
Qed.

Lemma js_sort_sorted {A} (cmp : A -> A -> Z) l :
  orders cmp -> locally_sorted cmp (js_sort cmp l).
Proof.
  intros Hord. induction l as [|x l IH]; [done|].
  by apply sort_insert_sorted.
Qed.

Lemma checkedLeaves_filter_spec cs : forall e,
  leaf_cache_ok e ->
  fst (checkedLeaves_filter cs e) = List.filter (checked_leaf e) cs.
Proof.
  induction cs as [|c cs IH]; intros e Hleaf; simpl; [done|].
  destruct (isLeafCriterion c e) as [leaf e1] eqn:Hl.
  pose proof (isLeafCriterion_grows _ _ _ _ Hl) as (Hi & Hck & _).
  destruct (isLeafCriterion_leaf_ok _ _ _ _ Hleaf Hl)
    as (-> & Hleaf1 & Hch1 & _).
  specialize (IH e1 Hleaf1).
  destruct (checkedLeaves_filter cs e1) as [kept e2]. simpl in *.
  assert (Hsame : List.filter (checked_leaf e1) cs
                  = List.filter (checked_leaf e) cs).
  { apply List.filter_ext. intros x. unfold checked_leaf.
    by rewrite Hch1, Hck. }
  rewrite IH, Hsame, Hck. reflexivity.
Qed.

Lemma locally_sorted_head {A} (cmp : A -> A -> Z) l : forall x,
  chains cmp -> locally_sorted cmp (x :: l) -> Forall (fun b => cmp x b <= 0) l.
Proof.
  induction l as [|y l IH]; intros x Htr Hl; [constructor|].
  destruct Hl as [Hxy Hl]. constructor; [done|].
  eapply Forall_impl; [exact (IH y Htr Hl)|].
  intros b Hyb. simpl in Hyb. by apply (Htr x y b).
Qed.

Lemma locally_sorted_in_order {A} (cmp : A -> A -> Z) l :
  chains cmp -> locally_sorted cmp l -> in_order cmp l.
Proof.
  intros Htr. induction l as [|x l IH]; intros Hl i j a b Hij Hi Hj.
  - by rewrite lookup_nil in Hi.
  - destruct j as [|j]; [lia|]. simpl in Hj. destruct i as [|i].
    + injection Hi as <-.
      pose proof (locally_sorted_head cmp l x Htr Hl) as Hall.
      rewrite Forall_forall in Hall. apply Hall.
      by eapply list_elem_of_lookup_2.
    + simpl in Hi. refine (IH _ i j a b _ Hi Hj); [|lia].
      destruct l; [done|apply Hl].
Qed.

Lemma compare_leaves_orders localeCompare :
  orders localeCompare -> orders (compare_leaves localeCompare).
Proof.
  intros Hord a b. unfold compare_leaves.
  rewrite (String.eqb_sym (crit b) (crit a)).
  destruct (String.eqb (crit a) (crit b)); [lia|apply Hord].
Qed.

Lemma compare_leaves_chains localeCompare :
  total_order localeCompare -> chains (compare_leaves localeCompare).
Proof.
  intros (Hord & Htr & Hsep) a b c. unfold compare_leaves.
  destruct (String.eqb_spec (crit a) (crit b)) as [Hab|Hab];
    destruct (String.eqb_spec (crit b) (crit c)) as [Hbc|Hbc];
    destruct (String.eqb_spec (crit a) (crit c)) as [Hac|Hac];
    try congruence; try lia.
  - intros H1 H2. rewrite <- Hac in H2. destruct Hab. by apply Hsep.
  - apply Htr.
Qed.

Lemma codeunit_compare_total_order : total_order codeunit_compare.
Proof.
  assert (Hle : forall a b, codeunit_compare a b <= 0 ->
                            a = b \/ OrderedTypeEx.String_as_OT.lt a b).
  { intros a b. unfold codeunit_compare.
    destruct (String.compare a b) eqn:Hc; [left|right|lia].
    - by apply OrderedTypeEx.String_as_OT.cmp_eq.
    - by apply OrderedTypeEx.String_as_OT.cmp_lt. }
  assert (Hlt : forall a b, OrderedTypeEx.String_as_OT.lt a b ->
                            codeunit_compare a b = -1).
  { intros a b H. apply OrderedTypeEx.String_as_OT.cmp_lt in H.
    unfold codeunit_compare, OrderedTypeEx.String_as_OT.cmp in *.
    by rewrite H. }
  split; [|split].
  - intros a b. unfold codeunit_compare.
    pose proof (OrderedTypeEx.String_as_OT.cmp_antisym b a) as Hanti.
    unfold OrderedTypeEx.String_as_OT.cmp in Hanti. rewrite Hanti.
    destruct (String.compare a b); simpl; lia.
  - intros a b c Hab Hbc.
    destruct (Hle _ _ Hab) as [->|Hab']; [done|].
    destruct (Hle _ _ Hbc) as [<-|Hbc']; [done|].
    rewrite (Hlt a c); [lia|].
    by apply (OrderedTypeEx.String_as_OT.lt_trans a b c).
  - intros a b Hab Hba.
    destruct (Hle _ _ Hab) as [->|Hab']; [done|].
    destruct (Hle _ _ Hba) as [->|Hba']; [done|].
    destruct (OrderedTypeEx.String_as_OT.lt_not_eq a a); [|done].
    by apply (OrderedTypeEx.String_as_OT.lt_trans a b a).
Qed.

(** X8.  [getCheckedLeaves] returns the criteria of [allCriteria] that have
    no children and are checked, each as often as it is listed, and nothing
    else: a checked criterion with children, or a checked identity of no
    criterion, is not returned.  When [localeCompare] is a total order of the
    codes, the result is in order: by code, and within one code by ascending
    clause. *)
Theorem getCheckedLeaves_exact localeCompare e :
  leaf_cache_ok e ->
  Permutation (fst (getCheckedLeaves localeCompare e))
              (List.filter (checked_leaf e) (allCriteria e))
  /\ (total_order localeCompare ->
      in_order (compare_leaves localeCompare)
        (fst (getCheckedLeaves localeCompare e))).
Proof.
  intros Hleaf. unfold getCheckedLeaves.
  pose proof (checkedLeaves_filter_spec (allCriteria e) e Hleaf) as Hspec.
  destruct (checkedLeaves_filter (allCriteria e) e) as [kept e1].
  simpl in *. subst kept. split.
  - apply js_sort_perm.
  - intros Hord. apply locally_sorted_in_order.
    + by apply compare_leaves_chains.
    + apply js_sort_sorted, compare_leaves_orders, Hord.
Qed.

Lemma getCheckedLeaves_exact_witness :
  Permutation (fst (getCheckedLeaves codeunit_compare ex_mixed))
              (List.filter (checked_leaf ex_mixed) (allCriteria ex_mixed))
  /\ in_order (compare_leaves codeunit_compare)
       (fst (getCheckedLeaves codeunit_compare ex_mixed)).
Proof.
  assert (Hleaf : leaf_cache_ok ex_mixed).
  { intros id b H. vm_compute in H. discriminate. }
  destruct (getCheckedLeaves_exact codeunit_compare ex_mixed Hleaf) as [H1 H2].
  split; [exact H1|exact (H2 codeunit_compare_total_order)].
Defined.

(** ** The indices [buildIndices] computes *)

Lemma fold_explicit_root_spec code all : forall roots,
  oget (fold_left explicit_root all roots) code
  = match oget roots code with
    | Some r => Some r
    | None => explicit_root_of code all
    end.
Proof.
  unfold explicit_root_of.
  induction all as [|c all IH]; intros roots; simpl.
  - by destruct (oget roots code).
  - rewrite IH. unfold explicit_root.
    destruct (String.eqb (crit c) code) eqn:Hc; simpl.
    + apply String.eqb_eq in Hc as <-.
      destruct (has_parent_ref c); [done|].
      destruct (oget roots (crit c)) eqn:Hr; [by rewrite Hr|].
      by rewrite oget_oset, String.eqb_refl.
    + destruct (has_parent_ref c); [done|].
      destruct (oget roots (crit c)); [done|].
      by rewrite oget_oset, Hc.
Qed.

Lemma oget_cons {V} (m : JSObj V) k v k' :
  oget ((k, v) :: m) k' = if String.eqb k k' then Some v else oget m k'.
Proof. unfold oget. simpl. by destruct (String.eqb k k'). Qed.

Lemma fold_synthetic_spec code entries : forall st,
  oget (fst (fold_left add_synthetic_root entries st)) code
  = match oget (fst st) code with
    | Some r => Some r
    | None => (fun items => synthetic_root code (top_level items))
                <$> oget entries code
    end.
Proof.
  induction entries as [|[k items] entries IH]; intros st; simpl.
  - by destruct (oget (fst st) code).
  - rewrite IH, oget_cons.
    destruct (String.eqb k code) eqn:Hk.
    + apply String.eqb_eq in Hk as ->.
      destruct (oget (fst st) code) eqn:Hr; [by rewrite Hr|]. simpl.
      by rewrite oget_oset, String.eqb_refl.
    + destruct (oget (fst st) k); [done|]. simpl.
      by rewrite oget_oset, Hk.
Qed.

Lemma groupRoots_spec localeCompare data code :
  oget (groupRoots (built localeCompare data)) code
  = root_of code (allCriteria (built localeCompare data)).
Proof.
  pose proof (built_groups localeCompare data code) as Hg.
  destruct data as [d|]; [|done]. simpl in *.
  rewrite fold_synthetic_spec. simpl.
  rewrite fold_explicit_root_spec. simpl. unfold root_of.
  destruct (explicit_root_of code _); [done|].
  rewrite Hg. by destruct (members code _).
Qed.

(** X9.  In an engine made by [create], the root of a group is the first
    criterion of the group whose [parent_clause] is empty or 0; when the
    group has no such member, it is the synthetic root, whose combinator is
    that of the first member that names no clause of the group as parent, or
    OR when every member names one.  A code without criteria has no root.
    A criterion injected for an outcome counts as a criterion here. *)
Theorem groupRoots_closed_form localeCompare data e code :
  create localeCompare data = Some e ->
  oget (groupRoots e) code
  = match List.find (fun c => String.eqb (crit c) code
                              && match has_parent_ref c with
                                 | None => true
                                 | Some _ => false
                                 end) (allCriteria e) with
    | Some r => Some r
    | None =>
        match members code (allCriteria e) with
        | [] => None
        | g => Some (synthetic_root code (top_level g))
        end
    end.
Proof. intros ->%create_built. apply groupRoots_spec. Qed.

Lemma groupRoots_closed_form_witness :
  oget (groupRoots
          (engine_of (create codeunit_compare (Some ex_rootless_data)))) "B"
  = Some (synthetic_root "B" [input_criterion "B" 2 (Some 1) "AND"]).
Proof.
  exact (groupRoots_closed_form codeunit_compare (Some ex_rootless_data)
           _ "B" eq_refl).
Defined.

(** *** Dictionaries of lists filled by a loop *)

Lemma fold_push_spec {V} (step : gmap string (list V) -> V -> gmap string (list V))
    (key : V -> option string) :
  (forall m v, step m v = match key v with
                          | None => m
                          | Some k => <[k := default [] (m !! k) ++ [v]]> m
                          end) ->
  forall vs m k,
    fold_left step vs m !! k
    = match keyed key k vs with
      | [] => m !! k
      | l => Some (default [] (m !! k) ++ l)
      end.
Proof.
  intros Hstep. unfold keyed.
  induction vs as [|v vs IH]; intros m k; simpl; [done|].
  rewrite IH, Hstep. destruct (key v) as [k'|]; [|done].
  destruct (String.eqb k' k) eqn:Hk.
  - apply String.eqb_eq in Hk as ->. rewrite lookup_insert_eq. simpl.
    destruct (List.filter _ vs); [done|]. by rewrite <- app_assoc.
  - apply String.eqb_neq in Hk. by rewrite lookup_insert_ne.
Qed.

Lemma existsb_eqb_elem_of k (l : list string) :
  existsb (String.eqb k) l = true <-> k ∈ l.
Proof.
  rewrite existsb_exists. split.
  - intros (x & Hx & Hk). apply String.eqb_eq in Hk as ->.
    by apply list_elem_of_In.
  - intros H. exists k. split; [by apply list_elem_of_In|apply String.eqb_refl].
Qed.

Lemma okeys_oreplace {V} (m : JSObj V) k v :
  okeys (oreplace m k v) = okeys m.
Proof.
  unfold okeys. induction m as [|[k0 v0] m IH]; simpl; [done|].
  destruct (String.eqb k0 k); simpl; [done|]. by rewrite IH.
Qed.

Lemma okeys_oinsert {V} (m : JSObj V) k v :
  okeys (oinsert m k v) ≡ₚ k :: okeys m.
Proof.
  unfold okeys. induction m as [|[k0 v0] m IH]; simpl; [done|].
  destruct (key_before k k0); simpl; [done|].
  rewrite IH. apply perm_swap.
Qed.

Lemma NoDup_okeys_oset {V} (m : JSObj V) k v :
  NoDup (okeys m) -> NoDup (okeys (oset m k v)).
Proof.
  intros H. unfold oset.
  destruct (existsb (String.eqb k) (okeys m)) eqn:Hk.
  - by rewrite okeys_oreplace.
  - rewrite okeys_oinsert. apply NoDup_cons. split; [|done].
    intros Hin. apply existsb_eqb_elem_of in Hin. congruence.
Qed.

Lemma okeys_is_Some {V} (m : JSObj V) k : k ∈ okeys m -> is_Some (oget m k).
Proof.
  unfold okeys, oget. induction m as [|[k0 v0] m IH]; simpl.
  - intros H. by apply elem_of_nil in H.
  - intros H. destruct (String.eqb k0 k) eqn:Hk; simpl; [by eexists|].
    apply elem_of_cons in H as [->|H]; [|by apply IH].
    by rewrite String.eqb_refl in Hk.
Qed.

Lemma fold_push_plain_NoDup cs : forall m,
  NoDup (okeys m) -> NoDup (okeys (fold_left push_plain cs m)).
Proof.
  induction cs as [|c cs IH]; intros m H; simpl; [done|].
  by apply IH, NoDup_okeys_oset.
Qed.

Lemma fold_inject_outcome_NoDup outs : forall st,
  NoDup (okeys (snd st)) ->
  NoDup (okeys (snd (fold_left inject_outcome outs st))).
Proof.
  induction outs as [|[k o] outs IH]; intros st H; simpl; [done|].
  apply IH. destruct (oget (snd st) k); [done|].
  destruct (inherited k); [done|]. simpl.
  by apply NoDup_okeys_oset.
Qed.

Lemma create_codes_NoDup localeCompare data :
  NoDup (okeys (criteriaByCode (built localeCompare data))).
Proof.
  destruct data as [d|]; [|apply NoDup_nil_2]. simpl.
  apply fold_inject_outcome_NoDup. simpl.
  apply fold_push_plain_NoDup, NoDup_nil_2.
Qed.

Lemma inject_outcome_step st k o :
  inject_outcome st (k, o)
  = match oget (snd st) k with
    | Some _ => st
    | None =>
        if inherited k then st
        else (fst st ++ [outcome_criterion k o],
              oset (snd st) k [outcome_criterion k o])
    end.
Proof. reflexivity. Qed.

Lemma fold_inject_outcome_members code outs : forall st,
  groups_of (snd st) (fst st) ->
  members code (fst (fold_left inject_outcome outs st))
  = match members code (fst st) with
    | [] => match oget outs code with
            | Some o =>
                if inherited code then [] else [outcome_criterion code o]
            | None => []
            end
    | g => g
    end.
Proof.
  induction outs as [|[k o] outs IH]; intros st Hg.
  - simpl. by destruct (members code (fst st)).
  - change (fold_left inject_outcome ((k, o) :: outs) st)
      with (fold_left inject_outcome outs (inject_outcome st (k, o))).
    rewrite IH by by apply inject_outcome_groups.
    rewrite inject_outcome_step, oget_cons.
    pose proof (Hg k) as Hk.
    destruct (oget (snd st) k) as [g|] eqn:Hget.
    + destruct (String.eqb k code) eqn:Hkc; [|done].
      apply String.eqb_eq in Hkc as ->.
      by destruct (members code (fst st)).
    + destruct (inherited k) eqn:Hin.
      * destruct (String.eqb k code) eqn:Hkc; [|done].
        apply String.eqb_eq in Hkc as ->. rewrite Hin.
        destruct (members code (fst st)); [|done].
        by destruct (oget outs code).
      * cbn [fst]. rewrite members_app. cbn [crit outcome_criterion].
        destruct (String.eqb k code) eqn:Hkc.
        -- apply String.eqb_eq in Hkc as ->. rewrite Hin.
           by destruct (members code (fst st)).
        -- by rewrite app_nil_r.
Qed.

Lemma fold_inject_outcome_appends outs : forall st,
  exists injected,
    fst (fold_left inject_outcome outs st) = fst st ++ injected
    /\ Forall (fun c => origin c = FromOutcome /\ clause c = 1
                        /\ parent_clause c = None) injected.
Proof.
  induction outs as [|[k o] outs IH]; intros st.
  - exists []. by rewrite app_nil_r.
  - change (fold_left inject_outcome ((k, o) :: outs) st)
      with (fold_left inject_outcome outs (inject_outcome st (k, o))).
    destruct (IH (inject_outcome st (k, o))) as (inj & Heq & Hall).
    rewrite Heq, inject_outcome_step.
    destruct (oget (snd st) k); [by exists inj|].
    destruct (inherited k); [by exists inj|].
    exists (outcome_criterion k o :: inj). cbn [fst].
    rewrite <- app_assoc. split; [done|]. by constructor.
Qed.

(** *** The codes of a created engine *)

Lemma create_inv localeCompare data e :
  create localeCompare data = Some e ->
  e = built localeCompare data /\ plain_codes data.
Proof.
  intros H. split; [by apply create_built|].
  destruct data as [d|]; [|done]. by apply (create_plain_codes _ _ _ H).
Qed.

Lemma built_codes_plain localeCompare data code :
  plain_codes data ->
  code ∈ okeys (criteriaByCode (built localeCompare data)) ->
  inherited code = false.
Proof.
  intros Hplain Hcode. apply okeys_is_Some in Hcode as [g Hg].
  pose proof (built_groups localeCompare data code) as Hgr.
  rewrite Hg in Hgr.
  destruct data as [d|]; [|done]. simpl in Hplain.
  change (allCriteria (built localeCompare (Some d)))
    with (fst (fold_left inject_outcome (outcomes (loaded d))
                 (allCriteria (loaded d),
                  fold_left push_plain (allCriteria (loaded d)) [])))
    in Hgr.
  rewrite fold_inject_outcome_members in Hgr
    by (simpl; by apply (fold_push_plain_groups _ [] [])).
  cbn [fst] in Hgr.
  destruct (members code (allCriteria (loaded d))) as [|q l] eqn:Hm.
  - destruct (oget (outcomes (loaded d)) code); [|done].
    by destruct (inherited code).
  - assert (Hq : q ∈ members code (allCriteria (loaded d)))
      by (rewrite Hm; by left).
    apply elem_of_members in Hq as [Hq <-].
    by apply (proj1 (Forall_forall _ _) Hplain).
Qed.

(** *** [children_by_parent] *)

Lemma add_child_code_key allCodes m c :
  add_child_code allCodes m c
  = <[parent_key allCodes c :=
        default [] (m !! parent_key allCodes c) ++ [c]]> m.
Proof.
  unfold add_child_code, parent_key.
  by destruct (String.length c <=? 1)%nat.
Qed.

Lemma fold_add_child_code_spec allCodes codes m p :
  fold_left (add_child_code allCodes) codes m !! p
  = match keyed (fun c => Some (parent_key allCodes c)) p codes with
    | [] => m !! p
    | l => Some (default [] (m !! p) ++ l)
    end.
Proof. apply fold_push_spec. intros m' v. apply add_child_code_key. Qed.

Lemma children_by_parent_spec localeCompare d p :
  let e := built localeCompare (Some d) in
  default [] (children_by_parent e !! p)
  = keyed (fun c => Some (parent_key (okeys (criteriaByCode e)) c)) p
      (okeys (criteriaByCode e)).
Proof.
  simpl. rewrite fold_add_child_code_spec.
  destruct (keyed _ p _) eqn:Hl.
  - destruct (decide (p = "root")) as [->|Hp].
    + by rewrite lookup_singleton_eq.
    + by rewrite lookup_singleton_ne.
  - destruct (decide (p = "root")) as [->|Hp].
    + by rewrite lookup_singleton_eq.
    + by rewrite lookup_singleton_ne.
Qed.

Lemma elem_of_keyed {V} (key : V -> option string) k (vs : list V) v :
  v ∈ keyed key k vs <-> v ∈ vs /\ key v = Some k.
Proof.
  unfold keyed. rewrite !list_elem_of_In, List.filter_In.
  destruct (key v) as [k'|]; [|by intuition].
  rewrite String.eqb_eq. split; intros [? H]; split; congruence.
Qed.

Lemma keyed_nil {V} (key : V -> option string) k (vs : list V) :
  (forall v, v ∈ vs -> key v <> Some k) -> keyed key k vs = [].
Proof.
  intros H. destruct (keyed key k vs) as [|v l] eqn:Hk; [done|].
  assert (Hv : v ∈ keyed key k vs) by (rewrite Hk; by left).
  apply elem_of_keyed in Hv as [Hv Hkey]. by destruct (H v Hv).
Qed.

Lemma NoDup_keyed {V} (key : V -> option string) k (vs : list V) :
  NoDup vs -> NoDup (keyed key k vs).
Proof.
  intros H. apply NoDup_ListNoDup, List.NoDup_filter. by apply NoDup_ListNoDup.
Qed.

Lemma getCriterionByCode_built localeCompare data code :
  getCriterionByCode code (built localeCompare data)
  = head (members code (allCriteria (built localeCompare data))).
Proof.
  unfold getCriterionByCode.
  rewrite (built_groups localeCompare data code).
  by destruct (members code _).
Qed.

Lemma head_members code (cs : list Criterion) q :
  head (members code cs) = Some q -> q ∈ cs /\ crit q = code.
Proof.
  intros H. apply elem_of_members.
  destruct (members code cs) as [|x l]; [done|].
  injection H as ->. by left.
Qed.

Lemma create_code_has_members localeCompare data code :
  code ∈ okeys (criteriaByCode (built localeCompare data)) ->
  exists q, getCriterionByCode code (built localeCompare data) = Some q
            /\ crit q = code.
Proof.
  intros H. apply okeys_is_Some in H as [g Hg].
  pose proof (built_groups localeCompare data code) as Hgr.
  rewrite Hg in Hgr. rewrite getCriterionByCode_built.
  destruct (members code _) as [|q l] eqn:Hm; [done|].
  exists q. split; [done|].
  assert (Hq : q ∈ members code (allCriteria (built localeCompare data)))
    by (rewrite Hm; by left).
  by apply elem_of_members in Hq as [_ ?].
Qed.

Lemma omap_codes (f : string -> option Criterion) (l : list string) :
  (forall c, c ∈ l -> exists q, f c = Some q /\ crit q = c) ->
  crit <$> omap f l = l.
Proof.
  induction l as [|c l IH]; intros H; [done|].
  destruct (H c ltac:(by left)) as (q & Hf & Hq).
  change (omap f (c :: l))
    with (match f c with Some y => y :: omap f l | None => omap f l end).
  rewrite Hf, fmap_cons, Hq, IH; [done|]. intros x Hx. apply H. by right.
Qed.

Lemma js_or_plain a :
  inherited a = false \/ a = "" -> inherited (js_or (Some a) "root") = false.
Proof. intros [H| ->]; [|done]. by destruct a. Qed.

Lemma built_children_plain localeCompare data p :
  plain_codes data -> inherited p = true ->
  children_by_parent (built localeCompare data) !! p = None.
Proof.
  intros Hplain Hp. destruct data as [d|]; [|done].
  set (e := built localeCompare (Some d)).
  change (children_by_parent e)
    with (fold_left (add_child_code (okeys (criteriaByCode e)))
            (okeys (criteriaByCode e)) {["root" := []]}).
  rewrite fold_add_child_code_spec.
  assert (Hroot : p <> "root") by (by intros ->).
  rewrite lookup_singleton_ne by done.
  rewrite keyed_nil; [done|].
  intros c _ [= Hkey]. unfold parent_key in Hkey.
  destruct (String.length c <=? 1)%nat; [congruence|].
  pose proof (slice_last_length c) as Hlen.
  destruct (nearest_ancestor_exit (okeys (criteriaByCode e))
              (String.length c) (slice_last c) ltac:(lia)) as [Hnil|Hex].
  - destruct (nearest_ancestor _ _ _); [by subst p|by simpl in Hnil].
  - apply existsb_eqb_elem_of in Hex.
    apply (built_codes_plain _ _ _ Hplain) in Hex.
    rewrite <- Hkey, js_or_plain in Hp; [done|by left].
Qed.

(** X10.  In the engine [create] returns, [getDirectChildren] of a parent
    code that names no inherited property returns one criterion for each
    code that [children_by_parent] lists under the parent, in the order of
    the list: the first criterion of [allCriteria] with that code.  The
    filter for missing groups drops nothing, and no code is listed twice.
    For a parent code that names an inherited property the call throws. *)
Theorem getDirectChildren_codes localeCompare data e p :
  create localeCompare data = Some e ->
  (if inherited p then getDirectChildren p e = None
   else exists l,
          getDirectChildren p e = Some l
          /\ crit <$> l = default [] (children_by_parent e !! p)
          /\ Forall (fun q => head (members (crit q) (allCriteria e)) = Some q)
               l)
  /\ NoDup (default [] (children_by_parent e !! p)).
Proof.
  intros [-> Hplain]%create_inv.
  set (e := built localeCompare data).
  assert (Hin : forall c, c ∈ default [] (children_by_parent e !! p) ->
                          c ∈ okeys (criteriaByCode e)).
  { destruct data as [d|]; [|intros c Hc; by apply elem_of_nil in Hc].
    intros c. unfold e. rewrite children_by_parent_spec.
    intros Hc. by apply elem_of_keyed in Hc as [? _]. }
  split.
  - destruct (inherited p) eqn:Hp.
    + pose proof (built_children_plain localeCompare data p Hplain Hp)
        as Hnone.
      fold e in Hnone. unfold getDirectChildren. by rewrite Hnone, Hp.
    + exists (omap (fun code => getCriterionByCode code e)
                (default [] (children_by_parent e !! p))).
      split; [|split].
      * unfold getDirectChildren. rewrite Hp.
        by destruct (children_by_parent e !! p).
      * apply omap_codes.
        intros c Hc. by apply create_code_has_members, Hin.
      * apply Forall_forall. intros q Hq.
        apply list_elem_of_omap in Hq as (c & Hc & Hq).
        unfold e in Hq. rewrite getCriterionByCode_built in Hq.
        destruct (head_members _ _ _ Hq) as [_ ->]. exact Hq.
  - destruct data as [d|]; [|apply NoDup_nil_2].
    unfold e. rewrite children_by_parent_spec.
    apply NoDup_keyed, create_codes_NoDup.
Qed.

Lemma getDirectChildren_codes_witness :
  let e := engine_of (create codeunit_compare (Some ex_outcome_data)) in
  getDirectChildren "constructor" e = None
  /\ (exists l,
        getDirectChildren "A" e = Some l
        /\ crit <$> l = default [] (children_by_parent e !! "A")
        /\ Forall (fun q => head (members (crit q) (allCriteria e)) = Some q)
             l).
Proof.
  split.
  - exact (proj1 (getDirectChildren_codes codeunit_compare
                    (Some ex_outcome_data) _ "constructor" eq_refl)).
  - exact (proj1 (getDirectChildren_codes codeunit_compare
                    (Some ex_outcome_data) _ "A" eq_refl)).
Defined.

(** *** The nearest ancestor of a code *)

Lemma substring_0_full s : String.substring 0 (String.length s) s = s.
Proof. induction s as [|a s IH]; simpl; [done|]. by rewrite IH. Qed.

Lemma substring_0_substring s : forall k m,
  (k <= m)%nat ->
  String.substring 0 k (String.substring 0 m s) = String.substring 0 k s.
Proof.
  induction s as [|a s IH]; intros [|k] [|m] H; simpl; try done; try lia.
  rewrite IH; [done|lia].
Qed.

Lemma nearest_ancestor_spec allCodes : forall n a,
  (String.length a <= n)%nat ->
  exists k,
    (k <= String.length a)%nat
    /\ nearest_ancestor n allCodes a = String.substring 0 k a
    /\ (k = 0%nat \/ String.substring 0 k a ∈ allCodes)
    /\ forall j, (k < j <= String.length a)%nat ->
                 String.substring 0 j a ∉ allCodes.
Proof.
  induction n as [|n IH]; intros a Hlen.
  - exists 0%nat. destruct a; simpl in *; [|lia].
    repeat split; [lia|by left|lia].
  - simpl. destruct (0 <? String.length a)%nat eqn:Hpos; simpl.
    + apply Nat.ltb_lt in Hpos.
      destruct (existsb (String.eqb a) allCodes) eqn:Hex; simpl.
      * exists (String.length a). rewrite substring_0_full.
        split; [lia|]. split; [done|]. split; [|lia].
        right. by apply existsb_eqb_elem_of.
      * destruct (IH (slice_last a)) as (k & Hk & Hres & Hin & Hnone).
        { rewrite slice_last_length. lia. }
        rewrite slice_last_length in Hk, Hnone. unfold slice_last in *.
        rewrite substring_0_substring in Hres, Hin by lia.
        exists k. split; [lia|]. split; [done|]. split; [done|].
        intros j Hj.
        destruct (decide (j = String.length a)) as [->|Hne].
        -- rewrite substring_0_full. intros Hin'.
           apply existsb_eqb_elem_of in Hin'. congruence.
        -- specialize (Hnone j ltac:(lia)).
           by rewrite substring_0_substring in Hnone by lia.
    + apply Nat.ltb_ge in Hpos. exists 0%nat.
      destruct a; simpl in *; [|lia]. repeat split; [lia|by left|lia].
Qed.

Lemma parent_key_spec allCodes c :
  exists k,
    (k <= String.length c - 1)%nat
    /\ parent_key allCodes c = js_or (Some (String.substring 0 k c)) "root"
    /\ (k = 0%nat \/ String.substring 0 k c ∈ allCodes)
    /\ forall j, (k < j <= String.length c - 1)%nat ->
                 String.substring 0 j c ∉ allCodes.
Proof.
  unfold parent_key. destruct (String.length c <=? 1)%nat eqn:Hlen.
  - apply Nat.leb_le in Hlen. exists 0%nat.
    split; [lia|]. split; [by destruct c|]. split; [by left|lia].
  - apply Nat.leb_gt in Hlen.
    destruct (nearest_ancestor_spec allCodes (String.length c) (slice_last c))
      as (k & Hk & Hres & Hin & Hnone).
    { rewrite slice_last_length. lia. }
    rewrite slice_last_length in Hk, Hnone. unfold slice_last in *.
    rewrite substring_0_substring in Hres, Hin by lia.
    exists k. split; [done|]. split; [by rewrite Hres|]. split; [done|].
    intros j Hj. specialize (Hnone j Hj).
    by rewrite substring_0_substring in Hnone by lia.
Qed.

Lemma prefix_substring a c :
  String.prefix a c = true <-> String.substring 0 (String.length a) c = a.
Proof. apply String.prefix_correct. Qed.

(** X11.  In [children_by_parent], a group code is listed under its nearest
    ancestor: the longest prefix of the code, shorter than the code, that is
    itself a group code, and under [root] when no prefix is one (as for
    every code of length at most 1).  It is listed under no other key. *)
Theorem children_by_parent_nearest localeCompare d e c p :
  create localeCompare (Some d) = Some e ->
  let allCodes := okeys (criteriaByCode e) in
  c ∈ default [] (children_by_parent e !! p)
  <-> c ∈ allCodes
      /\ exists a,
           p = js_or (Some a) "root"
           /\ String.prefix a c = true
           /\ (String.length a <= String.length c - 1)%nat
           /\ (a = "" \/ a ∈ allCodes)
           /\ forall b, String.prefix b c = true ->
                        (String.length a < String.length b
                         <= String.length c - 1)%nat ->
                        b ∉ allCodes.
Proof.
  intros ->%create_built allCodes.
  set (e := built localeCompare (Some d)) in *.
  unfold e at 1. rewrite children_by_parent_spec.
  fold e. fold allCodes. rewrite elem_of_keyed.
  destruct (parent_key_spec allCodes c) as (k & Hk & Hkey & Hin & Hnone).
  assert (Hlen : String.length (String.substring 0 k c) = k)
    by (apply substring_0_length; lia).
  split.
  - intros [Hc [= Hp]]. split; [done|].
    exists (String.substring 0 k c). rewrite Hlen.
    split; [congruence|]. split; [apply prefix_substring; by rewrite Hlen|].
    split; [done|]. split.
    + destruct Hin as [->|Hin]; [left; by destruct c|by right].
    + intros b Hb Hj. apply prefix_substring in Hb. rewrite <- Hb.
      by apply Hnone.
  - intros [Hc (a & -> & Ha & Hla & Hina & Hnonea)]. split; [done|].
    f_equal. rewrite Hkey. f_equal. f_equal.
    apply prefix_substring in Ha.
    destruct (Nat.lt_trichotomy k (String.length a)) as [Hlt|[Heq|Hgt]].
    + destruct Hina as [->|Hina]; [simpl in Hlt; lia|].
      destruct (Hnone (String.length a) ltac:(lia)). by rewrite Ha.
    + by rewrite Heq.
    + destruct Hin as [->|Hin]; [lia|].
      destruct (Hnonea (String.substring 0 k c)); [| |done].
      * apply prefix_substring. by rewrite Hlen.
      * rewrite Hlen. lia.
Qed.

Lemma children_by_parent_nearest_witness :
  let e := engine_of (create codeunit_compare (Some ex_outcome_data)) in
  let allCodes := okeys (criteriaByCode e) in
  "AB" ∈ default [] (children_by_parent e !! "A")
  <-> "AB" ∈ allCodes
      /\ exists a,
           "A" = js_or (Some a) "root"
           /\ String.prefix a "AB" = true
           /\ (String.length a <= String.length "AB" - 1)%nat
           /\ (a = "" \/ a ∈ allCodes)
           /\ forall b, String.prefix b "AB" = true ->
                        (String.length a < String.length b
                         <= String.length "AB" - 1)%nat ->
                        b ∉ allCodes.
Proof.
  exact (children_by_parent_nearest codeunit_compare ex_outcome_data _
           "AB" "A" eq_refl).
Defined.

Lemma parent_key_existing allCodes c :
  (1 < String.length c)%nat -> slice_last c ∈ allCodes ->
  parent_key allCodes c = slice_last c.
Proof.
  intros Hlen Hin. unfold parent_key.
  destruct (String.length c <=? 1)%nat eqn:Hle;
    [apply Nat.leb_le in Hle; lia|].
  pose proof (slice_last_length c) as Hsl.
  destruct (String.length c) as [|n] eqn:Hn; [lia|]. simpl.
  apply existsb_eqb_elem_of in Hin. rewrite Hin, andb_false_r.
  destruct (slice_last c); [simpl in Hsl; lia|done].
Qed.

(** X12.  What [getParent] finds is a parent in [children_by_parent] too:
    when [getParent] of a group's code returns a criterion, the group's
    first criterion is among the [getDirectChildren] of that criterion's
    code. *)
Theorem getParent_lists_child localeCompare data e code q c :
  create localeCompare data = Some e ->
  getParent code e = Some q ->
  getCriterionByCode code e = Some c ->
  exists l, getDirectChildren (crit q) e = Some l /\ c ∈ l.
Proof.
  intros ->%create_built.
  set (e := built localeCompare data).
  intros Hparent Hc. unfold getParent in Hparent.
  destruct (String.length code <=? 1)%nat eqn:Hlen; [done|].
  apply Nat.leb_gt in Hlen.
  destruct data as [d|]; [|done].
  assert (Hkey : forall x y, getCriterionByCode x e = Some y ->
                             x ∈ okeys (criteriaByCode e) /\ crit y = x).
  { intros x y H. split.
    - unfold getCriterionByCode in H.
      destruct (oget (criteriaByCode e) x) eqn:Hx; [|done].
      by apply oget_key in Hx.
    - unfold e in H. rewrite getCriterionByCode_built in H.
      by apply head_members in H as [_ ?]. }
  destruct (Hkey _ _ Hparent) as [Hp Hq]. destruct (Hkey _ _ Hc) as [Hcode _].
  assert (Hlisted : code ∈ default [] (children_by_parent e !! crit q)).
  { unfold e at 1. rewrite children_by_parent_spec.
    apply elem_of_keyed. split; [done|].
    rewrite Hq. f_equal. by apply parent_key_existing. }
  unfold getDirectChildren.
  destruct (children_by_parent e !! crit q) as [childCodes|];
    [|by apply elem_of_nil in Hlisted].
  eexists. split; [done|].
  apply list_elem_of_omap. by exists code.
Qed.

Lemma getParent_lists_child_witness :
  exists l,
    getDirectChildren "A"
      (engine_of (create codeunit_compare
         (data_of [input_criterion "A" 1 None "OR";
                   input_criterion "AA" 1 None "OR";
                   input_criterion "AAA" 1 None "OR"]))) = Some l
    /\ input_criterion "AA" 1 None "OR" ∈ l.
Proof.
  apply (getParent_lists_child codeunit_compare
           (data_of [input_criterion "A" 1 None "OR";
                     input_criterion "AA" 1 None "OR";
                     input_criterion "AAA" 1 None "OR"]) _
           "AA" (input_criterion "A" 1 None "OR")
           (input_criterion "AA" 1 None "OR")); reflexivity.
Defined.

(** *** [groupedCriteria] *)

Lemma add_to_group_groups m cs c :
  display_groups_of m cs -> display_groups_of (add_to_group m c) (cs ++ [c]).
Proof.
  intros H code. unfold add_to_group. fold (group_key c).
  rewrite oget_oset. unfold grouped. rewrite List.filter_app. simpl.
  fold (grouped code cs).
  destruct (String.eqb (group_key c) code) eqn:Hc.
  - apply String.eqb_eq in Hc as <-. rewrite (H (group_key c)).
    by destruct (grouped (group_key c) cs).
  - rewrite app_nil_r. apply H.
Qed.

Lemma fold_add_to_group_groups cs : forall m cs0,
  display_groups_of m cs0 ->
  display_groups_of (fold_left add_to_group cs m) (cs0 ++ cs).
Proof.
  induction cs as [|c cs IH]; intros m cs0 H; simpl.
  - by rewrite app_nil_r.
  - rewrite (cons_middle c cs0 cs), app_assoc.
    by apply IH, add_to_group_groups.
Qed.

Lemma fold_add_to_group_NoDup cs : forall m,
  NoDup (okeys m) -> NoDup (okeys (fold_left add_to_group cs m)).
Proof.
  induction cs as [|c cs IH]; intros m H; simpl; [done|].
  by apply IH, NoDup_okeys_oset.
Qed.

Lemma elem_of_ovalues {V} (m : JSObj V) v :
  NoDup (okeys m) -> v ∈ ovalues m <-> exists k, oget m k = Some v.
Proof.
  intros Hnd. split; [|intros [k Hk]; by apply (oget_elem_of _ k)].
  unfold ovalues, okeys in *.
  induction m as [|[k0 v0] m IH]; simpl.
  - intros H. by apply elem_of_nil in H.
  - apply NoDup_cons in Hnd as [Hk0 Hnd]. simpl in Hk0.
    intros H. apply elem_of_cons in H as [->|H].
    + exists k0. by rewrite oget_cons, String.eqb_refl.
    + destruct (IH Hnd H) as [k Hk]. exists k. rewrite oget_cons.
      destruct (String.eqb k0 k) eqn:Hkk; [|done].
      apply String.eqb_eq in Hkk as ->. destruct Hk0.
      by apply (oget_key _ _ v).
Qed.

Lemma display_groups_codes (m : JSObj Group) cs :
  display_groups_of m cs -> NoDup (okeys m) -> g_code <$> ovalues m = okeys m.
Proof.
  intros H Hnd.
  assert (Hent : forall k g, (k, g) ∈ m -> g_code g = k).
  { intros k g Hin.
    assert (Hget : oget m k = Some g).
    { clear H. unfold okeys in Hnd.
      induction m as [|[k0 g0] m IH]; [by apply elem_of_nil in Hin|].
      apply NoDup_cons in Hnd as [Hk0 Hnd]. simpl in Hk0.
      rewrite oget_cons. apply elem_of_cons in Hin as [[= -> ->]|Hin].
      - by rewrite String.eqb_refl.
      - destruct (String.eqb k0 k) eqn:Hkk; [|by apply IH].
        apply String.eqb_eq in Hkk as ->. destruct Hk0.
        apply list_elem_of_fmap. by exists (k, g). }
    rewrite (H k) in Hget. destruct (grouped k cs); [done|].
    by injection Hget as <-. }
  clear H Hnd. unfold ovalues, okeys.
  induction m as [|[k g] m IH]; [done|]. simpl.
  rewrite (Hent k g) by by left. f_equal.
  apply IH. intros k' g' Hin. apply Hent. by right.
Qed.

Lemma compare_groups_orders localeCompare :
  orders localeCompare -> orders (compare_groups localeCompare).
Proof.
  intros Hord a b. unfold compare_groups.
  rewrite (Nat.eqb_sym (String.length (g_code b))).
  destruct (String.length (g_code a) =? String.length (g_code b))%nat;
    [apply Hord|lia].
Qed.

Lemma compare_groups_chains localeCompare :
  chains localeCompare -> chains (compare_groups localeCompare).
Proof.
  intros Htr a b c. unfold compare_groups.
  destruct (Nat.eqb_spec (String.length (g_code a)) (String.length (g_code b)));
    destruct (Nat.eqb_spec (String.length (g_code b))
                (String.length (g_code c)));
    destruct (Nat.eqb_spec (String.length (g_code a))
                (String.length (g_code c)));
    try lia.
  apply Htr.
Qed.

(** X13.  [groupedCriteria] partitions [allCriteria]: it holds one group for
    each code that occurs ([Other] standing for the empty code), the items
    of a group are the criteria of that code in the order of [allCriteria],
    and no group is empty.  When [localeCompare] is a total order, the
    groups are in order: shorter codes first, and codes of one length as
    [localeCompare] places them. *)
Theorem groupedCriteria_partition localeCompare data e :
  create localeCompare data = Some e ->
  (forall g, g ∈ groupedCriteria e
             <-> g_items g <> []
                 /\ g_items g
                    = List.filter
                        (fun c => String.eqb (js_or (Some (crit c)) "Other")
                                    (g_code g)) (allCriteria e))
  /\ NoDup (g_code <$> groupedCriteria e)
  /\ (total_order localeCompare ->
      in_order (compare_groups localeCompare) (groupedCriteria e)).
Proof.
  intros ->%create_built.
  set (e := built localeCompare data).
  set (groups := fold_left add_to_group (allCriteria e) []).
  assert (Hsorted : groupedCriteria e
                    = js_sort (compare_groups localeCompare) (ovalues groups))
    by by destruct data.
  assert (Hg : display_groups_of groups (allCriteria e)).
  { apply (fold_add_to_group_groups _ [] []). done. }
  assert (Hnd : NoDup (okeys groups))
    by apply fold_add_to_group_NoDup, NoDup_nil_2.
  assert (Hperm : Permutation (groupedCriteria e) (ovalues groups))
    by (rewrite Hsorted; apply js_sort_perm).
  split; [|split].
  - intros g. rewrite Hperm, (elem_of_ovalues _ _ Hnd). split.
    + intros [k Hk]. rewrite (Hg k) in Hk.
      destruct (grouped k (allCriteria e)) eqn:Hgr; [done|].
      injection Hk as <-. simpl. split; [done|]. by rewrite <- Hgr.
    + intros [Hne Hitems]. exists (g_code g). rewrite (Hg (g_code g)).
      unfold grouped, group_key. rewrite <- Hitems.
      destruct g as [code items]. simpl in *. by destruct items.
  - rewrite Hperm, (display_groups_codes _ _ Hg Hnd). exact Hnd.
  - intros (Hord & Htr & _). rewrite Hsorted.
    apply locally_sorted_in_order; [by apply compare_groups_chains|].
    by apply js_sort_sorted, compare_groups_orders.
Qed.

Lemma groupedCriteria_partition_witness :
  in_order (compare_groups codeunit_compare) (groupedCriteria ex_gap).
Proof.
  apply (groupedCriteria_partition codeunit_compare
           (data_of [input_criterion "A" 1 None "OR";
                     input_criterion "AAA" 1 None "OR"])
           (engine_of
              (create codeunit_compare
                 (data_of [input_criterion "A" 1 None "OR";
                           input_criterion "AAA" 1 None "OR"])))).
  - reflexivity.
  - exact codeunit_compare_total_order.
Defined.

(** ** The classification helpers *)

Lemma levelName_table i :
  (i < 4)%nat -> levelNames !! i = Some (levelName (i + 1)).
Proof.
  intros H. unfold levelName. replace (i + 1 - 1)%nat with i by lia.
  do 4 (destruct i as [|i]; [done|]). lia.
Qed.

Lemma levelName_in_table i :
  (0 < i <= 4)%nat -> js_or (levelNames !! (i - 1)%nat) "" = levelName i.
Proof.
  intros H. unfold levelName.
  do 5 (destruct i as [|i]; [first [lia|reflexivity]|]). lia.
Qed.

Lemma nameOf_grows e e' code : grows e e' -> nameOf e' code = nameOf e code.
Proof.
  intros (Hi & _). unfold nameOf.
  assert (codeNames e' = codeNames e) as -> by (unfold indices in Hi; congruence).
  done.
Qed.

(** X14.  When the current level is the non-empty code [cur] of length [n],
    [getClassificationPath] returns [min (n + 1) 4] entries.  Entry [i]
    carries the [i]-th of the four level names, so the fallback name
    [Level i] is never used; the first [min n 4] entries are satisfied and
    hold the prefixes of [cur] with their names, and for [n < 4] one entry
    [?] follows that is not satisfied.  For [n <= 4] the last satisfied entry
    holds what [getCurrentClassification] and [getClassificationLevel]
    return; for a longer code the path stops at the prefix of length 4 and
    [getClassificationLevel] returns the empty string. *)
Theorem getClassificationPath_shape fuel e cur e' :
  findCurrentLevel fuel e = Some (Some cur, e') -> cur <> "" ->
  let n := String.length cur in
  exists path,
    getClassificationPath fuel e = Some (path, e')
    /\ length path = Nat.min (n + 1) 4
    /\ (forall i entry, path !! i = Some entry ->
          levelNames !! i = Some (p_levelName entry)
          /\ p_satisfied entry = (i <? n)%nat
          /\ p_code entry
             = (if (i <? n)%nat then String.substring 0 (i + 1) cur else "?")
          /\ p_name entry
             = (if (i <? n)%nat then nameOf e (p_code entry) else Text "—"))
    /\ ((n <= 4)%nat ->
        exists entry,
          path !! (n - 1)%nat = Some entry /\ p_code entry = cur
          /\ getCurrentClassification fuel e = Some (p_name entry, e')
          /\ getClassificationLevel fuel e = Some (p_levelName entry, e'))
    /\ ((4 < n)%nat ->
        getClassificationLevel fuel e = Some ("", e')
        /\ forall entry, entry ∈ path -> p_code entry <> cur).
Proof.
  intros Hlevel Hne n.
  pose proof (findCurrentLevel_growing fuel e _ _ Hlevel) as Hgrow.
  assert (Hpos : (0 < n)%nat) by (unfold n; destruct cur; [done|simpl; lia]).
  assert (Htruthy : code_truthy (Some cur) = Some cur)
    by by apply code_truthy_Some.
  unfold getClassificationPath, getCurrentClassification,
    getClassificationLevel.
  rewrite Hlevel, Htruthy. fold n.
  set (f := fun i => {| p_code := String.substring 0 i cur;
                        p_name := nameOf e' (String.substring 0 i cur);
                        p_levelName := levelName i; p_satisfied := true |}).
  set (pending := if (n <? 4)%nat
                  then [ {| p_code := "?"; p_name := Text "—";
                            p_levelName := levelName (n + 1);
                            p_satisfied := false |} ]
                  else []).
  assert (Hlookup : forall i entry,
            (map f (seq 1 (Nat.min n 4)) ++ pending) !! i = Some entry ->
            ((i < Nat.min n 4)%nat /\ entry = f (i + 1)%nat)
            \/ ((n < 4)%nat /\ i = n
                /\ entry = {| p_code := "?"; p_name := Text "—";
                              p_levelName := levelName (n + 1);
                              p_satisfied := false |})).
  { intros i entry Hi. apply lookup_app_Some in Hi as [Hi|[Hge Hi]].
    - left.
      change (map f (seq 1 (Nat.min n 4)))
        with (f <$> seq 1 (Nat.min n 4)) in Hi.
      rewrite list_lookup_fmap in Hi.
      destruct (seq 1 (Nat.min n 4) !! i) as [j|] eqn:Hj; [|done].
      apply lookup_seq in Hj as [-> Hlt]. injection Hi as <-.
      split; [done|]. f_equal. lia.
    - right. rewrite length_map, length_seq in Hge, Hi. unfold pending in Hi.
      destruct (n <? 4)%nat eqn:Hn; [|by rewrite lookup_nil in Hi].
      apply Nat.ltb_lt in Hn.
      destruct (i - Nat.min n 4)%nat as [|k] eqn:Hk; [|done].
      injection Hi as <-. repeat split; lia. }
  eexists. split; [reflexivity|]. split; [|split; [|split]].
  - rewrite length_app, length_map, length_seq. unfold pending.
    destruct (n <? 4)%nat eqn:Hn; simpl.
    + apply Nat.ltb_lt in Hn. lia.
    + apply Nat.ltb_ge in Hn. lia.
  - intros i entry Hi.
    destruct (Hlookup i entry Hi) as [[Hlt ->]|(Hn & -> & ->)]; simpl.
    + assert (Hin : (i <? n)%nat = true) by (apply Nat.ltb_lt; lia).
      rewrite Hin. split; [apply levelName_table; lia|].
      split; [done|]. split; [done|]. by apply nameOf_grows.
    + rewrite Nat.ltb_irrefl. split; [by apply levelName_table|done].
  - intros Hn. exists (f n). split; [|split; [|split]].
    + apply lookup_app_Some. left.
      change (map f (seq 1 (Nat.min n 4))) with (f <$> seq 1 (Nat.min n 4)).
      rewrite list_lookup_fmap.
      rewrite (proj2 (lookup_seq 1 (Nat.min n 4) (n - 1) n)); [done|lia].
    + apply substring_0_full.
    + simpl. unfold n. by rewrite substring_0_full.
    + simpl. f_equal. f_equal. apply levelName_in_table. lia.
  - intros Hn. split.
    + rewrite lookup_ge_None_2; [done|]. simpl. lia.
    + intros entry Hin. apply list_elem_of_lookup in Hin as [i Hi].
      destruct (Hlookup i entry Hi) as [[Hlt ->]|(Hn' & _)]; [|lia].
      simpl. intros Heq. apply (f_equal String.length) in Heq.
      rewrite substring_0_length in Heq by lia. fold n in Heq. lia.
Qed.

Lemma getClassificationPath_shape_witness :
  exists path,
    (fst <$> getClassificationPath 5 ex_gap) = Some path
    /\ length path = 4%nat.
Proof.
  destruct (getClassificationPath_shape 5 ex_gap "AAA"
              (match findCurrentLevel 5 ex_gap with
               | Some (_, e') => e'
               | None => ex_gap
               end))
    as (path & Hpath & Hlen & _); [reflexivity|done|].
  exists path. rewrite Hpath. by split.
Defined.

(** ** The links from a criterion to its children *)

Lemma link_child_key byCode m c :
  link_child byCode m c
  = match resolve_parent byCode c with
    | None => m
    | Some id => <[id := default [] (m !! id) ++ [c]]> m
    end.
Proof.
  unfold link_child, resolve_parent.
  destruct (has_parent_ref c); [|done].
  destruct (oget byCode (crit c)); [|done].
  by destruct (List.find _ _).
Qed.

Lemma resolve_parent_groups byCode input c :
  groups_of byCode input -> resolve_parent byCode c = parent_id input c.
Proof.
  intros H. unfold resolve_parent, parent_id.
  destruct (has_parent_ref c); [|done].
  rewrite (H (crit c)). by destruct (members (crit c) input).
Qed.

Lemma keyed_ext {V} (key key' : V -> option string) k (vs : list V) :
  (forall v, key v = key' v) -> keyed key k vs = keyed key' k vs.
Proof.
  intros H. unfold keyed. apply List.filter_ext. intros v. by rewrite H.
Qed.

Lemma fold_link_child_spec input id :
  fold_left (link_child (fold_left push_plain input [])) input ∅ !! id
  = match keyed (parent_id input) id input with
    | [] => None
    | l => Some l
    end.
Proof.
  rewrite (fold_push_spec _ (resolve_parent (fold_left push_plain input [])))
    by (intros m v; apply link_child_key).
  rewrite (keyed_ext _ (parent_id input)).
  - by rewrite lookup_empty.
  - intros v. apply resolve_parent_groups.
    by apply (fold_push_plain_groups input [] []).
Qed.

Lemma find_ext_in {A} (f g : A -> bool) (l : list A) :
  (forall x, x ∈ l -> f x = g x) -> List.find f l = List.find g l.
Proof.
  induction l as [|x l IH]; intros H; simpl; [done|].
  rewrite (H x) by by left. destruct (g x); [done|].
  apply IH. intros y Hy. apply H. by right.
Qed.

Lemma find_none_all {A} (f : A -> bool) (l : list A) :
  (forall x, x ∈ l -> f x = false) -> List.find f l = None.
Proof.
  induction l as [|x l IH]; intros H; simpl; [done|].
  rewrite (H x) by by left. apply IH. intros y Hy. apply H. by right.
Qed.

Lemma fold_synthetic_children id entries : forall st,
  NoDup (okeys entries) ->
  snd (fold_left add_synthetic_root entries st) !! id
  = match List.find (fun entry => String.eqb (fst entry +:+ "_0") id
                                  && match oget (fst st) (fst entry) with
                                     | None => true
                                     | Some _ => false
                                     end) entries with
    | Some entry => Some (top_level (snd entry))
    | None => snd st !! id
    end.
Proof.
  induction entries as [|[k items] entries IH]; intros st Hnd; [done|].
  apply NoDup_cons in Hnd as [Hk Hnd]. simpl in Hk.
  change (fold_left add_synthetic_root ((k, items) :: entries) st)
    with (fold_left add_synthetic_root entries
            (add_synthetic_root st (k, items))).
  rewrite (IH _ Hnd). cbn [List.find fst snd].
  unfold add_synthetic_root at 1 2.
  destruct (oget (fst st) k) eqn:Hroot.
  - by rewrite andb_false_r.
  - rewrite andb_true_r. cbn [fst snd]. rewrite synthetic_root_id.
    assert (Hsame : forall id',
      List.find (fun entry => String.eqb (fst entry +:+ "_0") id'
                   && match oget (oset (fst st) k
                                    (synthetic_root k (top_level items)))
                              (fst entry) with
                      | None => true
                      | Some _ => false
                      end) entries
      = List.find (fun entry => String.eqb (fst entry +:+ "_0") id'
                     && match oget (fst st) (fst entry) with
                        | None => true
                        | Some _ => false
                        end) entries).
    { intros id'. apply find_ext_in. intros [k' items'] Hin. simpl.
      rewrite oget_oset. destruct (String.eqb k k') eqn:Hkk; [|done].
      apply String.eqb_eq in Hkk as <-. destruct Hk.
      apply list_elem_of_fmap. by exists (k, items'). }
    rewrite Hsame. destruct (String.eqb (k +:+ "_0") id) eqn:Hid.
    + apply String.eqb_eq in Hid as <-.
      rewrite find_none_all; [by rewrite lookup_insert_eq|].
      intros [k' items'] Hin. simpl.
      destruct (String.eqb (k' +:+ "_0") (k +:+ "_0")) eqn:Hkk; [|done].
      apply String.eqb_eq, append_inj_r in Hkk as ->. destruct Hk.
      apply list_elem_of_fmap. by exists (k, items').
    + apply String.eqb_neq in Hid.
      destruct (List.find _ entries); [done|]. by rewrite lookup_insert_ne.
Qed.

Lemma NoDup_oget_entry {V} (m : JSObj V) k v :
  NoDup (okeys m) -> (k, v) ∈ m -> oget m k = Some v.
Proof.
  unfold okeys. induction m as [|[k0 v0] m IH]; intros Hnd Hin;
    [by apply elem_of_nil in Hin|].
  apply NoDup_cons in Hnd as [Hk0 Hnd]. simpl in Hk0.
  rewrite oget_cons. apply elem_of_cons in Hin as [[= -> ->]|Hin].
  - by rewrite String.eqb_refl.
  - destruct (String.eqb k0 k) eqn:Hkk; [|by apply IH].
    apply String.eqb_eq in Hkk as ->. destruct Hk0.
    apply list_elem_of_fmap. by exists (k, v).
Qed.

Lemma clauseChildrenMap_spec localeCompare d id :
  let e := built localeCompare (Some d) in
  clauseChildrenMap e !! id
  = match List.find (fun entry => String.eqb (fst entry +:+ "_0") id
                                  && rootless (allCriteria e) (fst entry))
            (criteriaByCode e) with
    | Some entry => Some (top_level (snd entry))
    | None =>
        match keyed (parent_id (allCriteria (loaded d))) id
                (allCriteria (loaded d)) with
        | [] => None
        | l => Some l
        end
    end.
Proof.
  intros e.
  pose proof (create_codes_NoDup localeCompare (Some d)) as Hnd.
  unfold e. simpl in *.
  rewrite (fold_synthetic_children _ _ _ Hnd). cbn [fst snd].
  rewrite fold_link_child_spec.
  erewrite find_ext_in; [reflexivity|].
  intros [k items] Hin. simpl. f_equal.
  rewrite fold_explicit_root_spec. by unfold rootless.
Qed.

(** ** Outcomes *)

(** X15.  In the engine [create] returns, [allCriteria] holds the criteria
    of the input in their order, followed by one criterion for each outcome
    whose code has no criterion and names no inherited property, with
    clause 1, no parent, and the combinator of the outcome or FIRST.  An
    outcome whose code has criteria, or names an inherited property, adds
    nothing, and without [navigation] in the data no outcome is read. *)
Theorem outcomes_injected localeCompare d e :
  create localeCompare (Some d) = Some e ->
  let input := allCriteria (loaded d) in
  (exists injected,
     allCriteria e = input ++ injected
     /\ Forall (fun c => origin c = FromOutcome /\ clause c = 1
                         /\ parent_clause c = None) injected)
  /\ (forall code,
        members code (allCriteria e)
        = match members code input with
          | [] => match navigation d with
                  | Some _ =>
                      match oget (default [] (data_outcomes d)) code with
                      | Some o =>
                          if inherited code then []
                          else [outcome_criterion code o]
                      | None => []
                      end
                  | None => []
                  end
          | g => g
          end).
Proof.
  intros ->%create_built input.
  set (e := built localeCompare (Some d)). split.
  - apply (fold_inject_outcome_appends _ (input, _)).
  - intros code.
    change (allCriteria e)
      with (fst (fold_left inject_outcome (outcomes (loaded d))
                   (input, fold_left push_plain input []))).
    rewrite fold_inject_outcome_members
      by (simpl; by apply (fold_push_plain_groups _ [] [])).
    cbn [fst]. destruct (members code input); [|done].
    unfold loaded. cbn [outcomes]. by destruct (navigation d).
Qed.

Lemma outcomes_injected_witness :
  exists e,
    create codeunit_compare (Some ex_outcome_data) = Some e
    /\ members "AB" (allCriteria e)
       = [outcome_criterion "AB" {| o_content := Some "ab"; o_logic := None |}]
    /\ members "A" (allCriteria e)
       = [input_criterion "A" 1 None "OR"; input_criterion "A" 2 (Some 1) "OR"].
Proof.
  eexists. split; [reflexivity|].
  split.
  - exact (proj2 (outcomes_injected codeunit_compare ex_outcome_data _ eq_refl)
             "AB").
  - exact (proj2 (outcomes_injected codeunit_compare ex_outcome_data _ eq_refl)
             "A").
Defined.

Lemma find_members (P : Criterion -> bool) code (all : list Criterion) :
  List.find (fun c => String.eqb (crit c) code && P c) all
  = List.find P (members code all).
Proof.
  unfold members. induction all as [|c all IH]; simpl; [done|].
  destruct (String.eqb (crit c) code); simpl; [|done].
  by destruct (P c).
Qed.

Lemma parent_id_member input c id :
  parent_id input c = Some id ->
  exists q, q ∈ input /\ crit q = crit c /\ getCriterionId q = id.
Proof.
  unfold parent_id. destruct (has_parent_ref c) as [p|]; [|done].
  destruct (List.find _ _) as [q|] eqn:Hq; [|done]. intros [= <-].
  apply List.find_some in Hq as [Hq _]. apply list_elem_of_In in Hq.
  apply elem_of_members in Hq as [? ?]. by exists q.
Qed.

Lemma synthetic_id_clause k id c :
  k +:+ "_0" = id -> getCriterionId c = id -> clause c = 0.
Proof.
  intros <- H.
  change (k +:+ "_0") with (getCriterionId (synthetic_root k [])) in H.
  by apply getCriterionId_eq_inv in H as [_ ->].
Qed.

(** X16.  An outcome whose code has no criterion in the input and names
    no inherited property becomes a group of its own in the engine [create]
    returns: the criterion made for it is the only member and the root of
    the group, it has no children, and so the group is satisfied exactly
    when the identity of that criterion, the code followed by [_1], is
    checked. *)
Theorem outcome_group_satisfied localeCompare d e code o :
  create localeCompare (Some d) = Some e ->
  oget (outcomes (loaded d)) code = Some o ->
  members code (allCriteria (loaded d)) = [] ->
  inherited code = false ->
  members code (allCriteria e) = [outcome_criterion code o]
  /\ oget (groupRoots e) code = Some (outcome_criterion code o)
  /\ clauseChildrenMap e !! (code +:+ "_1") = None
  /\ forall e1 fuel,
       indices e1 = indices e -> caches_sound e1 ->
       exists e2,
         isGroupSatisfied (S fuel) code e1
         = Some (VBool (truthy (checkedCriteria e1 !! (code +:+ "_1"))), e2).
Proof.
  intros ->%create_built Hout Hnone Hplain.
  set (e := built localeCompare (Some d)).
  assert (Hmem : members code (allCriteria e) = [outcome_criterion code o]).
  { change (allCriteria e)
      with (fst (fold_left inject_outcome (outcomes (loaded d))
                   (allCriteria (loaded d),
                    fold_left push_plain (allCriteria (loaded d)) []))).
    rewrite fold_inject_outcome_members
      by (simpl; by apply (fold_push_plain_groups _ [] [])).
    cbn [fst]. by rewrite Hnone, Hout, Hplain. }
  assert (Hroot : oget (groupRoots e) code = Some (outcome_criterion code o)).
  { unfold e. rewrite groupRoots_spec. fold e. unfold root_of, explicit_root_of.
    by rewrite find_members, Hmem. }
  assert (Hleaf : clauseChildrenMap e !! (code +:+ "_1") = None).
  { unfold e. rewrite clauseChildrenMap_spec. fold e.
    rewrite find_none_all.
    - rewrite keyed_nil; [done|]. intros c Hc Hkey.
      apply parent_id_member in Hkey as (q & Hq & _ & Hid).
      change (code +:+ "_1") with (getCriterionId (outcome_criterion code o))
        in Hid.
      apply getCriterionId_eq_inv in Hid as [Hcode _].
      assert (Hin : q ∈ members code (allCriteria (loaded d)))
        by by apply elem_of_members.
      rewrite Hnone in Hin. by apply elem_of_nil in Hin.
    - intros [k items] _. simpl.
      destruct (String.eqb (k +:+ "_0") (code +:+ "_1")) eqn:Hk; [|done].
      apply String.eqb_eq in Hk.
      by pose proof (synthetic_id_clause k _ (outcome_criterion code o) Hk
                       eq_refl). }
  split; [done|]. split; [done|]. split; [done|].
  intros e1 fuel Hi Hs.
  assert (Hroot1 : oget (groupRoots e1) code = Some (outcome_criterion code o))
    by (unfold indices in Hi; rewrite <- Hroot; congruence).
  assert (Hleaf1 : clauseChildrenMap e1
                     !! getCriterionId (outcome_criterion code o) = None)
    by (unfold indices in Hi; rewrite <- Hleaf;
        change (getCriterionId (outcome_criterion code o))
          with (code +:+ "_1"); congruence).
  unfold isGroupSatisfied.
  destruct (_groupSatCache e1 !! code) as [b|] eqn:Hcache.
  - destruct (proj1 (proj2 Hs) code b Hcache) as [[|m] Hm];
      unfold group_ref in Hm; rewrite Hroot1 in Hm; [done|].
    unfold sat_ref in Hm. simpl in Hm. rewrite Hleaf1 in Hm.
    injection Hm as <-. by eexists.
  - rewrite Hplain, Hroot1.
    destruct (leaf_result e1 (outcome_criterion code o) fuel Hs
                (root_in_universe _ _ _ Hroot1) Hleaf1) as [e2 He2].
    rewrite He2. by eexists.
Qed.

Lemma outcome_group_satisfied_witness :
  members "AB"
    (allCriteria (engine_of (create codeunit_compare (Some ex_outcome_data))))
  = [outcome_criterion "AB" {| o_content := Some "ab"; o_logic := None |}]
  /\ exists e2,
       isGroupSatisfied 1 "AB"
         (fst (check "AB_1"
                 (engine_of (create codeunit_compare (Some ex_outcome_data)))))
       = Some (VBool true, e2).
Proof.
  destruct (outcome_group_satisfied codeunit_compare ex_outcome_data
              (engine_of (create codeunit_compare (Some ex_outcome_data)))
              "AB" {| o_content := Some "ab"; o_logic := None |})
    as (Hmem & _ & _ & Hsat);
    [reflexivity|reflexivity|reflexivity|reflexivity|].
  split; [exact Hmem|].
  apply (Hsat (fst (check "AB_1"
                      (engine_of (create codeunit_compare
                                    (Some ex_outcome_data))))) 0%nat);
    [reflexivity|by apply caches_sound_empty].
Defined.

(** X17.  The children [buildIndices] links to an identity.  The identity
    of the synthetic root of a group without explicit root, the code
    followed by [_0], gets the members of the group that name no clause of
    the group as parent, whatever was linked to that identity before.  Any
    other identity gets the criteria of the input, in their order, whose
    [parent_clause] is neither empty nor 0 and is the clause of a member of
    their group, the first such member having this identity; an identity
    that no criterion resolves to has no entry. *)
Theorem clauseChildrenMap_closed_form localeCompare d e id :
  create localeCompare (Some d) = Some e ->
  let input := allCriteria (loaded d) in
  clauseChildrenMap e !! id
  = match List.find (fun entry => String.eqb (fst entry +:+ "_0") id
                                  && rootless (allCriteria e) (fst entry))
            (criteriaByCode e) with
    | Some entry => Some (top_level (snd entry))
    | None =>
        match List.filter
                (fun c => match parent_id input c with
                          | Some id' => String.eqb id' id
                          | None => false
                          end) input with
        | [] => None
        | l => Some l
        end
    end.
Proof. intros ->%create_built. apply clauseChildrenMap_spec. Qed.

Lemma clauseChildrenMap_closed_form_witness :
  clauseChildrenMap
    (engine_of (create codeunit_compare (Some ex_rootless_data))) !! "B_0"
  = Some [input_criterion "B" 2 (Some 1) "AND"].
Proof.
  exact (clauseChildrenMap_closed_form codeunit_compare ex_rootless_data
           _ "B_0" eq_refl).
Defined.

(** ** Data with unique identities *)

Lemma NoDup_fmap_eq {A B} (f : A -> B) (l : list A) x y :
  NoDup (f <$> l) -> x ∈ l -> y ∈ l -> f x = f y -> x = y.
Proof.
  induction l as [|a l IH]; intros Hnd Hx Hy Hf;
    [by apply elem_of_nil in Hx|].
  rewrite fmap_cons in Hnd. apply NoDup_cons in Hnd as [Ha Hnd].
  apply elem_of_cons in Hx as [->|Hx]; apply elem_of_cons in Hy as [->|Hy].
  - done.
  - destruct Ha. rewrite Hf. apply list_elem_of_fmap. by exists y.
  - destruct Ha. rewrite <- Hf. apply list_elem_of_fmap. by exists x.
  - by apply IH.
Qed.

Lemma members_nil_crit code (cs : list Criterion) c :
  members code cs = [] -> c ∈ cs -> crit c <> code.
Proof.
  intros Hnil Hc Hcode.
  assert (Hin : c ∈ members code cs) by by apply elem_of_members.
  rewrite Hnil in Hin. by apply elem_of_nil in Hin.
Qed.

Lemma fold_inject_outcome_ids outs : forall st,
  groups_of (snd st) (fst st) ->
  NoDup (getCriterionId <$> fst st) ->
  NoDup (getCriterionId <$> fst (fold_left inject_outcome outs st)).
Proof.
  induction outs as [|[k o] outs IH]; intros st Hg Hnd; [done|].
  change (fold_left inject_outcome ((k, o) :: outs) st)
    with (fold_left inject_outcome outs (inject_outcome st (k, o))).
  apply IH; [by apply inject_outcome_groups|].
  rewrite inject_outcome_step. pose proof (Hg k) as Hk.
  destruct (oget (snd st) k); [done|].
  destruct (inherited k); [done|]. cbn [fst].
  rewrite fmap_app. apply NoDup_app. split; [done|].
  split; [|apply NoDup_singleton].
  intros id Hid Hid'. apply list_elem_of_singleton in Hid' as ->.
  apply list_elem_of_fmap in Hid as (c & Hc & Hin).
  symmetry in Hc. apply getCriterionId_eq_inv in Hc as [Hcode _].
  destruct (members k (fst st)) eqn:Hm; [|done].
  by apply (members_nil_crit k (fst st) c).
Qed.

Lemma fold_explicit_root_NoDup all : forall roots,
  NoDup (okeys roots) -> NoDup (okeys (fold_left explicit_root all roots)).
Proof.
  induction all as [|c all IH]; intros roots H; simpl; [done|].
  apply IH. unfold explicit_root.
  destruct (has_parent_ref c); [done|].
  destruct (oget roots (crit c)); [done|]. by apply NoDup_okeys_oset.
Qed.

Lemma fold_synthetic_NoDup entries : forall st,
  NoDup (okeys (fst st)) ->
  NoDup (okeys (fst (fold_left add_synthetic_root entries st))).
Proof.
  induction entries as [|[k items] entries IH]; intros st H; simpl; [done|].
  apply IH. destruct (oget (fst st) k); [done|]. simpl.
  by apply NoDup_okeys_oset.
Qed.

Lemma create_roots_NoDup localeCompare data :
  NoDup (okeys (groupRoots (built localeCompare data))).
Proof.
  destruct data as [d|]; [|apply NoDup_nil_2]. simpl.
  apply fold_synthetic_NoDup. simpl.
  apply fold_explicit_root_NoDup, NoDup_nil_2.
Qed.

(** A criterion the engine holds is listed in [allCriteria] or is the
    synthetic root of a group without explicit root. *)
Lemma create_universe localeCompare data c :
  let e := built localeCompare data in
  c ∈ universe e ->
  c ∈ allCriteria e
  \/ exists code,
       explicit_root_of code (allCriteria e) = None
       /\ c = synthetic_root code (top_level (members code (allCriteria e))).
Proof.
  intros e Hc. apply elem_of_app in Hc as [Hc|Hc]; [by left|].
  apply (elem_of_ovalues _ _ (create_roots_NoDup localeCompare data)) in Hc
    as [code Hroot].
  unfold e in Hroot. rewrite groupRoots_spec in Hroot. fold e in Hroot.
  unfold root_of in Hroot.
  destruct (explicit_root_of code (allCriteria e)) as [r|] eqn:Hex.
  - injection Hroot as <-. left. unfold explicit_root_of in Hex.
    apply List.find_some in Hex as [Hin _]. by apply list_elem_of_In.
  - right. exists code. split; [done|].
    destruct (members code (allCriteria e)); [done|]. by injection Hroot.
Qed.

Lemma distinct_ids_determine localeCompare d c c' :
  let e := built localeCompare (Some d) in
  distinct_ids (allCriteria (loaded d)) ->
  c ∈ universe e -> c' ∈ universe e ->
  getCriterionId c = getCriterionId c' -> c = c'.
Proof.
  intros e [Hnd Hzero] Hc Hc' Hid.
  destruct (fold_inject_outcome_appends (outcomes (loaded d))
              (allCriteria (loaded d),
               fold_left push_plain (allCriteria (loaded d)) []))
    as (injected & Hall & Hinj).
  change (allCriteria e = allCriteria (loaded d) ++ injected) in Hall.
  assert (Hids : NoDup (getCriterionId <$> allCriteria e)).
  { apply (fold_inject_outcome_ids _ (allCriteria (loaded d), _)); [|done].
    simpl. by apply (fold_push_plain_groups _ [] []). }
  assert (Hclash : forall x code,
            x ∈ allCriteria e ->
            explicit_root_of code (allCriteria e) = None ->
            getCriterionId x
            <> getCriterionId
                 (synthetic_root code
                    (top_level (members code (allCriteria e))))).
  { intros x code Hx Hex Hxid.
    apply getCriterionId_eq_inv in Hxid as [Hcode Hclause]. simpl in *.
    unfold explicit_root_of in Hex.
    pose proof (List.find_none _ _ Hex x
                  ltac:(by apply list_elem_of_In)) as Hf.
    simpl in Hf. rewrite Hcode, String.eqb_refl in Hf. simpl in Hf.
    rewrite Hall in Hx. apply elem_of_app in Hx as [Hx|Hx].
    - rewrite (proj1 (Forall_forall _ _) Hzero x Hx Hclause) in Hf. done.
    - destruct (proj1 (Forall_forall _ _) Hinj x Hx) as (_ & H1 & _). lia. }
  destruct (create_universe _ _ _ Hc) as [Hin|(code & Hex & ->)];
    destruct (create_universe _ _ _ Hc') as [Hin'|(code' & Hex' & ->)].
  - by apply (NoDup_fmap_eq getCriterionId (allCriteria e)).
  - by destruct (Hclash c code' Hin Hex').
  - by destruct (Hclash c' code Hin' Hex).
  - apply getCriterionId_eq_inv in Hid as [Hcode _]. simpl in Hcode.
    by rewrite Hcode.
Qed.

(** X18.  From data with unique identities, the engine [create] returns
    is one in which an identity names one criterion object only, among the
    criteria listed and the roots of the groups, and in which every child
    linked is such an object.  These are the two conditions under which the
    memo tables, keyed by identity, are sound. *)
Theorem distinct_ids_well_formed localeCompare d e :
  distinct_ids (allCriteria (loaded d)) ->
  create localeCompare (Some d) = Some e ->
  well_formed e
  /\ forall c c', c ∈ universe e -> c' ∈ universe e ->
                  getCriterionId c = getCriterionId c' -> c = c'.
Proof.
  intros Hd ->%create_built.
  set (e := built localeCompare (Some d)).
  assert (Hdet : forall c c', c ∈ universe e -> c' ∈ universe e ->
                   getCriterionId c = getCriterionId c' -> c = c')
    by (intros c c'; by apply distinct_ids_determine).
  split; [|exact Hdet]. split.
  - apply built_children_known.
  - apply Forall_forall. intros c Hc. apply Forall_forall. intros c' Hc' Hid.
    by rewrite (Hdet c c' Hc Hc' Hid).
Qed.

Lemma distinct_ids_well_formed_witness :
  well_formed (engine_of (create codeunit_compare (Some ex_rootless_data))).
Proof.
  apply (distinct_ids_well_formed codeunit_compare ex_rootless_data).
  - split.
    + refine (bool_decide_eq_true_1 _ _). vm_compute. reflexivity.
    + refine (bool_decide_eq_true_1 _ _). vm_compute. reflexivity.
  - reflexivity.
Defined.

(** ** The memo tables over the life of an engine *)

Lemma listeners_keep_sound f e :
  well_formed e -> caches_sound e ->
  well_formed (set_listeners f e) /\ caches_sound (set_listeners f e).
Proof. by destruct e. Qed.

Lemma used_invariant localeCompare data e0 e :
  create localeCompare data = Some e0 -> well_formed e0 ->
  Used localeCompare data e -> well_formed e /\ caches_sound e.
Proof.
  intros Hcreate Hwf.
  induction 1 as [e Hc|e id _ [IH1 IH2]|e id _ [IH1 IH2]
                  |e id _ [IH1 IH2]|e _ [IH1 IH2]
                  |e fn _ [IH1 IH2]|e fn _ [IH1 IH2]
                  |e fuel r a e' _ [IH1 IH2] Hproper Hrun].
  - rewrite Hcreate in Hc. injection Hc as <-.
    split; [done|by apply (create_caches_sound localeCompare data)].
  - apply (mutation_keeps_sound e id IH1 IH2).
  - apply (mutation_keeps_sound e id IH1 IH2).
  - apply (mutation_keeps_sound e id IH1 IH2).
  - apply (mutation_keeps_sound e "" IH1 IH2).
  - by apply listeners_keep_sound.
  - by apply listeners_keep_sound.
  - by apply (read_keeps_sound localeCompare fuel r e a e').
Qed.

(** X19.  The memo tables are never stale in an engine that is created
    well formed.  Let the engine [create] returns be well formed: each
    identity names one combinator, and the children linked are criteria of
    the engine (as data with unique identities gives).  Then in every state
    the engine goes through, when the reads are passed criteria of the
    engine, an answer of [isClauseSatisfied], and a boolean answer of
    [isGroupSatisfied], from a table or not, is the answer of the
    evaluation that uses no table, on the selection of that state; a
    boolean answer for a code without root is [false].  The other answers
    of [isGroupSatisfied] are the inherited values, returned for a code
    that names an inherited property and has no entry in the table. *)
Theorem tables_never_stale localeCompare data e0 e :
  create localeCompare data = Some e0 ->
  well_formed e0 ->
  Used localeCompare data e ->
  (forall fuel c b e',
     c ∈ universe e -> isClauseSatisfied fuel c e = Some (b, e') ->
     exists m, sat_pure (clauseChildrenMap e) (checkedCriteria e) m c = Some b)
  /\ (forall fuel code r e',
        isGroupSatisfied fuel code e = Some (r, e') ->
        match r with
        | VBool b =>
            match oget (groupRoots e) code with
            | Some root =>
                exists m,
                  sat_pure (clauseChildrenMap e) (checkedCriteria e) m root
                  = Some b
            | None => b = false
            end
        | VProto name =>
            name = code /\ inherited code = true
            /\ _groupSatCache e !! code = None
        end).
Proof.
  intros Hcreate Hwf Hused.
  destruct (used_invariant _ _ _ _ Hcreate Hwf Hused) as [Hwf' Hs]. split.
  - intros fuel c b e' Hc Hrun.
    by destruct (isClauseSatisfied_sound _ _ _ _ _ Hwf' Hs Hc Hrun) as [? _].
  - intros fuel code r e' Hrun.
    destruct (isGroupSatisfied_sound _ _ _ _ _ Hwf' Hs Hrun) as [Hr _].
    destruct r as [b|name].
    + destruct Hr as [m Hm].
      unfold group_ref in Hm. destruct (oget (groupRoots e) code).
      * by exists m.
      * by injection Hm.
    + by destruct Hr as (? & ? & ? & _).
Qed.

Lemma tables_never_stale_witness :
  exists m, sat_pure (clauseChildrenMap ex_uniform) (checkedCriteria ex_uniform)
              m ex_uniform_parent = Some false.
Proof.
  destruct (tables_never_stale codeunit_compare
              (data_of (ex_uniform_parent :: ex_uniform_children))
              (engine_of
                 (create codeunit_compare
                    (data_of (ex_uniform_parent :: ex_uniform_children))))
              ex_uniform) as [H _].
  - reflexivity.
  - apply well_formed_compute. vm_compute. reflexivity.
  - apply Used_check, Used_create. reflexivity.
  - apply (H 2%nat ex_uniform_parent false
             (match isClauseSatisfied 2 ex_uniform_parent ex_uniform with
              | Some (_, e') => e'
              | None => ex_uniform
              end)).
    + refine (bool_decide_eq_true_1 _ _). vm_compute. reflexivity.
    + reflexivity.
Defined.

(** ** The selection is read at the leaves only *)







(** ** Ties in the current level *)

Lemma length_0_empty s : String.length s = 0%nat -> s = "".
Proof. by destruct s. Qed.

Lemma deepest_step_first v seen d code :
  scan_first v seen d -> scan_first v (seen ++ [code]) (deepest_step v d code).
Proof.
  intros Hd. unfold deepest_step.
  destruct (v code) eqn:Hv; simpl.
  - destruct d as [x|]; simpl in *.
    + destruct Hd as (l1 & l2 & -> & Hx & H1 & H2).
      destruct (String.length x =? 0)%nat eqn:H0; simpl.
      * apply Nat.eqb_eq in H0.
        destruct (String.length code) as [|n] eqn:Hn.
        -- apply length_0_empty in H0 as ->.
           apply length_0_empty in Hn as ->.
           exists l1, (l2 ++ [""]). rewrite <- app_assoc. split; [done|].
           split; [done|]. split; [done|].
           intros c Hc Hvc. apply elem_of_app in Hc as [Hc|Hc]; [by apply H2|].
           apply list_elem_of_singleton in Hc as ->. simpl. lia.
        -- exists (l1 ++ x :: l2), []. split; [done|]. split; [done|].
           split; [|intros c Hc; by apply elem_of_nil in Hc].
           intros c Hc Hvc. rewrite Hn.
           apply elem_of_app in Hc as [Hc|Hc];
             [specialize (H1 c Hc Hvc); lia|].
           apply elem_of_cons in Hc as [->|Hc]; [lia|].
           specialize (H2 c Hc Hvc). lia.
      * apply Nat.eqb_neq in H0.
        destruct (String.length x <? String.length code)%nat eqn:Hlt.
        -- apply Nat.ltb_lt in Hlt.
           exists (l1 ++ x :: l2), []. split; [done|]. split; [done|].
           split; [|intros c Hc; by apply elem_of_nil in Hc].
           intros c Hc Hvc.
           apply elem_of_app in Hc as [Hc|Hc];
             [specialize (H1 c Hc Hvc); lia|].
           apply elem_of_cons in Hc as [->|Hc]; [lia|].
           specialize (H2 c Hc Hvc). lia.
        -- apply Nat.ltb_ge in Hlt.
           exists l1, (l2 ++ [code]). rewrite <- app_assoc. split; [done|].
           split; [done|]. split; [done|].
           intros c Hc Hvc. apply elem_of_app in Hc as [Hc|Hc]; [by apply H2|].
           by apply list_elem_of_singleton in Hc as ->.
    + exists seen, []. split; [done|]. split; [done|].
      split; [|intros c Hc; by apply elem_of_nil in Hc].
      intros c Hc Hvc. rewrite (Hd c Hc) in Hvc. done.
  - destruct d as [x|]; simpl in *.
    + destruct Hd as (l1 & l2 & -> & Hx & H1 & H2).
      exists l1, (l2 ++ [code]). rewrite <- app_assoc. split; [done|].
      split; [done|]. split; [done|].
      intros c Hc Hvc. apply elem_of_app in Hc as [Hc|Hc]; [by apply H2|].
      apply list_elem_of_singleton in Hc as ->. congruence.
    + intros c Hc. apply elem_of_app in Hc as [Hc|Hc]; [by apply Hd|].
      by apply list_elem_of_singleton in Hc as ->.
Qed.

Lemma deepest_of_first v codes : forall seen d,
  scan_first v seen d -> scan_first v (seen ++ codes) (deepest_of v codes d).
Proof.
  induction codes as [|code codes IH]; intros seen d Hd; simpl.
  - by rewrite app_nil_r.
  - rewrite (cons_middle code seen codes), app_assoc.
    apply IH. by apply deepest_step_first.
Qed.

(** X21.  Among the satisfied codes of the greatest length,
    [findCurrentLevel] returns the one that comes first in the key order of
    [groupRoots]: every satisfied code before the result is shorter, and no
    satisfied code after it is longer. *)
Theorem findCurrentLevel_first_longest e v fuel x e' :
  well_formed e -> caches_sound e ->
  Forall (fun code => group_evaluates e code (v code)) (okeys (groupRoots e)) ->
  findCurrentLevel fuel e = Some (Some x, e') ->
  exists l1 l2,
    okeys (groupRoots e) = l1 ++ x :: l2 /\ v x = true
    /\ (forall c, c ∈ l1 -> v c = true ->
                  (String.length c < String.length x)%nat)
    /\ (forall c, c ∈ l2 -> v c = true ->
                  (String.length c <= String.length x)%nat).
Proof.
  intros Hwf Hs Hv Hrun.
  destruct (findCurrentLevel_result e v Hwf Hs Hv) as [_ Huniq].
  pose proof (Huniq _ _ _ Hrun) as Hr.
  pose proof (deepest_of_first v (okeys (groupRoots e)) [] None
                ltac:(intros c Hc; by apply elem_of_nil in Hc)) as Hd.
  simpl in Hd. rewrite <- Hr in Hd. exact Hd.
Qed.

Lemma findCurrentLevel_first_longest_witness :
  exists l1 l2,
    okeys (groupRoots ex_tie) = l1 ++ "AB" :: l2
    /\ (fun _ : string => true) "AB" = true
    /\ (forall c, c ∈ l1 -> (fun _ : string => true) c = true ->
                  (String.length c < String.length "AB")%nat)
    /\ (forall c, c ∈ l2 -> (fun _ : string => true) c = true ->
                  (String.length c <= String.length "AB")%nat).
Proof.
  apply (findCurrentLevel_first_longest ex_tie (fun _ => true) 2%nat "AB"
           (match findCurrentLevel 2 ex_tie with
            | Some (_, e') => e'
            | None => ex_tie
            end)).
  - apply well_formed_compute. vm_compute. reflexivity.
  - by apply caches_sound_empty.
  - repeat constructor.
    + exists 2%nat. eexists. reflexivity.
    + exists 2%nat. eexists. reflexivity.
  - reflexivity.
Defined.

(** ** Termination on data whose references point back *)

Lemma clause_lt_bound (cs : list Criterion) c :
  c ∈ cs -> clause c < clause_bound cs.
Proof.
  unfold clause_bound. induction cs as [|x cs IH]; intros Hc;
    [by apply elem_of_nil in Hc|].
  rewrite fmap_cons. simpl. apply elem_of_cons in Hc as [->|Hc]; [lia|].
  specialize (IH Hc). lia.
Qed.

Lemma clause_rank_id e c :
  c ∈ universe e ->
  clause_rank e (getCriterionId c)
  = Z.to_nat (clause_bound (universe e) - clause c).
Proof.
  intros Hc. unfold clause_rank.
  destruct (List.find _ (universe e)) as [c'|] eqn:Hfind.
  - apply List.find_some in Hfind as [_ Hid]. apply String.eqb_eq in Hid.
    by apply getCriterionId_eq_inv in Hid as [_ ->].
  - pose proof (List.find_none _ _ Hfind c ltac:(by apply list_elem_of_In)) as H.
    simpl in H. by rewrite String.eqb_refl in H.
Qed.

Lemma foldr_max_bound {A} (h : A -> nat) (l : list A) x :
  x ∈ l -> (h x <= foldr Nat.max 0%nat (h <$> l))%nat.
Proof.
  induction l as [|y l IH]; intros Hx; [by apply elem_of_nil in Hx|].
  rewrite fmap_cons. simpl. apply elem_of_cons in Hx as [->|Hx]; [lia|].
  specialize (IH Hx). lia.
Qed.

Lemma rank_lt_depth_bound e c :
  c ∈ universe e -> (clause_rank e (getCriterionId c) < depth_bound e)%nat.
Proof.
  intros Hc. unfold depth_bound.
  pose proof (foldr_max_bound (fun c => clause_rank e (getCriterionId c))
                (universe e) c Hc) as H.
  simpl in H. lia.
Qed.

Lemma create_input_listed localeCompare d c :
  c ∈ allCriteria (loaded d) ->
  c ∈ allCriteria (built localeCompare (Some d)).
Proof.
  intros Hc.
  destruct (fold_inject_outcome_appends (outcomes (loaded d))
              (allCriteria (loaded d),
               fold_left push_plain (allCriteria (loaded d)) []))
    as (injected & Hall & _).
  change (allCriteria (built localeCompare (Some d))
          = allCriteria (loaded d) ++ injected) in Hall.
  rewrite Hall. apply elem_of_app. by left.
Qed.

Lemma create_listed_origin localeCompare d c :
  c ∈ allCriteria (built localeCompare (Some d)) ->
  c ∈ allCriteria (loaded d) \/ parent_clause c = None.
Proof.
  destruct (fold_inject_outcome_appends (outcomes (loaded d))
              (allCriteria (loaded d),
               fold_left push_plain (allCriteria (loaded d)) []))
    as (injected & Hall & Hinj).
  change (allCriteria (built localeCompare (Some d))
          = allCriteria (loaded d) ++ injected) in Hall.
  rewrite Hall. intros Hc. apply elem_of_app in Hc as [Hc|Hc]; [by left|].
  right. by destruct (proj1 (Forall_forall _ _) Hinj c Hc) as (_ & _ & ?).
Qed.

Lemma forward_rank localeCompare d id cs x :
  let e := built localeCompare (Some d) in
  forward (allCriteria (loaded d)) ->
  clauseChildrenMap e !! id = Some cs -> x ∈ cs ->
  (clause_rank e (getCriterionId x) < clause_rank e id)%nat.
Proof.
  intros e Hfw Hcs Hx.
  assert (Hlt : forall y z, y ∈ universe e -> z ∈ universe e ->
                  clause y < clause z ->
                  (clause_rank e (getCriterionId z)
                   < clause_rank e (getCriterionId y))%nat).
  { intros y z Hy Hz Hyz. rewrite !clause_rank_id by done.
    pose proof (clause_lt_bound _ _ Hz). lia. }
  assert (Hin : forall y, y ∈ allCriteria (loaded d) -> y ∈ universe e).
  { intros y Hy. apply elem_of_app. left. by apply create_input_listed. }
  unfold e in Hcs. rewrite clauseChildrenMap_spec in Hcs. fold e in Hcs.
  destruct (List.find _ (criteriaByCode e)) as [[k items]|] eqn:Hfind.
  - injection Hcs as <-. simpl in Hx.
    apply List.find_some in Hfind as [Hent Hk]. cbn [fst] in Hk.
    apply andb_true_iff in Hk as [Hk Hroot].
    apply String.eqb_eq in Hk as <-. apply list_elem_of_In in Hent.
    pose proof (NoDup_oget_entry _ _ _
                  (create_codes_NoDup localeCompare (Some d)) Hent) as Hget.
    fold e in Hget.
    pose proof (built_groups localeCompare (Some d) k) as Hg. fold e in Hg.
    rewrite Hget in Hg.
    assert (Hitems : items = members k (allCriteria e))
      by (destruct (members k (allCriteria e)); [done|by injection Hg]).
    apply top_level_subset in Hx. rewrite Hitems in Hx.
    pose proof Hx as Hx'. apply elem_of_members in Hx' as [Hxall Hxk].
    unfold rootless in Hroot.
    destruct (explicit_root_of k (allCriteria e)) eqn:Hex; [done|].
    pose proof (List.find_none _ _ Hex x ltac:(by apply list_elem_of_In))
      as Hnot.
    simpl in Hnot. rewrite Hxk, String.eqb_refl in Hnot. simpl in Hnot.
    destruct (has_parent_ref x) as [p|] eqn:Hp; [|done].
    destruct (create_listed_origin _ _ _ Hxall) as [Hxin|Hnone];
      [|unfold has_parent_ref in Hp; by rewrite Hnone in Hp].
    pose proof (proj1 (Forall_forall _ _) Hfw x Hxin) as Hfx. simpl in Hfx.
    rewrite Hp in Hfx.
    set (root := synthetic_root k (top_level (members k (allCriteria e)))).
    assert (Hrootin : root ∈ universe e).
    { apply (root_in_universe e k). unfold e. rewrite groupRoots_spec.
      fold e. unfold root_of. rewrite Hex.
      destruct (members k (allCriteria e)) eqn:Hm; [|done].
      by apply elem_of_nil in Hx. }
    change (k +:+ "_0") with (getCriterionId root).
    apply Hlt; [done|by apply Hin|]. simpl. lia.
  - destruct (keyed _ id _) eqn:Hk; [done|]. injection Hcs as <-.
    rewrite <- Hk in Hx. apply elem_of_keyed in Hx as [Hxin Hpid].
    pose proof (proj1 (Forall_forall _ _) Hfw x Hxin) as Hfx. simpl in Hfx.
    unfold parent_id in Hpid.
    destruct (has_parent_ref x) as [p|]; [|done].
    destruct (List.find _ (members (crit x) _)) as [q|] eqn:Hq; [|done].
    injection Hpid as <-.
    apply List.find_some in Hq as [Hqin Hqp]. apply list_elem_of_In in Hqin.
    apply elem_of_members in Hqin as [Hqin _].
    apply Z.eqb_eq in Hqp.
    apply Hlt; [by apply Hin|by apply Hin|lia].
Qed.

Lemma scan_pure_defined stop f (xs : list Criterion) :
  (forall x, x ∈ xs -> is_Some (f x)) -> is_Some (scan_pure stop f xs).
Proof.
  intros H.
  rewrite (scan_pure_total stop f (fun x => default false (f x)) xs);
    [by eexists|].
  intros x Hx. by destruct (H x Hx) as [b ->].
Qed.

Lemma siblings_pure_defined f (cs : list Criterion) l :
  (forall x, x ∈ cs -> is_Some (f x)) -> is_Some (siblings_pure f cs l).
Proof.
  intros H. unfold siblings_pure. destruct (uniform_logic cs l).
  - by apply scan_pure_defined.
  - rewrite (map_runs_pure_total f (fun x => default false (f x)));
      [by eexists|].
    intros run x Hrun Hx.
    destruct (H x (group_runs_elem cs run x Hrun Hx)) as [b ->]. done.
Qed.

Lemma used_reachable localeCompare data e :
  Used localeCompare data e -> Reachable localeCompare data e.
Proof.
  induction 1; try by constructor.
  by apply (Reach_read _ _ e fuel r a e').
Qed.

Lemma forward_sat_defined localeCompare d e c :
  let e0 := built localeCompare (Some d) in
  forward (allCriteria (loaded d)) ->
  clauseChildrenMap e = clauseChildrenMap e0 -> c ∈ universe e0 ->
  is_Some (sat_ref e (depth_bound e0) c).
Proof.
  intros e0 Hfw Hch Hc. unfold sat_ref. rewrite Hch.
  destruct (sat_pure_acyclic (clauseChildrenMap e0) (checkedCriteria e)
              (clause_rank e0)) with (n := depth_bound e0) (c := c) as [b Hb].
  - intros id cs x. by apply forward_rank.
  - by apply rank_lt_depth_bound.
  - by exists b.
Qed.

Lemma built_roots_plain localeCompare data code :
  plain_codes data ->
  code ∈ okeys (groupRoots (built localeCompare data)) ->
  inherited code = false.
Proof.
  intros Hplain Hcode. apply (built_codes_plain localeCompare data); [done|].
  apply okeys_is_Some in Hcode as [root Hroot].
  rewrite groupRoots_spec in Hroot. unfold root_of in Hroot.
  pose proof (built_groups localeCompare data code) as Hg.
  destruct (members code (allCriteria (built localeCompare data)))
    as [|q l] eqn:Hm.
  - destruct (explicit_root_of code _) as [r|] eqn:Hex; [|done].
    unfold explicit_root_of in Hex.
    apply List.find_some in Hex as [Hin Hr].
    apply andb_true_iff in Hr as [Hr _]. apply String.eqb_eq in Hr.
    assert (Hmem : r ∈ members code (allCriteria (built localeCompare data)))
      by (apply elem_of_members; split; [by apply list_elem_of_In|done]).
    rewrite Hm in Hmem. by apply elem_of_nil in Hmem.
  - by apply (oget_key _ _ (q :: l)).
Qed.

(** X22.  No read overflows the stack on data whose references point
    back.  When every [parent_clause] that is set is a positive number below
    the criterion's own clause, one stack depth, fixed by the data, is
    enough for every read in every state of the engine: each read that is
    passed criteria of the engine returns. *)
Theorem forward_references_terminate localeCompare d e0 e r :
  create localeCompare (Some d) = Some e0 ->
  well_formed e0 -> forward (allCriteria (loaded d)) ->
  Used localeCompare (Some d) e -> proper_read e r ->
  exists a e', runRead localeCompare (depth_bound e0) r e = Some (a, e').
Proof.
  intros Hcreate Hwf0 Hfw Hused Hproper.
  destruct (used_invariant _ _ _ _ Hcreate Hwf0 Hused) as [Hwf Hs].
  destruct (reachable_invariant _ _ _ (used_reachable _ _ _ Hused))
    as (Hi & _ & _).
  apply create_inv in Hcreate as [-> Hplain].
  set (e0 := built localeCompare (Some d)) in *.
  assert (Hch : clauseChildrenMap e = clauseChildrenMap e0)
    by (unfold indices in Hi; congruence).
  assert (Hu : universe e = universe e0)
    by (unfold universe; unfold indices in Hi; congruence).
  assert (Hroots : groupRoots e = groupRoots e0)
    by (unfold indices in Hi; congruence).
  set (N := depth_bound e0).
  assert (Hsat : forall c, c ∈ universe e -> is_Some (sat_ref e N c)).
  { intros c Hc. rewrite Hu in Hc. by apply forward_sat_defined. }
  assert (Hgroup : forall code, is_Some (group_ref e N code)).
  { intros code. unfold group_ref.
    destruct (oget (groupRoots e) code) as [root|] eqn:Hroot; [|by eexists].
    by apply Hsat, (root_in_universe e code). }
  assert (Hlevel : exists r0 e1, findCurrentLevel N e = Some (r0, e1)).
  { destruct (findCurrentLevel_loop_complete N
                (fun code => default false (group_ref e N code))
                (okeys (groupRoots e)) None e Hwf Hs) as [e1 He1].
    - intros code Hcode. left. rewrite Hroots in Hcode.
      by apply (built_roots_plain localeCompare (Some d)).
    - intros code _. by destruct (Hgroup code) as [b ->].
    - by eexists _, e1. }
  destruct r; cbv [runRead answer]; simpl in Hproper; try by eexists _, _.
  - destruct (isLeafCriterion c e). by eexists _, _.
  - destruct (Hsat c Hproper) as [b Hb].
    destruct (isClauseSatisfied_complete N c e b Hwf Hs Hproper Hb)
      as [e1 ->].
    by eexists _, _.
  - destruct (siblings_pure_defined (sat_ref e N) siblings parentLogic)
      as [b Hb].
    { intros x Hx. apply Hsat.
      by apply (proj1 (Forall_forall _ _) Hproper). }
    destruct (siblings_complete e (isClauseSatisfied N) (sat_ref e N) siblings)
      with (l := parentLogic) (e := e) (b := b) as (e1 & Hev & _);
      [|done|done|].
    + intros x e3 b3 Hx [Hs3 Hst3] Hx3.
      assert (Hwf3 : well_formed e3) by by apply (static_well_formed e).
      assert (Hx' : x ∈ universe e3).
      { rewrite (static_universe e) by done.
        by apply (proj1 (Forall_forall _ _) Hproper). }
      destruct (isClauseSatisfied_complete N x e3 b3) as [e3' He3'];
        [done|done|done|by rewrite (static_sat_ref e)|].
      exists e3'. split; [done|].
      destruct (isClauseSatisfied_sound _ _ _ _ _ Hwf3 Hs3 Hx' He3')
        as (_ & Hs3' & Hst3').
      split; [done|congruence].
    + unfold evaluateSiblingLogic. rewrite Hev. by eexists _, _.
  - destruct (Hgroup code) as [b Hb].
    destruct (inherited code) eqn:Hin.
    + destruct (_groupSatCache e !! code) as [b0|] eqn:Hcache.
      * destruct (isGroupSatisfied_complete N code e b Hwf Hs) as [e1 ->];
          [right; rewrite Hcache; by eexists|done|].
        by eexists _, _.
      * unfold isGroupSatisfied. rewrite Hcache, Hin. by eexists _, _.
    + destruct (isGroupSatisfied_complete N code e b Hwf Hs) as [e1 ->];
        [by left|done|].
      by eexists _, _.
  - destruct Hlevel as (r0 & e1 & ->). by eexists _, _.
  - unfold getVisibleGroups. destruct Hlevel as (r0 & e1 & ->).
    destruct (code_truthy r0); by eexists _, _.
  - destruct (getCheckedLeaves localeCompare e). by eexists _, _.
  - unfold getClassificationPath. destruct Hlevel as (r0 & e1 & ->).
    destruct (code_truthy r0); by eexists _, _.
  - unfold getCurrentClassification. destruct Hlevel as (r0 & e1 & ->).
    destruct (code_truthy r0); by eexists _, _.
  - unfold getClassificationLevel. destruct Hlevel as (r0 & e1 & ->).
    destruct (code_truthy r0); by eexists _, _.
  - unfold getClassificationBreadcrumb. destruct Hlevel as (r0 & e1 & ->).
    destruct (code_truthy r0); by eexists _, _.
Qed.

Lemma forward_references_terminate_witness :
  exists a e',
    runRead codeunit_compare
      (depth_bound
         (engine_of (create codeunit_compare (Some ex_forward_data))))
      (RIsGroupSatisfied "B")
      (fst (check "B_3"
              (engine_of (create codeunit_compare (Some ex_forward_data)))))
    = Some (a, e').
Proof.
  apply (forward_references_terminate codeunit_compare ex_forward_data
           (engine_of (create codeunit_compare (Some ex_forward_data)))
           (fst (check "B_3"
                   (engine_of (create codeunit_compare
                                 (Some ex_forward_data)))))
           (RIsGroupSatisfied "B")).
  - reflexivity.
  - apply well_formed_compute. vm_compute. reflexivity.
  - repeat constructor.
  - apply Used_check, Used_create. reflexivity.
  - exact I.
Defined.
